(** * govfs: the generated virtual file system and its generator

    A shallow embedding of [main.go].  The program has two halves:

    - the run-time package that every generated artifact carries (the text of
      [tmplHeader]): a table [store] from virtual paths to embedded files, and
      the cursor type [File] with [Open], [Read] and [Seek]; it is embedded in
      module [Vfs];
    - the generator itself ([Generate], [walk], [writeFile]), which walks the
      matched sources, streams every regular file through Adler-32 and writes
      one table entry per file; it is embedded in module [Gen];
    - the command around it ([main], [resolveSources]), embedded in module
      [Cmd], and the tests it can generate ([tmplTest]), in module [Tests].

    Go's [int64] and [int] are modelled as [Z] with the wrap-around written
    out ([int] is taken to be 64 bits wide, as on amd64 and arm64); byte
    slices are [list byte]; Go maps are [gmap]. *)

From Stdlib Require Import ZArith Lia Strings.Byte Ascii String List.
From stdpp Require Import base option list gmap strings pretty.

Open Scope Z_scope.

(** ** Machine integers *)

Module Int64.

Definition min : Z := - 2 ^ 63.
Definition max : Z := 2 ^ 63 - 1.

(** The values an [int64] variable can hold. *)
Definition in_range (z : Z) : Prop := min <= z <= max.

(** Two's complement wrap-around of an arithmetic result. *)
Definition wrap (z : Z) : Z := (z + 2 ^ 63) mod 2 ^ 64 - 2 ^ 63.

End Int64.

(** [len(s)] of a slice, as an [int]. *)
Definition len {A : Type} (s : list A) : Z := Z.of_nat (length s).

(** [s[lo:hi]] for in-range bounds (the callers check the bounds, as the Go
    run time does before slicing). *)
Definition slice {A : Type} (s : list A) (lo hi : Z) : list A :=
  take (Z.to_nat (hi - lo)) (drop (Z.to_nat lo) s).

(** The builtin [copy(dst, src)]: overwrites the first
    [min(len(dst), len(src))] elements of [dst]; returns the new [dst]. *)
Definition copy {A : Type} (dst src : list A) : list A :=
  let n := Nat.min (length dst) (length src) in
  take n src ++ drop n dst.

(** ** The generated run-time package *)

Module Vfs.

(** [const maxSize = int64(math.MaxInt32)] *)
Definition maxSize : Z := 2147483647.

(** [io.SeekStart], [io.SeekCurrent], [io.SeekEnd] *)
Definition SeekStart : Z := 0.
Definition SeekCurrent : Z := 1.
Definition SeekEnd : Z := 2.

(** The error values the package returns: [io.EOF] and one constructor per
    [fmt.Errorf] call, carrying the arguments of the format. *)
Inductive error : Type :=
| EOF
| FileNotFound (path : string)
| VersionMismatch (requested actual path : string)
| InvalidOffset (offset : Z)
| InvalidWhence (whence : Z).

(** The message of an error value ([err.Error()]). *)
Definition Error (e : error) : string :=
  match e with
  | EOF => "EOF"
  | FileNotFound p => "file not found: " +:+ p
  | VersionMismatch r a p =>
      "version mismatch (requested: " +:+ r +:+ ", actual: " +:+ a +:+ "): " +:+ p
  | InvalidOffset o => "invalid target offset: " +:+ pretty o
  | InvalidWhence w => "invalid seek whence: " +:+ pretty w
  end.

(** [type file struct { contents []byte; version string }] *)
Record file : Type := mkfile { contents : list byte; version : string }.

(** [type File struct { f *file; path string; offset int64 }].  The entry is
    immutable, so the pointer is modelled by the entry itself. *)
Record File : Type := mkFile { f : file; path : string; offset : Z }.

(** [Open]: [inl] is the returned handle, [inr] the returned error. *)
Definition Open (store : gmap string file) (path version : string)
  : File + error :=
  match store !! path with
  | None => inr (FileNotFound path)
  | Some f =>
      if bool_decide (version ≠ EmptyString)
         && bool_decide (f.(Vfs.version) ≠ version)
      then inr (VersionMismatch version f.(Vfs.version) path)
      else inl {| f := f; path := path; offset := 0 |}
  end.

Definition Path (fd : File) : string := fd.(path).
Definition Version (fd : File) : string := fd.(f).(version).
Definition Size (fd : File) : Z := len fd.(f).(contents).

(** What a method call does: it returns (the handle after the call and the
    results), or the Go run time panics. *)
Inductive call (A : Type) : Type :=
| Returns (fd : File) (a : A)
| Panics.
Arguments Returns {A} fd a.
Arguments Panics {A}.

(** [Read]: the result carries the buffer after the call, the byte count
    and the error.  The slice expression panics when its bounds are not
    [0 <= low <= high <= len]. *)
Definition Read (fd : File) (b : list byte)
  : call (list byte * Z * option error) :=
  let bufLen := len b in
  let available := Int64.wrap (len fd.(f).(contents) - fd.(offset)) in
  if available =? 0 then Returns fd (b, 0, Some EOF)
  else
    let canRead := if bufLen <? available then bufLen else available in
    let lo := fd.(offset) in
    let hi := Int64.wrap (fd.(offset) + canRead) in
    if (0 <=? lo) && (lo <=? hi) && (hi <=? len fd.(f).(contents)) then
      Returns
        {| f := fd.(f); path := fd.(path);
           offset := Int64.wrap (fd.(offset) + canRead) |}
        (copy b (slice fd.(f).(contents) lo hi), canRead, None)
    else Panics.

(** [Seek]: the handle after the call, the returned offset and the error. *)
Definition Seek (fd : File) (offset whence : Z) : File * (Z * option error) :=
  if maxSize <? offset then (fd, (0, Some (InvalidOffset offset)))
  else
    let newOffset :=
      if whence =? SeekStart then Some offset
      else if whence =? SeekEnd then
        Some (Int64.wrap (len fd.(f).(contents) - offset))
      else if whence =? SeekCurrent then
        Some (Int64.wrap (fd.(Vfs.offset) + offset))
      else None in
    match newOffset with
    | None => (fd, (0, Some (InvalidWhence whence)))
    | Some newOffset =>
        if (maxSize <? newOffset) || (newOffset <? 0)
           || (len fd.(f).(contents) <? newOffset)
        then (fd, (0, Some (InvalidOffset newOffset)))
        else ({| f := fd.(f); path := fd.(path); offset := newOffset |},
              (newOffset, None))
    end.

End Vfs.

(** ** Go library functions the generator calls

    These packages are not part of the repository; they are modelled from
    their documented behaviour, for Unix paths (separator [/], no volume
    names). *)

Open Scope string_scope.

(** [strings.Split(s, sep)] for a one-character separator. *)
Fixpoint split_on (sep : ascii) (s : string) : list string :=
  match s with
  | EmptyString => [EmptyString]
  | String c s' =>
      if Ascii.eqb c sep then EmptyString :: split_on sep s'
      else match split_on sep s' with
           | x :: xs => String c x :: xs
           | [] => [String c EmptyString]
           end
  end.

Definition rooted (s : string) : bool :=
  match s with
  | String c _ => Ascii.eqb c "/"
  | EmptyString => false
  end.

(** Package [path] (and [path/filepath], which agrees with it on Unix). *)
Module path.

(** One path element pushed on the elements kept so far (last one first):
    empty and [.] elements are dropped, [..] removes the element before it,
    is dropped at the root, and is kept at the start of a relative path. *)
Definition clean_step (isRooted : bool) (kept : list string) (elem : string)
  : list string :=
  if String.eqb elem "" || String.eqb elem "." then kept
  else if String.eqb elem ".." then
    match kept with
    | top :: rest => if String.eqb top ".." then elem :: kept else rest
    | [] => if isRooted then [] else [elem]
    end
  else elem :: kept.

(** [path.Clean]: the shortest path equivalent to [p] by lexical
    processing. *)
Definition Clean (p : string) : string :=
  if String.eqb p "" then "."
  else
    let kept := fold_left (clean_step (rooted p)) (split_on "/" p) [] in
    let body := String.concat "/" (rev kept) in
    if rooted p then "/" +:+ body
    else if String.eqb body "" then "." else body.

(** [path.Join]: empty elements are ignored, the rest is joined with
    slashes and cleaned; the result is empty when every element is. *)
Definition Join (elem : list string) : string :=
  let used := filter (λ e, e ≠ "") elem in
  match used with
  | [] => ""
  | _ => Clean (String.concat "/" used)
  end.

End path.

Module filepath.

Definition Clean := path.Clean.
Definition Join := path.Join.

(** [filepath.ToSlash]: the separator is already a slash. *)
Definition ToSlash (p : string) : string := p.

(** The elements of [p] without the empty ones that trailing slashes
    leave at the end. *)
Fixpoint strip_trailing (elems : list string) : list string :=
  match elems with
  | [] => []
  | e :: rest =>
      match strip_trailing rest with
      | [] => if String.eqb e "" then [] else [e]
      | rest' => e :: rest'
      end
  end.

(** [filepath.Base]: the last element of [p]; [.] for the empty path and
    [/] for a path of slashes only. *)
Definition Base (p : string) : string :=
  if String.eqb p "" then "."
  else match last (strip_trailing (split_on "/" p)) with
       | Some e => e
       | None => "/"
       end.

(** The elements of a cleaned path, as the loop of [Rel] meets them. *)
Definition elements (p : string) : list string :=
  if String.eqb p "" then []
  else if String.eqb p "/" then [""]
  else split_on "/" p.

(** The loop of [Rel]: drop the common leading elements; what is left of
    the base and of the target. *)
Fixpoint first_difference (bs ts : list string)
  : list string * list string :=
  match bs, ts with
  | b :: bs', t :: ts' =>
      if String.eqb b t then first_difference bs' ts' else (bs, ts)
  | _, _ => (bs, ts)
  end.

(** [filepath.Rel]: a relative path that leads from [basepath] to
    [targpath], or an error message.  There is none when one path is
    rooted and the other is not, or when the base has a [..] left where
    the two paths part (the working directory would be needed).  [Rel]
    calls [Clean] on the result. *)
Definition Rel (basepath targpath : string) : string + string :=
  let base := Clean basepath in
  let targ := Clean targpath in
  if String.eqb targ base then inl "."
  else
    let base := if String.eqb base "." then "" else base in
    if negb (Bool.eqb (rooted base) (rooted targ)) then
      inr ("Rel: can't make " +:+ targpath +:+ " relative to " +:+ basepath)
    else
      let '(bs, ts) := first_difference (elements base) (elements targ) in
      if bool_decide (head bs = Some "..") then
        inr ("Rel: can't make " +:+ targpath +:+ " relative to " +:+ basepath)
      else
        inl (Clean
               (String.concat "/"
                  (map (λ _, "..") bs
                   ++ match ts with
                      | [] => []
                      | _ => [String.concat "/" ts]
                      end))).

End filepath.

(** Package [hash/adler32] (RFC 1950): the digest is a [uint32] holding
    the sum [s1] in its low half and the sum of sums [s2] in its high
    half. *)
Module adler32.

Definition mod_ : Z := 65521.

Definition byte_val (b : byte) : Z := Z.of_N (Byte.to_N b).

(** The conversion [byte(x)] of an unsigned integer. *)
Definition to_byte (x : Z) : byte :=
  default "000"%byte (Byte.of_N (Z.to_N (x mod 256))).

(** [adler32.New()] *)
Definition New : Z := 1.

Definition add_byte (s : Z * Z) (x : byte) : Z * Z :=
  let s1 := (s.1 + byte_val x) mod mod_ in
  (s1, (s.2 + s1) mod mod_).

(** [d.Write(p)]: it never fails. *)
Definition update (d : Z) (p : list byte) : Z :=
  let s := fold_left add_byte p (Z.land d 65535, Z.shiftr d 16) in
  Z.lor (Z.shiftl s.2 16) s.1.

(** [d.Sum(nil)]: the digest, most significant byte first. *)
Definition Sum (d : Z) : list byte :=
  [to_byte (Z.shiftr d 24); to_byte (Z.shiftr d 16);
   to_byte (Z.shiftr d 8); to_byte d].

End adler32.

(** Package [fmt]: the verbs the generator uses. *)
Module fmt.

Definition hex_digit (n : Z) : ascii :=
  default "0"%char (String.get (Z.to_nat n) "0123456789abcdef").

(** [%x] of a byte slice: two lowercase digits per byte. *)
Fixpoint hex (bs : list byte) : string :=
  match bs with
  | [] => ""
  | b :: bs' =>
      String (hex_digit (adler32.byte_val b / 16))
        (String (hex_digit (adler32.byte_val b mod 16)) (hex bs'))
  end.

(** [%d] of a byte. *)
Definition dec (b : byte) : string := pretty (adler32.byte_val b).

End fmt.

(** ** The generator *)

Module Gen.

(** [const maxSize = int64(math.MaxInt32)] *)
Definition maxSize : Z := 2147483647.

(** Errors: the one [writeFile] makes itself, and those the operating
    system and the output writer report (known by their message only). *)
Inductive error : Type :=
| MaxSizeExceeded
| SysError (msg : string).

Definition Error (e : error) : string :=
  match e with
  | MaxSizeExceeded => "maximum allowed size exceeded: " +:+ pretty maxSize
  | SysError msg => msg
  end.

(** [io.Writer]: a write yields the writer afterwards and an error, if
    any. *)
Class Writer (W : Type) : Type := Write : W → string → W * option string.

(** What the successive [f.Read(v.buf)] calls on an opened source return:
    the chunks [v.buf[0:n]], then [io.EOF] ([None]) or an error. *)
Record stream : Type := mkstream {
  chunks : list (list byte);
  ending : option string
}.

(** The file system under a matched source, as [os.Stat], [os.Lstat],
    the directory listing and [os.Open] show it. *)
#[warnings="-register-all"]
Inductive node : Type :=
| Regular (size : Z) (data : string + stream)
| Dir (entries : list (string * node))
| DirUnreadable (e : string)
| Symlink (to : node)
| Special
| NoEnt (e : string).

(** [os.Stat] follows symbolic links, [os.Lstat] does not. *)
Fixpoint Stat (n : node) : node :=
  match n with
  | Symlink to => Stat to
  | _ => n
  end.

(** The calls made on source files, in order. *)
Inductive event : Type :=
| EvOpen (name : string)
| EvRead (name : string)
| EvClose (name : string).

(** [type mapping struct] *)
Record mapping : Type := mkmapping {
  src : list string;
  targetDir : string;
  pattern : string
}.

(** [type file struct] *)
Record file : Type := mkfile { path : string; size : Z; version : string }.

Definition tab : string := String "009"%char EmptyString.
Definition nl : string := String "010"%char EmptyString.
Definition quote : string := String "034"%char EmptyString.

Section Generator.

Context {W : Type} `{Writer W}.

(** The file system: the node a path names. *)
Variable fs : string → node.

(** The text [writeHeader] renders from [tmplHeader] for a package name
    (it holds the time of the run). *)
Variable header : string → string.

(** [type vfs struct]; [w] is [None] for the nil writer of a dry run.  The
    scratch buffer [buf] holds no state between reads: each chunk of a
    [stream] is one filling of it. *)
Record vfs : Type := mkvfs {
  mappings : list mapping;
  w : option W;
  pkgName : string;
  processed : gmap string file
}.

(** The process: the generator value, standard output and the calls made
    on source files.  Standard output is kept line by line, each line as
    the operands of the [fmt.Println] call that printed it (they are
    printed with a blank between them). *)
Record proc : Type := mkproc {
  self : vfs;
  stdout : list (list string);
  trace : list event
}.

(** A computation returns a value or ends the process ([os.Exit], or a
    run-time panic, which exits with code 2). *)
Inductive outcome (A : Type) : Type :=
| Done (a : A) (s : proc)
| Exit (code : Z) (s : proc).
Arguments Done {A} a s.
Arguments Exit {A} code s.

Definition M (A : Type) : Type := proc → outcome A.

Definition ret {A} (a : A) : M A := λ s, Done a s.

Definition bind {A B} (m : M A) (k : A → M B) : M B :=
  λ s, match m s with
       | Done a s' => k a s'
       | Exit c s' => Exit c s'
       end.

#[local] Instance M_ret : MRet M := @ret.
#[local] Instance M_bind : MBind M := λ A B k m, bind m k.

Definition getSelf : M vfs := λ s, Done s.(self) s.

Definition Println (operands : list string) : M unit :=
  λ s, Done tt {| self := s.(self); stdout := s.(stdout) ++ [operands];
                  trace := s.(trace) |}.

Definition log (e : event) : M unit :=
  λ s, Done tt {| self := s.(self); stdout := s.(stdout);
                  trace := s.(trace) ++ [e] |}.

Definition osExit {A} (code : Z) : M A := λ s, Exit code s.

(** [errorExit] *)
Definition errorExit {A} (msg : string) : M A :=
  Println ["Error: " +:+ msg] ;; osExit 1.

(** [handleError] *)
Definition handleError (err : option error) (msg : string) : M unit :=
  match err with
  | Some e => Println ["Error: " +:+ msg] ;; Println [Error e] ;; osExit 1
  | None => ret tt
  end.

(** [fmt.Fprintf(v.w, ...)] with the text already formatted; writing to
    the nil writer panics. *)
Definition Fprintf (text : string) : M (option error) :=
  λ s, match s.(self).(w) with
       | None => Exit 2 s
       | Some wr =>
           let '(wr', err) := Write wr text in
           Done (SysError <$> err)
             {| self := {| mappings := s.(self).(mappings); w := Some wr';
                           pkgName := s.(self).(pkgName);
                           processed := s.(self).(processed) |};
                stdout := s.(stdout); trace := s.(trace) |}
       end.

Definition setProcessed (m : gmap string file) : M unit :=
  λ s, Done tt
         {| self := {| mappings := s.(self).(mappings); w := s.(self).(w);
                       pkgName := s.(self).(pkgName); processed := m |};
            stdout := s.(stdout); trace := s.(trace) |}.

(** [writeHeader] *)
Definition writeHeader : M (option error) :=
  v ← getSelf;
  match v.(w) with
  | None => ret None
  | Some _ => Fprintf (header v.(pkgName))
  end.

(** [writeFooter] *)
Definition writeFooter : M (option error) :=
  v ← getSelf;
  match v.(w) with
  | None => ret None
  | Some _ => Fprintf ("}" +:+ nl)
  end.

(** The inner loop of [writeFile]: one [Fprintf] per byte of a chunk. *)
Fixpoint writeBytes (bs : list byte) : M (option error) :=
  match bs with
  | [] => ret None
  | b :: bs' =>
      err ← Fprintf (fmt.dec b +:+ ", ");
      match err with
      | Some e => ret (Some e)
      | None => writeBytes bs'
      end
  end.

(** The read loop of [writeFile]: the digest at end of file, or the error
    that made [writeFile] return. *)
Fixpoint readLoop (name : string) (cs : list (list byte))
    (ending : option string) (hash : Z) : M (Z + error) :=
  match cs with
  | [] =>
      log (EvRead name) ;;
      match ending with
      | Some e => ret (inr (SysError e))
      | None => ret (inl hash)
      end
  | c :: cs' =>
      log (EvRead name) ;;
      let hash := adler32.update hash c in
      err ← writeBytes c;
      match err with
      | Some e => ret (inr e)
      | None => readLoop name cs' ending hash
      end
  end.

(** [writeFile]; [data] is what [os.Open(src)] and the reads give. *)
Definition writeFile (target src : string) (size : Z) (data : string + stream)
  : M (string * option error) :=
  let version := "" in
  v ← getSelf;
  match v.(w) with
  | None => ret (version, None)
  | Some _ =>
      if (maxSize <? size)%Z then ret (version, Some MaxSizeExceeded)
      else
        log (EvOpen src) ;;
        match data with
        | inl e => ret (version, Some (SysError e))
        | inr f =>
            r ← (err ← Fprintf (tab +:+ quote +:+ target +:+ quote
                                +:+ ": &file{" +:+ nl +:+ tab +:+ tab
                                +:+ "contents: []byte{");
                 match err with
                 | Some e => ret (version, Some e)
                 | None =>
                     h ← readLoop src f.(chunks) f.(ending) adler32.New;
                     match h with
                     | inr e => ret (version, Some e)
                     | inl hash =>
                         let version := fmt.hex (adler32.Sum hash) in
                         err ← Fprintf ("}," +:+ nl +:+ tab +:+ tab
                                        +:+ "version: " +:+ quote +:+ version
                                        +:+ quote +:+ "," +:+ nl +:+ tab
                                        +:+ "}," +:+ nl);
                         ret (version, err)
                     end
                 end);
            log (EvClose src) ;;
            ret r
        end
  end.

(** The function [walk] passes to [filepath.Walk], called on the path [p],
    the node there and the error of reaching it. *)
Definition walkFn (targetDir src base p : string) (info : node)
    (err : option error) : M unit :=
  handleError err ("could not visit: " +:+ p) ;;
  match info with
  | Regular size data =>
      match filepath.Rel src p with
      | inr e =>
          handleError (Some (SysError e))
            ("could not compute relative path from " +:+ src +:+ " to " +:+ p)
      | inl rel =>
          let rel := filepath.ToSlash rel in
          let target := path.Join [targetDir; base; rel] in
          v ← getSelf;
          match v.(processed) !! target with
          | Some _ => errorExit ("target already exists: " +:+ target)
          | None =>
              Println [p; " -> "; target] ;;
              r ← writeFile target p size data;
              handleError r.2 ("could not write: " +:+ target) ;;
              v ← getSelf;
              setProcessed
                (<[target := {| path := target; size := size;
                                version := r.1 |}]> v.(processed))
          end
      end
  | _ => ret tt
  end.

(** [filepath.Walk] below a node whose [Lstat] gave [info]: the function
    is called on the node, then on the entries of a directory in the order
    of its (sorted) listing. *)
Fixpoint Walk (fn : string → node → option error → M unit) (p : string)
    (info : node) : M unit :=
  match info with
  | NoEnt e => fn p info (Some (SysError e))
  | DirUnreadable e => fn p info (Some (SysError e))
  | Dir entries =>
      fn p info None ;;
      (fix each (es : list (string * node)) : M unit :=
         match es with
         | [] => ret tt
         | (name, child) :: es' =>
             Walk fn (filepath.Join [p; name]) child ;; each es'
         end) entries
  | _ => fn p info None
  end.

(** [walk] *)
Definition walk (targetDir src : string) : M unit :=
  let base := filepath.Base src in
  Walk (walkFn targetDir src base) src (fs src).

(** The loop of [Generate] over the sources of one mapping. *)
Fixpoint eachSource (targetDir : string) (srcs : list string) : M unit :=
  match srcs with
  | [] => ret tt
  | s :: srcs' =>
      match Stat (fs s) with
      | NoEnt e => handleError (Some (SysError e)) ("stat error: " +:+ s)
      | DirUnreadable _ | Dir _ | Regular _ _ => walk targetDir s
      | _ => Println ["skip source, not a regular file or directory:"; s]
      end ;;
      eachSource targetDir srcs'
  end.

(** The loop of [Generate] over the mappings. *)
Fixpoint eachMapping (ms : list mapping) : M unit :=
  match ms with
  | [] => ret tt
  | m :: ms' =>
      match m.(src) with
      | [] => Println ["skip mapping, no matches:"; m.(pattern)]
      | _ => ret tt
      end ;;
      eachSource m.(targetDir) m.(src) ;;
      eachMapping ms'
  end.

(** [Generate] *)
Definition Generate : M unit :=
  setProcessed ∅ ;;
  err ← writeHeader;
  handleError err "could not write" ;;
  v ← getSelf;
  eachMapping v.(mappings) ;;
  err ← writeFooter;
  handleError err "could not write".

End Generator.

Arguments vfs : clear implicits.
Arguments proc : clear implicits.
Arguments outcome : clear implicits.
Arguments M : clear implicits.
Arguments Done {W A} a s.
Arguments Exit {W A} code s.
#[global] Existing Instances M_ret M_bind.

(** An in-memory writer that takes every write (a [bytes.Buffer]). *)
Definition buffer : Type := string.

#[global] Instance buffer_Writer : Writer buffer :=
  λ wr text, (wr +:+ text, None).

(** A writer with room for [room] more characters, which reports an
    error on a write that does not fit (a full disk). *)
Record limited : Type := mklimited { written : string; room : nat }.

#[global] Instance limited_Writer : Writer limited :=
  λ wr text,
    if decide (String.length text ≤ wr.(room))%nat then
      ({| written := wr.(written) +:+ text;
          room := wr.(room) - String.length text |}, None)
    else (wr, Some "no space left on device").

End Gen.

(** ** The vocabulary of the specification *)

Module Spec.

Import Vfs.

(** The run-time error taxonomy of the specification. *)
Inductive kind : Type :=
| NotFound
| VersionMismatchKind
| InvalidWhenceKind
| InvalidOffsetKind
| EndOfStream.

Definition kind_of (e : error) : kind :=
  match e with
  | EOF => EndOfStream
  | FileNotFound _ => NotFound
  | VersionMismatch _ _ _ => VersionMismatchKind
  | InvalidOffset _ => InvalidOffsetKind
  | InvalidWhence _ => InvalidWhenceKind
  end.

(** The candidate offset of a seek, in unbounded arithmetic; [None] for a
    [whence] that is none of the three modes. *)
Definition candidate (size cur offset whence : Z) : option Z :=
  if decide (whence = SeekStart) then Some offset
  else if decide (whence = SeekCurrent) then Some (cur + offset)
  else if decide (whence = SeekEnd) then Some (size - offset)
  else None.

(** What [Seek] is specified to do: the handle afterwards, the returned
    offset, and the kind of the error. *)
Definition Seek_spec (fd : File) (offset whence : Z)
  : File * (Z * option kind) :=
  if decide (maxSize < offset) then (fd, (0, Some InvalidOffsetKind))
  else
    match candidate (Size fd) fd.(Vfs.offset) offset whence with
    | None => (fd, (0, Some InvalidWhenceKind))
    | Some c =>
        if decide (maxSize < c ∨ c < 0 ∨ Size fd < c)
        then (fd, (0, Some InvalidOffsetKind))
        else ({| f := fd.(f); path := fd.(path); offset := c |}, (c, None))
    end.

(** The result of the code's [Seek] with the error reduced to its kind. *)
Definition Seek_kind (fd : File) (offset whence : Z)
  : File * (Z * option kind) :=
  let r := Seek fd offset whence in (r.1, (r.2.1, kind_of <$> r.2.2)).

(** The cursor invariant of a handle. *)
Definition cursor_ok (fd : File) : Prop := 0 <= fd.(offset) <= Size fd.

(** A Go slice has an [int] length. *)
Definition entry_ok (e : file) : Prop := len e.(contents) <= Int64.max.

(** The operations on an open handle. *)
Inductive op : Type :=
| OpRead (b : list byte)
| OpSeek (offset whence : Z).

(** One operation: the handle afterwards, or [None] after a panic. *)
Definition step (fd : File) (o : op) : option File :=
  match o with
  | OpRead b =>
      match Read fd b with
      | Returns fd' _ => Some fd'
      | Panics => None
      end
  | OpSeek offset whence => Some (Seek fd offset whence).1
  end.

(** A sequence of operations: the handle after each of them. *)
Fixpoint run (fd : File) (ops : list op) : option (list File) :=
  match ops with
  | [] => Some []
  | o :: ops' =>
      fd' ← step fd o;
      rest ← run fd' ops';
      Some (fd' :: rest)
  end.

(** Adler-32 as RFC 1950 defines it: [s1] is one plus the sum of the
    bytes, [s2] the sum of the values [s1] takes after each byte, both
    modulo 65521; the checksum is [s2 * 65536 + s1]. *)
Definition sum_bytes (bs : list byte) : Z :=
  foldr (λ b acc, adler32.byte_val b + acc) 0 bs.

Definition Adler32 (bs : list byte) : Z :=
  let s1 := (1 + sum_bytes bs) mod 65521 in
  let s2 :=
    foldr Z.add 0
      (map (λ k, 1 + sum_bytes (take k bs)) (seq 1 (length bs)))
    mod 65521 in
  s2 * 65536 + s1.

(** The lowercase hexadecimal rendering of a 32-bit value: eight digits,
    most significant first. *)
Definition hex32 (c : Z) : string :=
  string_of_list_ascii
    (map (λ i, fmt.hex_digit (c / 16 ^ Z.of_nat i mod 16)) (rev (seq 0 8))).

Import Gen.

(** The regular files [filepath.Walk] meets below a node, in the order of
    the walk, with the path it gives each and the size [Lstat] reports. *)
#[warnings="-register-all"]
Fixpoint regularFiles (p : string) (info : node) : list (string * Z) :=
  match info with
  | Regular size _ => [(p, size)]
  | Dir entries =>
      (fix each (es : list (string * node)) : list (string * Z) :=
         match es with
         | [] => []
         | (name, child) :: es' =>
             (regularFiles (filepath.Join [p; name]) child ++ each es')%list
         end) entries
  | _ => []
  end.

(** The source files announced on standard output as embedded under the
    virtual path [target]. *)
Definition sourcesOf (target : string) (out : list (list string))
  : list string :=
  omap (λ line,
          match line with
          | [p; arrow; t] =>
              if decide (arrow = " -> " ∧ t = target) then Some p else None
          | _ => None
          end) out.

(** A writer that never reports an error. *)
Definition reliable (W : Type) `{Writer W} : Prop :=
  ∀ wr text, (Write wr text).2 = None.

End Spec.

Open Scope list_scope.
Open Scope Z_scope.

(** ** Example environments *)

(** The store of a run on the mapping [testdata/hello.txt::/docs], the
    source holding the two bytes [hi]. *)
Definition hello_entry : Vfs.file :=
  {| Vfs.contents := ["h"%byte; "i"%byte]; Vfs.version := "013b00d2" |}.

Definition hello_store : gmap string Vfs.file :=
  {[ "/docs/hello.txt" := hello_entry ]}.

Definition hello_fd : Vfs.File :=
  {| Vfs.f := hello_entry; Vfs.path := "/docs/hello.txt"; Vfs.offset := 0 |}.

Definition hello_stream : Gen.stream :=
  {| Gen.chunks := [["h"%byte; "i"%byte]]; Gen.ending := None |}.

(** A file system with [testdata/hello.txt] (the bytes [hi]), the
    directory [assets] holding [sub/file.txt], the files [a/x.txt] and
    [b/x.txt], and a file [big] whose size is reported as [2 ^ 31]. *)
Definition example_fs (p : string) : Gen.node :=
  if String.eqb p "testdata/hello.txt" then Gen.Regular 2 (inr hello_stream)
  else if String.eqb p "assets" then
    Gen.Dir [("sub", Gen.Dir [("file.txt", Gen.Regular 2 (inr hello_stream))])]
  else if String.eqb p "a/x.txt" then Gen.Regular 2 (inr hello_stream)
  else if String.eqb p "b/x.txt" then Gen.Regular 2 (inr hello_stream)
  else if String.eqb p "big" then Gen.Regular 2147483648 (inr hello_stream)
  else Gen.NoEnt "no such file or directory".

(** A stand-in for the rendered header. *)
Definition example_header (pkg : string) : string :=
  "package " +:+ pkg +:+ Gen.nl.

(** The process at the start of a run: [o] is the writer on the output
    file, [None] without the option [-o]. *)
Definition start (ms : list Gen.mapping) (o : option Gen.buffer)
  : Gen.proc Gen.buffer :=
  {| Gen.self := {| Gen.mappings := ms; Gen.w := o; Gen.pkgName := "vfs";
                    Gen.processed := ∅ |};
     Gen.stdout := []; Gen.trace := [] |}.

(** The run on the mappings [a/x.txt::/out] and [b/x.txt::/out]. *)
Definition colliding_start : Gen.proc Gen.buffer :=
  start [Gen.mkmapping ["a/x.txt"] "/out" "a/x.txt::/out";
         Gen.mkmapping ["b/x.txt"] "/out" "b/x.txt::/out"] (Some "").

Definition colliding_run : Gen.outcome Gen.buffer unit :=
  Gen.Generate example_fs example_header colliding_start.

(** ** The vocabulary of the proofs *)

Section Sums.

Import adler32 Spec.

(** The sum over [ks] of [g]. *)
Definition sigma (g : nat → Z) (ks : list nat) : Z :=
  foldr Z.add 0 (map g ks).

(** The sum of the sums of the non-empty prefixes of a byte sequence. *)
Definition prefix_sums (bs : list byte) : Z :=
  sigma (λ k, sum_bytes (take k bs)) (seq 1 (length bs)).

End Sums.

Section Logic.

Import Gen Spec.

Context {W : Type}.

(** [wp m Q E s]: run from [s], [m] returns a value and a state that
    satisfy [Q], or ends the process with a code and a state that satisfy
    [E]. *)
Definition wp {A : Type} (m : M W A) (Q : A → proc W → Prop)
    (E : Z → proc W → Prop) (s : proc W) : Prop :=
  match m s with
  | Done a s' => Q a s'
  | Exit c s' => E c s'
  end.

(** The state after a write that left the writer as [wr]. *)
Definition written_to (s : proc W) (wr : W) : proc W :=
  {| self := {| mappings := s.(self).(mappings); w := Some wr;
                pkgName := s.(self).(pkgName);
                processed := s.(self).(processed) |};
     stdout := s.(stdout); trace := s.(trace) |}.

(** What reading and writing may change: the writer (which stays in
    place) and the trace (which only grows). *)
Definition io_step (s s' : proc W) : Prop :=
  is_Some s'.(self).(w)
  ∧ s.(trace) `prefix_of` s'.(trace)
  ∧ s'.(stdout) = s.(stdout)
  ∧ s'.(self).(processed) = s.(self).(processed)
  ∧ s'.(self).(mappings) = s.(self).(mappings)
  ∧ s'.(self).(pkgName) = s.(self).(pkgName).

(** The loop of [filepath.Walk] over the entries of a directory. *)
Definition walkEntries (fn : string → node → option error → M W unit)
    (p : string) : list (string * node) → M W unit :=
  fix each (es : list (string * node)) : M W unit :=
    match es with
    | [] => ret tt
    | (name, child) :: es' =>
        Walk fn (filepath.Join [p; name]) child ;; each es'
    end.

(** The regular files below the entries of a directory at [p]. *)
Definition regularFilesIn (p : string)
  : list (string * node) → list (string * Z) :=
  fix each (es : list (string * node)) : list (string * Z) :=
    match es with
    | [] => []
    | (name, child) :: es' =>
        regularFiles (filepath.Join [p; name]) child ++ each es'
    end.

(** Every registered path was announced for exactly one source, and no
    other path was announced. *)
Definition registry_ok (s : proc W) : Prop :=
  ∀ t, match s.(self).(processed) !! t with
       | Some _ => ∃ p, sourcesOf t s.(stdout) = [p]
       | None => sourcesOf t s.(stdout) = []
       end.

(** Every registered path was announced for exactly one source. *)
Definition registry_unique (s : proc W) : Prop :=
  ∀ t, is_Some (s.(self).(processed) !! t) →
       ∃ p, sourcesOf t s.(stdout) = [p].

(** A line of one or two operands announces nothing. *)
Definition quiet (line : list string) : Prop := (length line < 3)%nat.

(** The file at [q], of size [size], is in the registry under the join of
    the target directory, the base name and the path of [q] relative to
    the root of the walk. *)
Definition registered (targetDir root base q : string) (size : Z)
    (s : proc W) : Prop :=
  ∃ rel version,
    filepath.Rel root q = inl rel
    ∧ s.(self).(processed)
        !! path.Join [targetDir; base; filepath.ToSlash rel]
      = Some {| path := path.Join [targetDir; base; filepath.ToSlash rel];
                size := size; version := version |}.

End Logic.

(** Case analysis on every comparison the code makes. *)
Ltac bool_cases :=
  repeat match goal with
         | |- context [?a <? ?b] => destruct (Z.ltb_spec a b)
         | |- context [?a <=? ?b] => destruct (Z.leb_spec a b)
         | |- context [?a =? ?b] => destruct (Z.eqb_spec a b)
         | |- context [decide ?P] => destruct (decide P)
         end;
  simpl; try done; try lia; try (exfalso; lia).

Ltac quiet_line := unfold quiet; simpl; lia.

(** ** The generated test file

    The five tests of [tmplTest], instantiated for the file chosen with
    the option [-t].  The template puts the path and the version between
    the quotes of Go string literals as they are; the tests are modelled
    for the strings those literals denote. *)

Module Tests.

Import Vfs.

(** How a test ends: it returns, [t.Fatalf] stops it with a message, or
    it panics. *)
Inductive verdict : Type :=
| Pass
| Fatalf (msg : string)
| Panic.

Section Instantiated.

Variable store : gmap string file.

(** The values the template is executed with. *)
Variables testFilePath testFileVersion : string.
Variable testFileSize : Z.

Definition TestPath : verdict :=
  match Open store testFilePath testFileVersion with
  | inr err => Fatalf ("unexpected error: " +:+ Error err)
  | inl f =>
      let expectedPath := testFilePath in
      if bool_decide (Path f ≠ expectedPath)
      then Fatalf ("expected path " +:+ expectedPath +:+ ", but got "
                   +:+ Path f)
      else Pass
  end.

Definition TestVersion : verdict :=
  match Open store testFilePath testFileVersion with
  | inr err => Fatalf ("unexpected error: " +:+ Error err)
  | inl f =>
      let expectedVersion := testFileVersion in
      if bool_decide (Version f ≠ expectedVersion)
      then Fatalf ("expected version " +:+ expectedVersion +:+ ", but got "
                   +:+ Version f)
      else Pass
  end.

Definition TestSize : verdict :=
  match Open store testFilePath testFileVersion with
  | inr err => Fatalf ("unexpected error: " +:+ Error err)
  | inl f =>
      let expectedSize := testFileSize in
      if bool_decide (Size f ≠ expectedSize)
      then Fatalf ("expected size " +:+ pretty expectedSize +:+ ", but got "
                   +:+ pretty (Size f))
      else Pass
  end.

(** [make([]byte, n)] *)
Definition make (n : Z) : list byte := replicate (Z.to_nat n) "000"%byte.

Definition TestReader : verdict :=
  match Open store testFilePath testFileVersion with
  | inr err => Fatalf ("unexpected error: " +:+ Error err)
  | inl f =>
      let buf := make testFileSize in
      match Read f buf with
      | Panics => Panic
      | Returns _ (_, n, Some err) =>
          Fatalf ("unexpected error: " +:+ Error err)
      | Returns _ (_, n, None) =>
          let expectedBytes := testFileSize in
          if bool_decide (n ≠ expectedBytes)
          then Fatalf ("expected bytes " +:+ pretty expectedBytes
                       +:+ ", but got " +:+ pretty n)
          else Pass
      end
  end.

Definition TestSeeker : verdict :=
  match Open store testFilePath testFileVersion with
  | inr err => Fatalf ("unexpected error: " +:+ Error err)
  | inl f =>
      match Seek f 0 SeekEnd with
      | (_, (_, Some err)) => Fatalf ("unexpected error: " +:+ Error err)
      | (_, (size, None)) =>
          let expectedSize := testFileSize in
          if bool_decide (size ≠ expectedSize)
          then Fatalf ("expected size " +:+ pretty expectedSize
                       +:+ ", but got " +:+ pretty size)
          else Pass
      end
  end.

End Instantiated.

End Tests.

(** ** Clients of the run-time package *)

(** Reading a handle to its end with the buffer [buf], as [io.ReadAll] or
    [io.Copy] do: each [Read] appends the bytes it delivered, and the loop
    stops at the first error.  [None] when the fuel runs out or a [Read]
    panics. *)
Fixpoint readAll (fuel : nat) (buf : list byte) (fd : Vfs.File)
  : option (list byte * option Vfs.error * Vfs.File) :=
  match fuel with
  | O => None
  | S fuel' =>
      match Vfs.Read fd buf with
      | Vfs.Panics => None
      | Vfs.Returns fd' (buf', n, err) =>
          let got := take (Z.to_nat n) buf' in
          match err with
          | Some e => Some (got, Some e, fd')
          | None =>
              match readAll fuel' buf' fd' with
              | Some (rest, e, fd'') => Some (got ++ rest, e, fd'')
              | None => None
              end
          end
      end
  end.

(** ** The text of the artifact *)

Section ArtifactText.

Import Gen Spec.

(** The elements the inner loop of [writeFile] writes for a byte
    sequence: the decimal value of each byte, followed by a comma and a
    blank. *)
Definition byteTable (bs : list byte) : string :=
  foldr (λ b text, fmt.dec b +:+ ", " +:+ text) "" bs.

Definition digit (c : ascii) : option Z :=
  let n := Z.of_nat (nat_of_ascii c) in
  if (48 <=? n) && (n <=? 57) then Some (n - 48) else None.

(** The bytes that a list of decimal elements denotes between the braces
    of a Go [[]byte] literal: elements end at a comma (the last one may
    have one too), and blanks do not count.  [acc] is the value of the
    digits read of the current element. *)
Fixpoint literalBytes (acc : Z) (text : string) : list byte :=
  match text with
  | EmptyString => []
  | String c text' =>
      match digit c with
      | Some d => literalBytes (10 * acc + d) text'
      | None =>
          if Ascii.eqb c ","
          then adler32.to_byte acc :: literalBytes 0 text'
          else literalBytes acc text'
      end
  end.

(** A source the generator embedded: its path, its virtual path, the
    size [Lstat] reported and the chunks the reads delivered. *)
Record entry : Type := mkentry {
  source : string;
  target : string;
  declared : Z;
  parts : list (list byte)
}.

Definition bytes (e : entry) : list byte := concat e.(parts).

Definition versionOf (e : entry) : string := hex32 (Adler32 (bytes e)).

(** The element of the map literal written for an entry. *)
Definition entryText (e : entry) : string :=
  tab +:+ quote +:+ e.(target) +:+ quote +:+ ": &file{" +:+ nl +:+ tab +:+ tab
  +:+ "contents: []byte{" +:+ byteTable (bytes e)
  +:+ "}," +:+ nl +:+ tab +:+ tab +:+ "version: " +:+ quote +:+ versionOf e
  +:+ quote +:+ "," +:+ nl +:+ tab +:+ "}," +:+ nl.

(** The calls made on the source of an entry: it is opened, read once per
    chunk and once more for the end of the file, and closed. *)
Definition entryEvents (e : entry) : list event :=
  EvOpen e.(source)
  :: replicate (S (length e.(parts))) (EvRead e.(source))
  ++ [EvClose e.(source)].

(** The record of an entry in the registry. *)
Definition entryFile (e : entry) : file :=
  {| path := e.(target); size := e.(declared); version := versionOf e |}.

Definition textOf (es : list entry) : string :=
  foldr (λ e text, entryText e +:+ text) "" es.

Definition eventsOf (es : list entry) : list event :=
  concat (map entryEvents es).

Definition register (m : gmap string file) (es : list entry)
  : gmap string file :=
  foldl (λ m e, <[e.(target) := entryFile e]> m) m es.

(** The entry of the store of the generated package that the element
    written for an entry denotes: its contents are the bytes its table
    denotes.  The virtual path is written between the quotes of a Go
    string literal as it is; the store is given for the paths such a
    literal denotes unchanged. *)
Definition stored (e : entry) : Vfs.file :=
  {| Vfs.contents := literalBytes 0 (byteTable (bytes e));
     Vfs.version := versionOf e |}.


(** The regular files [filepath.Walk] meets below a node, in the order of
    the walk, each with its path, the size [Lstat] reports and what opening
    and reading it gives. *)
#[warnings="-register-all"]
Fixpoint regularData (p : string) (info : node)
  : list (string * (Z * (string + stream))) :=
  match info with
  | Regular size data => [(p, (size, data))]
  | Dir entries =>
      (fix each (es : list (string * node))
         : list (string * (Z * (string + stream))) :=
         match es with
         | [] => []
         | (name, child) :: es' =>
             regularData (filepath.Join [p; name]) child ++ each es'
         end) entries
  | _ => []
  end.

Definition regularDataIn (p : string)
  : list (string * node) → list (string * (Z * (string + stream))) :=
  fix each (es : list (string * node))
    : list (string * (Z * (string + stream))) :=
    match es with
    | [] => []
    | (name, child) :: es' =>
        regularData (filepath.Join [p; name]) child ++ each es'
    end.

(** The entry a regular file met by the walk of [root] gives when it can
    be embedded: its path relative to the root is defined, its size is
    within the bound, and it opens and reads to its end. *)
Definition planned (targetDir root base : string)
    (x : string * (Z * (string + stream))) : option entry :=
  match filepath.Rel root x.1, x.2.2 with
  | inl rel, inr f =>
      if bool_decide (f.(ending) = None ∧ x.2.1 <= maxSize)
      then Some {| source := x.1;
                   target := path.Join [targetDir; base; filepath.ToSlash rel];
                   declared := x.2.1;
                   parts := f.(chunks) |}
      else None
  | _, _ => None
  end.

(** The regular files below a matched source that [Generate] walks. *)
Definition sourceData (fs : string → node) (s : string)
  : list (string * (Z * (string + stream))) :=
  match Stat (fs s) with
  | Regular _ _ | Dir _ | DirUnreadable _ => regularData s (fs s)
  | _ => []
  end.

Definition planOfSources (fs : string → node) (targetDir : string)
    (srcs : list string) : list (option entry) :=
  concat (map (λ s, map (planned targetDir s (filepath.Base s))
                      (sourceData fs s)) srcs).

(** What a run on the mappings embeds, in order. *)
Definition planOf (fs : string → node) (ms : list mapping)
  : list (option entry) :=
  concat (map (λ m, planOfSources fs m.(targetDir) m.(src)) ms).

(** From [s] to [s'], the entries [es] were embedded through the buffer
    writer: their text was written, their sources were read, and they were
    registered under paths that were free. *)
Definition embeds (s : proc buffer) (es : list entry) (s' : proc buffer)
  : Prop :=
  (∃ out, s.(self).(w) = Some out
          ∧ s'.(self).(w) = Some (out +:+ textOf es))
  ∧ s'.(trace) = s.(trace) ++ eventsOf es
  ∧ s'.(self).(processed) = register s.(self).(processed) es
  ∧ s'.(self).(mappings) = s.(self).(mappings)
  ∧ s'.(self).(pkgName) = s.(self).(pkgName)
  ∧ NoDup (map target es)
  ∧ Forall (λ e, s.(self).(processed) !! e.(target) = None) es.

End ArtifactText.

(** The process after the events [evs] and writes that left the writer as
    [wr]. *)
Definition emitted {W : Type} (s : Gen.proc W) (wr : W)
    (evs : list Gen.event) : Gen.proc W :=
  {| Gen.self := {| Gen.mappings := s.(Gen.self).(Gen.mappings);
                    Gen.w := Some wr;
                    Gen.pkgName := s.(Gen.self).(Gen.pkgName);
                    Gen.processed := s.(Gen.self).(Gen.processed) |};
     Gen.stdout := s.(Gen.stdout);
     Gen.trace := s.(Gen.trace) ++ evs |}.

(** ** Invariants of a run *)

Section RunInvariants.

Import Gen Spec.

Context {W : Type}.

(** A record [r] of the registry at the key [t] is in order: it carries
    its key; the key is the join of one of the target directories [D] with
    a base name and a relative path; in a dry run the version is empty,
    otherwise the size is within the bound and the version is the
    rendering of a checksum. *)
Definition record_ok (D : string → Prop) (dry : bool) (t : string)
    (r : file) : Prop :=
  r.(path) = t
  ∧ (∃ targetDir base rel,
       D targetDir ∧ t = path.Join [targetDir; base; rel])
  ∧ if dry then r.(version) = ""
    else r.(size) <= maxSize ∧ ∃ bs, r.(version) = hex32 (Adler32 bs).

(** The state of a run is in order: the writer is absent exactly in a dry
    run, a dry run has made no call on a source file beyond the trace
    [tr0] it started with, and every record is in order. *)
Definition run_ok (D : string → Prop) (dry : bool) (tr0 : list event)
    (s : proc W) : Prop :=
  (s.(self).(w) = None ↔ dry = true)
  ∧ (dry = true → s.(trace) = tr0)
  ∧ ∀ t r, s.(self).(processed) !! t = Some r → record_ok D dry t r.

(** The last thing printed is an error report: a line [Error: ...],
    followed by at most one line with the error. *)
Definition reported (s : proc W) : Prop :=
  ∃ out msg rest,
    s.(stdout) = out ++ ["Error: " +:+ msg] :: rest ∧ (length rest ≤ 1)%nat.

End RunInvariants.


(** The run on the mappings [assets::/static] and
    [testdata/hello.txt::/docs] with the in-memory writer, and the process
    it ends in. *)
Definition two_mappings_start : Gen.proc Gen.buffer :=
  start [Gen.mkmapping ["assets"] "/static" "assets::/static";
         Gen.mkmapping ["testdata/hello.txt"] "/docs"
           "testdata/hello.txt::/docs"] (Some "").

Definition two_mappings_end : Gen.proc Gen.buffer :=
  Eval vm_compute in
    match Gen.Generate example_fs example_header two_mappings_start with
    | Gen.Done _ s' => s'
    | Gen.Exit _ s' => s'
    end.

(** ** Runs that meet no error *)

(** A node below which the walk meets no error: no directory that cannot
    be listed and no entry whose [Lstat] fails. *)
#[warnings="-register-all"]
Fixpoint walkable (info : Gen.node) : bool :=
  match info with
  | Gen.DirUnreadable _ | Gen.NoEnt _ => false
  | Gen.Dir entries =>
      (fix each (es : list (string * Gen.node)) : bool :=
         match es with
         | [] => true
         | (_, child) :: es' => walkable child && each es'
         end) entries
  | _ => true
  end.

Definition walkableIn : list (string * Gen.node) → bool :=
  fix each (es : list (string * Gen.node)) : bool :=
    match es with
    | [] => true
    | (_, child) :: es' => walkable child && each es'
    end.

(** A matched source that [Generate] gets past: [os.Stat] succeeds on it,
    and if it is walked, the walk meets no error. *)
Definition sourceOk (fs : string → Gen.node) (s : string) : bool :=
  match Gen.Stat (fs s) with
  | Gen.NoEnt _ => false
  | Gen.Regular _ _ | Gen.Dir _ | Gen.DirUnreadable _ => walkable (fs s)
  | _ => true
  end.

(** ** The command: [main] and [resolveSources] *)

(** Package [strings], on byte strings. *)
Module strings.

(** The positions from [n] on at which [substr] occurs in [s], scanning
    [s] from its start: [first] is the first one met, [last] the last. *)
Fixpoint index_from (n : Z) (s substr : string) : Z :=
  if String.prefix substr s then n
  else match s with
       | EmptyString => -1
       | String _ s' => index_from (n + 1) s' substr
       end.

Fixpoint last_index_from (n best : Z) (s substr : string) : Z :=
  let best := if String.prefix substr s then n else best in
  match s with
  | EmptyString => best
  | String _ s' => last_index_from (n + 1) best s' substr
  end.

(** [strings.Index]: the index of the first instance of [substr] in [s],
    or [-1]. *)
Definition Index (s substr : string) : Z := index_from 0 s substr.

(** [strings.LastIndex]: the index of the last instance of [substr] in
    [s], or [-1]. *)
Definition LastIndex (s substr : string) : Z :=
  last_index_from 0 (-1) s substr.

(** The slice expression [s[lo:hi]] for [0 <= lo <= hi <= len(s)]. *)
Definition slice (s : string) (lo hi : Z) : string :=
  String.substring (Z.to_nat lo) (Z.to_nat (hi - lo)) s.

Definition len (s : string) : Z := Z.of_nat (String.length s).

(** The white space of Unicode in UTF-8: the six ASCII characters, and
    U+0085, U+00A0, U+1680, U+2000 to U+200A, U+2028, U+2029, U+202F,
    U+205F and U+3000. *)
Definition space1 (a : ascii) : bool :=
  let n := nat_of_ascii a in
  ((9 <=? n) && (n <=? 13) || (n =? 32))%nat.

Definition space2 (a b : ascii) : bool :=
  let '(x, y) := (nat_of_ascii a, nat_of_ascii b) in
  ((x =? 194) && ((y =? 133) || (y =? 160)))%nat.

Definition space3 (a b c : ascii) : bool :=
  let '(x, y, z) := (nat_of_ascii a, nat_of_ascii b, nat_of_ascii c) in
  ((x =? 225) && (y =? 154) && (z =? 128)
   || (x =? 226) && (y =? 128)
      && ((128 <=? z) && (z <=? 138) || (z =? 168) || (z =? 169)
          || (z =? 175))
   || (x =? 226) && (y =? 129) && (z =? 159)
   || (x =? 227) && (y =? 128) && (z =? 128))%nat.

(** The bytes left after the white space at the start of [s]. *)
Fixpoint trimLeft (s : list ascii) : list ascii :=
  match s with
  | a :: s1 =>
      if space1 a then trimLeft s1
      else match s1 with
           | b :: s2 =>
               if space2 a b then trimLeft s2
               else match s2 with
                    | c :: s3 => if space3 a b c then trimLeft s3 else s
                    | [] => s
                    end
           | [] => s
           end
  | [] => []
  end.

(** The same from the end, on the reversed bytes. *)
Fixpoint trimRight (s : list ascii) : list ascii :=
  match s with
  | c :: s1 =>
      if space1 c then trimRight s1
      else match s1 with
           | b :: s2 =>
               if space2 b c then trimRight s2
               else match s2 with
                    | a :: s3 => if space3 a b c then trimRight s3 else s
                    | [] => s
                    end
           | [] => s
           end
  | [] => []
  end.

(** [strings.TrimSpace]: [s] without the leading and trailing white
    space, as defined by Unicode. *)
Definition TrimSpace (s : string) : string :=
  string_of_list_ascii
    (rev (trimRight (rev (trimLeft (list_ascii_of_string s))))).

(** [strings.Replace(s, old, new, 1)] for a non-empty [old]: the first
    instance of [old] replaced by [new]. *)
Definition ReplaceFirst (s old new : string) : string :=
  let i := Index s old in
  if i =? -1 then s
  else slice s 0 i +:+ new +:+ slice s (i + len old) (len s).

End strings.

(** [filepath.Dir]: all but the last element of [p], cleaned. *)
Definition filepath_Dir (p : string) : string :=
  path.Clean (strings.slice p 0 (strings.LastIndex p "/" + 1)).

Module Cmd.

Import Gen.

(** [[bufio.Writer]]: a writer whose buffer can be flushed. *)
Class Flusher (W : Type) : Type := Flush : W → W * option string.

(** [const defaultPkgName] *)
Definition defaultPkgName : string := "vfs".

(** The values of the options [-o], [-p] and [-t] and the operands, as
    package [flag] parsed them. *)
Record flags : Type := mkflags {
  output : string;
  pkgName : string;
  testFile : string;
  Args : list string
}.

Section Command.

Context {W : Type} `{Writer W} `{Flusher W}.

(** The file system under the matched sources, and the rendered header. *)
Variable fs : string → node.
Variable header : string → string.

(** [filepath.Glob]: the matches of a pattern, or the error of a
    malformed one. *)
Variable Glob : string → list string + string.

(** [os.MkdirAll]: the error, if any. *)
Variable MkdirAll : string → option string.

(** [os.Create] followed by [bufio.NewWriter]: the writer on the created
    (or truncated) file, or the error. *)
Variable Create : string → W + string.

(** The text [vfsTests.Generate] renders from [tmplTest] for a package
    name and the record of the chosen file. *)
Variable tests : string → file → string.

(** [v := &vfs{...}] *)
Definition setSelf (v : vfs W) : M W unit :=
  λ s, Done tt {| self := v; stdout := s.(stdout); trace := s.(trace) |}.

(** [resolveSources] *)
Fixpoint resolveSources (args : list string) : M W (list mapping) :=
  match args with
  | [] => mret []
  | a :: args' =>
      let i := strings.LastIndex a "::" in
      if i =? -1 then errorExit ("invalid mapping: " +:+ a)
      else
        let src := strings.TrimSpace (strings.slice a 0 i) in
        let targetDir :=
          strings.TrimSpace (strings.slice a (i + 2) (strings.len a)) in
        if String.eqb src "" || String.eqb targetDir ""
           || negb (strings.Index targetDir "\" =? -1)
           || negb (rooted targetDir)
        then errorExit ("invalid mapping: " +:+ a)
        else
          let targetDir := path.Clean targetDir in
          match Glob src with
          | inr e =>
              handleError (Some (SysError e)) ("invalid mapping: " +:+ a) ;;
              mret []
          | inl matches =>
              rest ← resolveSources args';
              mret ({| Gen.src := matches; Gen.targetDir := targetDir;
                       Gen.pattern := a |} :: rest)
          end
  end.

(** [main]; the usage text goes to standard error, which is not part of
    the process.  The value returned is the writer on the test file after
    it was flushed, if tests were generated. *)
Definition main (fl : flags) : M W (option W) :=
  match fl.(Args) with
  | [] => Println ["missing mapping operand"] ;; osExit 2
  | _ =>
      let pkgName := strings.TrimSpace fl.(pkgName) in
      let pkgName :=
        if String.eqb pkgName "" then defaultPkgName else pkgName in
      ms ← resolveSources fl.(Args);
      setSelf {| mappings := ms; w := None; Gen.pkgName := pkgName;
                 processed := ∅ |} ;;
      let output := strings.TrimSpace fl.(output) in
      (if negb (String.eqb output "") then
         let dir := filepath_Dir output in
         handleError (SysError <$> MkdirAll dir)
           ("could not create: " +:+ dir) ;;
         match Create output with
         | inr e =>
             handleError (Some (SysError e)) ("could not create: " +:+ output)
         | inl wr =>
             setSelf {| mappings := ms; w := Some wr; Gen.pkgName := pkgName;
                        processed := ∅ |}
         end
       else mret tt) ;;
      Generate fs header ;;
      v ← getSelf;
      match v.(w) with
      | Some wr =>
          let '(wr', err) := Flush wr in
          setSelf {| mappings := v.(mappings); w := Some wr';
                     Gen.pkgName := v.(Gen.pkgName);
                     processed := v.(processed) |} ;;
          handleError (SysError <$> err) ("could not write: " +:+ output)
      | None => mret tt
      end ;;
      let testFile := path.Clean (strings.TrimSpace fl.(testFile)) in
      if negb (String.eqb output "") && negb (String.eqb testFile "") then
        v ← getSelf;
        match v.(processed) !! testFile with
        | None => errorExit ("test file not found: " +:+ testFile)
        | Some file =>
            let testOutput := strings.ReplaceFirst output ".go" "_test.go" in
            match Create testOutput with
            | inr e =>
                handleError (Some (SysError e))
                  ("could not create: " +:+ testOutput) ;;
                mret None
            | inl to =>
                let '(to1, err) := Write to (tests pkgName file) in
                handleError (SysError <$> err) "could not write tests" ;;
                let '(to2, err) := Flush to1 in
                handleError (SysError <$> err)
                  ("could not write: " +:+ testOutput) ;;
                mret (Some to2)
            end
        end
      else mret None
  end.

End Command.

(** The in-memory writer has nothing to flush. *)
#[global] Instance buffer_Flusher : Flusher buffer := λ wr, (wr, None).

End Cmd.

(** An environment in which every pattern matches the one file it names,
    directories can be made and files created, and the rendered tests are
    one line. *)
Definition example_Glob (pattern : string) : list string + string :=
  inl [pattern].

Definition example_MkdirAll (dir : string) : option string := None.

Definition example_Create (name : string) : Gen.buffer + string := inl "".

Definition example_tests (pkg : string) (f : Gen.file) : string :=
  "// tests of " +:+ f.(Gen.path) +:+ Gen.nl.


(** The process when [main] starts. *)
Definition boot : Gen.proc Gen.buffer :=
  {| Gen.self := {| Gen.mappings := []; Gen.w := None; Gen.pkgName := "";
                    Gen.processed := ∅ |};
     Gen.stdout := []; Gen.trace := [] |}.

(** ** Machine arithmetic *)

Lemma wrap_in_range (z : Z) : Int64.in_range z → Int64.wrap z = z.
Proof.
  unfold Int64.in_range, Int64.wrap, Int64.min, Int64.max. intros Hz.
  rewrite Z.mod_small; lia.
Qed.

Lemma wrap_above (z : Z) :
  Int64.max < z <= Int64.max + 2 ^ 63 → Int64.wrap z = z - 2 ^ 64.
Proof.
  unfold Int64.wrap, Int64.max. intros Hz.
  replace (z + 2 ^ 63) with (z + 2 ^ 63 - 2 ^ 64 + 1 * 2 ^ 64) by lia.
  rewrite Z_mod_plus_full, Z.mod_small; lia.
Qed.

(** A sum or difference that may have left the range by less than
    [2 ^ 63] either side: within the range it is itself, above it the
    wrapped value is negative. *)
Lemma wrap_cases (z : Z) :
  Int64.min <= z <= Int64.max + 2 ^ 63 →
  Int64.wrap z = z ∨ (Int64.max < z ∧ Int64.wrap z < 0).
Proof.
  intros Hz. destruct (decide (z <= Int64.max)) as [Hle|Hgt].
  - left. apply wrap_in_range. unfold Int64.in_range. lia.
  - right. split; [lia|]. rewrite wrap_above by lia.
    unfold Int64.max in *. lia.
Qed.

Lemma len_nonneg {A : Type} (s : list A) : 0 <= len s.
Proof. unfold len. lia. Qed.

(** ** The run-time package: [Open] *)

Section OpenProperties.

Import Vfs Spec.

Variable store : gmap string file.

Lemma Open_absent (p v : string) :
  store !! p = None → Open store p v = inr (FileNotFound p).
Proof. intros Hp. unfold Open. by rewrite Hp. Qed.

Lemma Open_present (p v : string) (e : file) :
  store !! p = Some e →
  Open store p v =
    if decide (v ≠ "" ∧ e.(version) ≠ v)
    then inr (VersionMismatch v e.(version) p)
    else inl {| f := e; path := p; offset := 0 |}.
Proof.
  intros Hp. unfold Open. rewrite Hp.
  repeat case_bool_decide; simpl; case_decide; try done; tauto.
Qed.

(** A handle [Open] returns is on the entry stored at the path, at
    offset 0, and its version is the expected one if one was given. *)
Lemma Open_handle (p v : string) (fd : File) :
  Open store p v = inl fd →
  store !! p = Some fd.(f) ∧ fd.(path) = p ∧ fd.(offset) = 0
  ∧ (v = "" ∨ fd.(f).(version) = v).
Proof.
  intros Hfd. destruct (store !! p) as [e0|] eqn:Hp.
  - rewrite (Open_present _ _ _ Hp) in Hfd.
    case_decide as Hd; simplify_eq. simpl. repeat split.
    destruct (decide (v = "")) as [|Hv]; [by left|right].
    destruct (decide (version e0 = v)); [done|]. destruct Hd. done.
  - by rewrite Open_absent in Hfd.
Qed.

(** C3.  [Open] fails with the not-found error exactly when the path is
    not a key of the store; on a key, a non-empty expected version that
    differs from the stored one gives the version-mismatch error; the
    empty expected version skips the check, so that [Open] succeeds
    whatever the stored version; and every handle [Open] returns is on the
    entry stored at the path, with offset 0. *)
Theorem Open_spec (p v : string) :
  ((∃ e, Open store p v = inr e ∧ kind_of e = NotFound) ↔ store !! p = None)
  ∧ (∀ e, store !! p = Some e → v ≠ "" → e.(version) ≠ v →
       Open store p v = inr (VersionMismatch v e.(version) p))
  ∧ (∀ e, store !! p = Some e →
       Open store p "" = inl {| f := e; path := p; offset := 0 |})
  ∧ (∀ fd, Open store p v = inl fd →
       store !! p = Some fd.(f) ∧ fd.(path) = p ∧ fd.(offset) = 0
       ∧ (v = "" ∨ fd.(f).(version) = v)).
Proof.
  split; [split|split; [|split]].
  - intros (e & He & Hk). destruct (store !! p) as [e0|] eqn:Hp; [|done].
    rewrite (Open_present _ _ _ Hp) in He.
    case_decide; by simplify_eq.
  - intros Hp. exists (FileNotFound p). by rewrite Open_absent.
  - intros e Hp Hv Hne. rewrite (Open_present _ _ _ Hp).
    by rewrite decide_True.
  - intros e Hp. rewrite (Open_present _ _ _ Hp).
    rewrite decide_False; [done|]. intros [Hc _]. by apply Hc.
  - apply Open_handle.
Qed.

End OpenProperties.

Lemma Open_spec_witness :
  Vfs.Open hello_store "/docs/hello.txt" "" = inl hello_fd
  ∧ Vfs.Open hello_store "/docs/hello.txt" "wrong" =
      inr (Vfs.VersionMismatch "wrong" "013b00d2" "/docs/hello.txt")
  ∧ hello_store !! "/docs/missing.txt" = None.
Proof.
  pose proof (Open_spec hello_store "/docs/hello.txt" "wrong") as (_ & Hm & _).
  pose proof (Open_spec hello_store "/docs/hello.txt" "") as (_ & _ & He & _).
  pose proof (Open_spec hello_store "/docs/missing.txt" "") as ([_ Hn] & _).
  split; [|split].
  - apply (He hello_entry). reflexivity.
  - apply (Hm hello_entry); [reflexivity|discriminate|discriminate].
  - reflexivity.
Defined.

(** C10.  [Open] looks its path argument up as it is: a path that is not
    literally a key of the store is not found, whatever version is asked
    for.  So on the store that holds only [/docs/hello.txt], the paths
    with a doubled slash, a [.] element or a trailing slash are not
    found, although cleaning each of them gives the stored key. *)
Theorem Open_exact_lookup :
  (∀ (store : gmap string Vfs.file) (p v : string),
     p ∉ dom store → Vfs.Open store p v = inr (Vfs.FileNotFound p))
  ∧ (∀ (e : Vfs.file) (v p : string),
       p ∈ ["/docs//hello.txt"; "/docs/./hello.txt"; "/docs/hello.txt/"] →
       path.Clean p = "/docs/hello.txt"
       ∧ Vfs.Open {[ "/docs/hello.txt" := e ]} p v = inr (Vfs.FileNotFound p)).
Proof.
  split.
  - intros store p v Hp. apply Open_absent. by apply not_elem_of_dom.
  - intros e v p Hp.
    assert (p = "/docs//hello.txt" ∨ p = "/docs/./hello.txt"
            ∨ p = "/docs/hello.txt/") as Hcases.
    { repeat (apply elem_of_cons in Hp as [->|Hp]; [tauto|]).
      by apply elem_of_nil in Hp. }
    destruct Hcases as [->|[->| ->]];
      (split; [reflexivity|apply Open_absent; by apply lookup_singleton_ne]).
Qed.

Lemma Open_exact_lookup_witness :
  Vfs.Open hello_store "/docs//hello.txt" "013b00d2"
  = inr (Vfs.FileNotFound "/docs//hello.txt").
Proof.
  apply (proj1 Open_exact_lookup hello_store "/docs//hello.txt" "013b00d2").
  unfold hello_store. rewrite dom_singleton_L.
  intros Hin. apply elem_of_singleton in Hin. discriminate.
Defined.

(** ** The run-time package: [Seek] *)

Section SeekProperties.

Import Vfs Spec.

Lemma Seek_offset_too_large (fd : File) (off whence : Z) :
  maxSize < off → Seek fd off whence = (fd, (0, Some (InvalidOffset off))).
Proof.
  intros Hoff. unfold Seek.
  destruct (maxSize <? off) eqn:Hlt; [done|]. apply Z.ltb_ge in Hlt. lia.
Qed.

(** A failed [Seek] leaves the handle as it was. *)
Lemma Seek_error_unchanged (fd : File) (off whence : Z) :
  (Seek fd off whence).2.2 ≠ None → (Seek fd off whence).1 = fd.
Proof.
  unfold Seek.
  repeat (case_match; simpl; try done).
Qed.

(** A successful [Seek] returns the offset it has set, which lies within
    the entry. *)
Lemma Seek_success (fd : File) (off whence : Z) :
  (Seek fd off whence).2.2 = None →
  let fd' := (Seek fd off whence).1 in
  fd'.(f) = fd.(f) ∧ fd'.(path) = fd.(path)
  ∧ (Seek fd off whence).2.1 = fd'.(offset)
  ∧ 0 <= fd'.(offset) <= Size fd ∧ fd'.(offset) <= maxSize.
Proof.
  unfold Seek, Size.
  repeat (case_match; simpl; try done); intros _;
    repeat match goal with
           | H : (_ || _) = false |- _ => apply orb_false_elim in H; destruct H
           | H : (_ <? _) = false |- _ => apply Z.ltb_ge in H
           end; repeat split; lia.
Qed.

(** C9.  The bound on the input offset is the first check of [Seek]: an
    input offset above [maxSize] gives the invalid-offset error whatever
    [whence] is, also when [whence] is none of the three modes; hence the
    invalid-whence error is only returned for input offsets of at most
    [maxSize]. *)
Theorem Seek_checks_offset_before_whence (fd : File) (off whence : Z) :
  (maxSize < off →
     Seek fd off whence = (fd, (0, Some (InvalidOffset off))))
  ∧ (∀ e, (Seek fd off whence).2.2 = Some e →
       kind_of e = InvalidWhenceKind → off <= maxSize).
Proof.
  split; [apply Seek_offset_too_large|].
  intros e He Hk. destruct (decide (maxSize < off)) as [Hlt|]; [|lia].
  rewrite (Seek_offset_too_large _ _ _ Hlt) in He. simpl in He.
  by simplify_eq.
Qed.

Lemma Seek_checks_offset_before_whence_witness :
  Seek hello_fd 2147483648 7 = (hello_fd, (0, Some (InvalidOffset 2147483648)))
  ∧ Seek hello_fd 1 7 = (hello_fd, (0, Some (InvalidWhence 7))).
Proof.
  split.
  - apply (proj1 (Seek_checks_offset_before_whence hello_fd 2147483648 7)).
    reflexivity.
  - reflexivity.
Defined.

(** C1.  On a handle whose cursor lies within its entry, [Seek] does what
    [Seek_spec] says: an input offset above [maxSize] is an invalid
    offset; otherwise the candidate is [offset] from the start,
    [cur + offset] from the current offset and [size - offset] from the
    end, and any other [whence] is an invalid whence; a candidate above
    [maxSize], below zero or above the size is an invalid offset, and the
    handle keeps its offset; any other candidate becomes the offset of the
    handle and is returned.  The arithmetic of the code is that of
    [int64]; the candidate of the specification is the unbounded one. *)
Theorem Seek_refines_spec (fd : File) (off whence : Z) :
  Int64.in_range off → cursor_ok fd → entry_ok fd.(f) →
  Seek_kind fd off whence = Seek_spec fd off whence.
Proof.
  unfold Int64.in_range, cursor_ok, entry_ok, Size.
  intros Hoff Hcur Hlen.
  pose proof (len_nonneg (contents (f fd))) as H0.
  unfold Seek_kind, Seek_spec, Seek, candidate, Size,
    SeekStart, SeekCurrent, SeekEnd, maxSize in *.
  destruct (decide (2147483647 < off)) as [Hbig|Hbig].
  { destruct (Z.ltb_spec 2147483647 off); [done|lia]. }
  assert (Int64.min <= offset fd + off <= Int64.max + 2 ^ 63) as Hcurrent
    by (unfold Int64.min, Int64.max in *; lia).
  assert (Int64.min <= len (contents (f fd)) - off <= Int64.max + 2 ^ 63)
    as Hend by (unfold Int64.min, Int64.max in *; lia).
  apply wrap_cases in Hcurrent, Hend.
  unfold Int64.min, Int64.max in *.
  destruct Hcurrent as [->|[? ?]]; destruct Hend as [->|[? ?]]; bool_cases.
Qed.

End SeekProperties.

Lemma Seek_refines_spec_witness :
  Vfs.Seek hello_fd 0 Vfs.SeekEnd
  = ({| Vfs.f := hello_entry; Vfs.path := "/docs/hello.txt";
        Vfs.offset := 2 |}, (2, None))
  ∧ Spec.Seek_kind hello_fd 0 Vfs.SeekEnd = Spec.Seek_spec hello_fd 0 Vfs.SeekEnd.
Proof.
  split; [reflexivity|].
  apply (Seek_refines_spec hello_fd 0 Vfs.SeekEnd).
  - unfold Int64.in_range, Int64.min, Int64.max. lia.
  - unfold Spec.cursor_ok. vm_compute. split; discriminate.
  - unfold Spec.entry_ok. vm_compute. discriminate.
Defined.

(** ** The run-time package: [Read] *)

Section ReadProperties.

Import Vfs Spec.

Lemma copy_prefix {A : Type} (dst src : list A) :
  (length src ≤ length dst)%nat →
  copy dst src = src ++ drop (length src) dst.
Proof.
  intros Hle. unfold copy. rewrite Nat.min_r by done.
  by rewrite firstn_all.
Qed.

Lemma slice_length {A : Type} (s : list A) (lo hi : Z) :
  0 <= lo <= hi → hi <= len s →
  length (slice s lo hi) = Z.to_nat (hi - lo).
Proof.
  unfold len, slice. intros Hlo Hhi.
  rewrite length_take, length_drop. lia.
Qed.

(** The two cases of [Read] on a handle whose cursor lies within its
    entry: nothing available, or something to copy. *)
Lemma Read_cases (fd : File) (b : list byte) :
  cursor_ok fd → entry_ok fd.(f) →
  let available := Size fd - fd.(offset) in
  (available = 0 → Read fd b = Returns fd (b, 0, Some EOF))
  ∧ (0 < available →
       let n := Z.min available (len b) in
       Read fd b =
         Returns {| f := fd.(f); path := fd.(path); offset := fd.(offset) + n |}
           (take (Z.to_nat n) (drop (Z.to_nat fd.(offset)) fd.(f).(contents))
              ++ drop (Z.to_nat n) b, n, None)).
Proof.
  intros Hcur Hlen available. unfold cursor_ok, entry_ok, Size in *.
  pose proof (len_nonneg (contents (f fd))) as H0.
  pose proof (len_nonneg b) as Hb.
  assert (Int64.wrap (len (contents (f fd)) - offset fd) = available) as Hav.
  { apply wrap_in_range. unfold Int64.in_range, Int64.min, Int64.max in *.
    subst available. lia. }
  split.
  - intros Hz. unfold Read. rewrite Hav, Hz. done.
  - intros Hpos. cbv zeta. set (n := Z.min available (len b)).
    unfold Read. rewrite Hav.
    destruct (Z.eqb_spec available 0) as [|_]; [lia|].
    assert ((if len b <? available then len b else available) = n) as ->.
    { subst n. destruct (Z.ltb_spec (len b) available); lia. }
    assert (Int64.wrap (offset fd + n) = offset fd + n) as ->.
    { apply wrap_in_range. unfold Int64.in_range, Int64.min, Int64.max in *.
      subst n available. lia. }
    assert (0 <= n <= available ∧ n <= len b) as Hn by (subst n; lia).
    destruct (Z.leb_spec 0 (offset fd)); [|lia].
    destruct (Z.leb_spec (offset fd) (offset fd + n)); [|lia].
    destruct (Z.leb_spec (offset fd + n) (len (contents (f fd))));
      [|subst available; lia].
    simpl. f_equal. f_equal. f_equal.
    rewrite copy_prefix.
    + rewrite slice_length by (subst available; lia).
      unfold slice. by replace (offset fd + n - offset fd) with n by lia.
    + rewrite slice_length by (subst available; lia). unfold len in *. lia.
Qed.

(** C2.  On a handle whose cursor lies within its entry, with
    [available = size - offset]: when nothing is available [Read] returns
    0 and the end-of-stream error, whatever the length of the buffer (also
    zero), and changes neither the handle nor the buffer; when something
    is available it copies the [min available (len b)] bytes at the offset
    into the start of the buffer, advances the offset by that count and
    returns the count with no error (count 0 for an empty buffer). *)
Theorem Read_spec (fd : File) (b : list byte) :
  cursor_ok fd → entry_ok fd.(f) →
  let available := Size fd - fd.(offset) in
  (available = 0 → Read fd b = Returns fd (b, 0, Some EOF))
  ∧ (0 < available →
       let n := Z.min available (len b) in
       Read fd b =
         Returns {| f := fd.(f); path := fd.(path); offset := fd.(offset) + n |}
           (take (Z.to_nat n) (drop (Z.to_nat fd.(offset)) fd.(f).(contents))
              ++ drop (Z.to_nat n) b, n, None)).
Proof. apply Read_cases. Qed.

End ReadProperties.

Lemma Read_spec_witness :
  Vfs.Read hello_fd ["000"%byte; "000"%byte]
  = Vfs.Returns {| Vfs.f := hello_entry; Vfs.path := "/docs/hello.txt";
                   Vfs.offset := 2 |} (["h"%byte; "i"%byte], 2, None).
Proof.
  apply (proj2 (Read_spec hello_fd ["000"%byte; "000"%byte]
                  ltac:(unfold Spec.cursor_ok; vm_compute; split; discriminate)
                  ltac:(unfold Spec.entry_ok; vm_compute; discriminate))).
  reflexivity.
Defined.

(** ** The cursor invariant *)

Section CursorInvariant.

Import Vfs Spec.

Lemma Open_cursor (store : gmap string file) (p v : string) (fd : File) :
  Open store p v = inl fd →
  store !! p = Some fd.(f) ∧ fd.(offset) = 0 ∧ cursor_ok fd.
Proof.
  intros Hopen.
  destruct (Open_handle store p v fd Hopen) as (Hp & _ & Hoff & _).
  repeat split; [done|done| |]; unfold cursor_ok; rewrite Hoff;
    [done|apply len_nonneg].
Qed.

Lemma Read_preserves (fd : File) (b : list byte) :
  cursor_ok fd → entry_ok fd.(f) →
  ∃ fd' r, Read fd b = Returns fd' r
           ∧ fd'.(f) = fd.(f) ∧ fd'.(path) = fd.(path)
           ∧ fd.(offset) <= fd'.(offset) <= Size fd.
Proof.
  intros Hcur Hlen. destruct (Read_cases fd b Hcur Hlen) as [Hzero Hpos].
  unfold cursor_ok in Hcur.
  destruct (decide (Size fd - offset fd = 0)) as [Hz|Hnz].
  - eexists _, _. split; [by apply Hzero|]. repeat split; lia.
  - eexists _, _. split; [apply Hpos; lia|]. pose proof (len_nonneg b).
    simpl. repeat split; lia.
Qed.

Lemma Seek_preserves (fd : File) (off whence : Z) :
  cursor_ok fd →
  let fd' := (Seek fd off whence).1 in
  fd'.(f) = fd.(f) ∧ cursor_ok fd'
  ∧ ((Seek fd off whence).2.2 ≠ None → fd' = fd).
Proof.
  intros Hcur fd'. subst fd'.
  destruct ((Seek fd off whence).2.2) as [e|] eqn:Herr.
  - rewrite Seek_error_unchanged by (by rewrite Herr). done.
  - destruct (Seek_success fd off whence Herr) as (Hf & _ & _ & Hin & _).
    unfold cursor_ok, Size. rewrite Hf. done.
Qed.

Lemma step_preserves (fd : File) (o : op) :
  cursor_ok fd → entry_ok fd.(f) →
  ∃ fd', step fd o = Some fd' ∧ fd'.(f) = fd.(f) ∧ cursor_ok fd'.
Proof.
  intros Hcur Hlen. destruct o as [b|off whence]; simpl.
  - destruct (Read_preserves fd b Hcur Hlen) as (fd' & r & -> & Hf & _ & Hoff).
    exists fd'. unfold cursor_ok, Size in *. rewrite Hf. repeat split; lia.
  - destruct (Seek_preserves fd off whence Hcur) as (Hf & Hc & _). eauto.
Qed.

Lemma run_preserves (ops : list op) (fd : File) :
  cursor_ok fd → entry_ok fd.(f) →
  ∃ fds, run fd ops = Some fds ∧ length fds = length ops
         ∧ Forall cursor_ok fds.
Proof.
  revert fd. induction ops as [|o ops IH]; intros fd Hcur Hlen; simpl.
  - by exists [].
  - destruct (step_preserves fd o Hcur Hlen) as (fd' & -> & Hf & Hcur').
    simpl. destruct (IH fd' Hcur') as (fds & -> & Hn & Hall).
    { by rewrite Hf. }
    exists (fd' :: fds). simpl. repeat split; [by rewrite Hn|].
    by constructor.
Qed.

(** C4.  On a store whose entries are Go slices, every handle [Open]
    returns has offset 0, no sequence of [Read] and [Seek] calls on it
    panics, and the offset lies between 0 and the size of the entry after
    each call.  A [Read] only moves the offset forward, by no more than
    what is available; a [Seek] that fails leaves the handle as it was. *)
Theorem cursor_invariant (store : gmap string file) (p v : string)
    (fd : File) (ops : list op) :
  map_Forall (λ _ e, entry_ok e) store →
  Open store p v = inl fd →
  (fd.(offset) = 0
   ∧ ∃ fds, run fd ops = Some fds ∧ length fds = length ops
            ∧ Forall cursor_ok (fd :: fds))
  ∧ (∀ h b, cursor_ok h → entry_ok h.(f) →
       ∃ h' r, Read h b = Returns h' r
               ∧ h.(offset) <= h'.(offset) <= Size h ∧ Size h' = Size h)
  ∧ (∀ h off whence, cursor_ok h →
       cursor_ok (Seek h off whence).1
       ∧ ((Seek h off whence).2.2 ≠ None → (Seek h off whence).1 = h)).
Proof.
  intros Hstore Hopen.
  destruct (Open_cursor store p v fd Hopen) as (Hp & Hoff & Hcur).
  pose proof (Hstore p (f fd) Hp) as Hlen. simpl in Hlen.
  split; [|split].
  - split; [done|].
    destruct (run_preserves ops fd Hcur Hlen) as (fds & Hrun & Hn & Hall).
    exists fds. repeat split; [done|done|by constructor].
  - intros h b Hh Hhl.
    destruct (Read_preserves h b Hh Hhl) as (h' & r & Hr & Hf & _ & Ho).
    exists h', r. unfold Size. rewrite Hf. done.
  - intros h off whence Hh.
    destruct (Seek_preserves h off whence Hh) as (_ & Hc & He). done.
Qed.

End CursorInvariant.

Lemma cursor_invariant_witness :
  ∃ fds,
    Spec.run hello_fd
      [Spec.OpSeek 0 Vfs.SeekEnd; Spec.OpRead ["000"%byte];
       Spec.OpSeek 1 Vfs.SeekStart; Spec.OpRead ["000"%byte; "000"%byte];
       Spec.OpSeek 5 Vfs.SeekCurrent] = Some fds
    ∧ length fds = 5%nat
    ∧ Forall Spec.cursor_ok (hello_fd :: fds).
Proof.
  refine (proj2 (proj1 (cursor_invariant hello_store "/docs/hello.txt"
                          "013b00d2" hello_fd _ _ _))).
  - intros k e Hk. unfold hello_store in Hk.
    apply lookup_singleton_Some in Hk as [_ <-].
    unfold Spec.entry_ok. vm_compute. discriminate.
  - reflexivity.
Defined.

(** ** Adler-32: the streaming digest against RFC 1950 *)

Section Adler32Properties.

Import adler32 Spec.

Lemma byte_val_bound (b : byte) : 0 <= byte_val b < 256.
Proof.
  unfold byte_val. pose proof (Byte.to_N_bounded b). lia.
Qed.

Lemma to_byte_val (x : Z) : byte_val (to_byte x) = x mod 256.
Proof.
  unfold byte_val, to_byte.
  pose proof (Z.mod_pos_bound x 256 eq_refl) as Hx.
  destruct (Byte.of_N (Z.to_N (x mod 256))) as [b|] eqn:Hb; simpl.
  - apply Byte.to_of_N in Hb. rewrite Hb. lia.
  - apply Byte.of_N_None_iff in Hb. lia.
Qed.

(** The two halves of a digest do not overlap. *)
Lemma halves_disjoint (s1 s2 : Z) :
  0 <= s1 < 65536 → Z.land (s2 * 2 ^ 16) s1 = 0.
Proof.
  intros Hs1. apply Z.bits_inj'. intros n Hn.
  rewrite Z.land_spec, Z.bits_0.
  destruct (decide (n < 16)) as [Hlt|Hge].
  - by rewrite Z.mul_pow2_bits_low.
  - destruct (decide (s1 = 0)) as [->|Hnz].
    + by rewrite Z.bits_0, andb_false_r.
    + rewrite (Z.bits_above_log2 s1 n), andb_false_r; [done|lia|].
      assert (Z.log2 s1 < 16); [|lia].
      apply Z.log2_lt_pow2; lia.
Qed.

Lemma pack_halves (s1 s2 : Z) :
  0 <= s1 < 65536 → Z.lor (Z.shiftl s2 16) s1 = s2 * 65536 + s1.
Proof.
  intros Hs1. rewrite Z.shiftl_mul_pow2 by lia.
  pose proof (Z.add_lor_land (s2 * 2 ^ 16) s1) as Hadd.
  rewrite halves_disjoint in Hadd by done. lia.
Qed.

Lemma unpack_halves (s1 s2 : Z) :
  0 <= s1 < 65536 →
  Z.land (s2 * 65536 + s1) 65535 = s1
  ∧ Z.shiftr (s2 * 65536 + s1) 16 = s2.
Proof.
  intros Hs1. split.
  - change 65535 with (Z.ones 16). rewrite Z.land_ones by lia.
    change (2 ^ 16) with 65536.
    rewrite Z.add_comm, Z_mod_plus_full. apply Z.mod_small. lia.
  - rewrite Z.shiftr_div_pow2 by lia. change (2 ^ 16) with 65536.
    rewrite Z.add_comm, Z_div_plus_full by lia.
    rewrite Z.div_small by lia. lia.
Qed.

Lemma sigma_shift (x : Z) (g : nat → Z) (ks : list nat) :
  sigma (λ k, x + g k) ks = Z.of_nat (length ks) * x + sigma g ks.
Proof.
  unfold sigma. induction ks as [|k ks IH]; simpl; [lia|].
  rewrite IH. lia.
Qed.

Lemma sigma_ext (g h : nat → Z) (ks : list nat) :
  (∀ k, g k = h k) → sigma g ks = sigma h ks.
Proof.
  intros Hgh. unfold sigma. induction ks as [|k ks IH]; simpl; [done|].
  by rewrite Hgh, IH.
Qed.

Lemma sigma_succ (g : nat → Z) (a n : nat) :
  sigma g (seq (S a) n) = sigma (λ k, g (S k)) (seq a n).
Proof.
  unfold sigma. rewrite <- seq_shift, map_map. done.
Qed.

Lemma prefix_sums_cons (x : byte) (bs : list byte) :
  prefix_sums (x :: bs)
  = Z.of_nat (S (length bs)) * byte_val x + prefix_sums bs.
Proof.
  unfold prefix_sums. simpl length. rewrite sigma_succ.
  rewrite (sigma_ext _ (λ k, byte_val x + sum_bytes (take k bs))) by done.
  rewrite sigma_shift, length_seq.
  change (seq 0 (S (length bs))) with (0%nat :: seq 1 (length bs)).
  unfold sigma at 1. simpl. unfold sigma. lia.
Qed.

(** The two running sums after a byte sequence, in closed form. *)
Lemma fold_add_byte (bs : list byte) (s1 s2 : Z) :
  0 <= s1 < mod_ → 0 <= s2 < mod_ →
  fold_left add_byte bs (s1, s2)
  = ((s1 + sum_bytes bs) mod mod_,
     (s2 + Z.of_nat (length bs) * s1 + prefix_sums bs) mod mod_).
Proof.
  revert s1 s2. induction bs as [|x bs IH]; intros s1 s2 H1 H2.
  - simpl. unfold prefix_sums, sigma. simpl.
    rewrite !Z.add_0_r, !Z.mod_small by done. done.
  - cbn [fold_left]. unfold add_byte at 2. cbn [fst snd].
    assert (0 < mod_) as HM by done.
    pose proof (Z.mod_pos_bound (s1 + byte_val x) mod_ HM) as Hr1.
    pose proof (Z.mod_pos_bound (s2 + (s1 + byte_val x) mod mod_) mod_ HM)
      as Hr2.
    rewrite IH by done. rewrite prefix_sums_cons.
    change (sum_bytes (x :: bs)) with (byte_val x + sum_bytes bs).
    pose proof (Z.div_mod (s1 + byte_val x) mod_ ltac:(lia)) as Hd1.
    pose proof (Z.div_mod (s2 + (s1 + byte_val x) mod mod_) mod_ ltac:(lia))
      as Hd2.
    set (r1 := (s1 + byte_val x) mod mod_) in *.
    set (q1 := (s1 + byte_val x) / mod_) in *.
    set (r2 := (s2 + r1) mod mod_) in *.
    set (q2 := (s2 + r1) / mod_) in *.
    set (n := Z.of_nat (length bs)).
    f_equal.
    + replace (s1 + (byte_val x + sum_bytes bs))
        with (r1 + sum_bytes bs + q1 * mod_) by lia.
      by rewrite Z_mod_plus_full.
    + replace (s2 + Z.of_nat (length (x :: bs)) * s1
               + (Z.of_nat (S (length bs)) * byte_val x + prefix_sums bs))
        with (r2 + n * r1 + prefix_sums bs + (q2 + (n + 1) * q1) * mod_).
      * by rewrite Z_mod_plus_full.
      * simpl length. subst n. nia.
Qed.

Lemma Adler32_sums (bs : list byte) :
  Adler32 bs
  = ((Z.of_nat (length bs) + prefix_sums bs) mod mod_) * 65536
    + (1 + sum_bytes bs) mod mod_.
Proof.
  unfold Adler32, prefix_sums. cbv zeta. f_equal. f_equal. f_equal.
  fold (sigma (λ k, 1 + sum_bytes (take k bs)) (seq 1 (length bs))).
  by rewrite sigma_shift, length_seq, Z.mul_1_r.
Qed.

(** A digest that holds the checksum of the bytes written so far. *)
Lemma update_Adler32 (pre bs : list byte) :
  update (Adler32 pre) bs = Adler32 (pre ++ bs).
Proof.
  rewrite !Adler32_sums. unfold update.
  assert (0 < mod_) as HM by done.
  pose proof (Z.mod_pos_bound (1 + sum_bytes pre) mod_ HM) as H1.
  pose proof (Z.mod_pos_bound (Z.of_nat (length pre) + prefix_sums pre) mod_ HM)
    as H2.
  set (a := (1 + sum_bytes pre) mod mod_) in *.
  set (b := (Z.of_nat (length pre) + prefix_sums pre) mod mod_) in *.
  unfold mod_ in H1, H2.
  destruct (unpack_halves a b ltac:(lia)) as [-> ->].
  rewrite fold_add_byte by (unfold mod_; lia). cbn [fst snd].
  pose proof (Z.mod_pos_bound (a + sum_bytes bs) mod_ HM) as H3.
  unfold mod_ in H3.
  rewrite pack_halves by (unfold mod_; lia).
  pose proof (fold_add_byte (pre ++ bs) 1 0 ltac:(done) ltac:(done)) as Hall.
  rewrite fold_left_app in Hall.
  rewrite (fold_add_byte pre 1 0) in Hall by done.
  rewrite Z.add_0_l, Z.mul_1_r in Hall. fold a b in Hall.
  rewrite fold_add_byte in Hall by (unfold mod_; lia).
  injection Hall as Ha Hb. rewrite Ha, Hb.
  rewrite Z.add_0_l, Z.mul_1_r. done.
Qed.

Lemma Adler32_nil : Adler32 [] = New.
Proof. reflexivity. Qed.

(** Writing the chunks of a stream one by one gives the checksum of the
    whole byte sequence. *)
Lemma update_chunks (cs : list (list byte)) (pre : list byte) :
  fold_left update cs (Adler32 pre) = Adler32 (pre ++ concat cs).
Proof.
  revert pre. induction cs as [|c cs IH]; intros pre; simpl.
  - by rewrite app_nil_r.
  - rewrite update_Adler32, IH. by rewrite <- app_assoc.
Qed.

Lemma Adler32_bound (bs : list byte) : 0 <= Adler32 bs < 2 ^ 32.
Proof.
  rewrite Adler32_sums.
  assert (0 < mod_) as HM by done.
  pose proof (Z.mod_pos_bound (1 + sum_bytes bs) mod_ HM).
  pose proof (Z.mod_pos_bound (Z.of_nat (length bs) + prefix_sums bs) mod_ HM).
  unfold mod_ in *. lia.
Qed.

End Adler32Properties.

(** ** The hexadecimal rendering of the digest *)

Section HexProperties.

Import adler32 fmt Spec.

Lemma nibbles (x : Z) :
  (x mod 256) / 16 = (x / 16) mod 16 ∧ (x mod 256) mod 16 = x mod 16.
Proof. split; Z.div_mod_to_equations; lia. Qed.

Lemma hex_Sum (c : Z) : 0 <= c < 2 ^ 32 → hex (Sum c) = hex32 c.
Proof.
  intros Hc. unfold Sum, hex32. cbn [hex seq rev map app string_of_list_ascii].
  rewrite !to_byte_val, !Z.shiftr_div_pow2 by lia.
  destruct (nibbles (c / 2 ^ 24)) as [-> ->].
  destruct (nibbles (c / 2 ^ 16)) as [-> ->].
  destruct (nibbles (c / 2 ^ 8)) as [-> ->].
  destruct (nibbles c) as [-> ->].
  rewrite !Z.div_div by lia.
  change (c / 16 ^ Z.of_nat 0) with (c / 1). rewrite Z.div_1_r.
  done.
Qed.

End HexProperties.

(** ** Reasoning about the generator's computations *)

Section Weakest.

Import Gen.

Context {W : Type} `{Writer W}.

Lemma wp_ret {A} (a : A) Q E (s : proc W) : wp (mret a) Q E s ↔ Q a s.
Proof. done. Qed.

Lemma wp_bind {A B} (m : M W A) (k : A → M W B) Q E (s : proc W) :
  wp (m ≫= k) Q E s ↔ wp m (λ a s', wp (k a) Q E s') E s.
Proof.
  unfold wp, mbind, M_bind, bind. by destruct (m s).
Qed.

Lemma wp_mono {A} (m : M W A) (Q Q' : A → proc W → Prop)
    (E E' : Z → proc W → Prop) (s : proc W) :
  (∀ a s', Q a s' → Q' a s') → (∀ c s', E c s' → E' c s') →
  wp m Q E s → wp m Q' E' s.
Proof. unfold wp. intros HQ HE. destruct (m s); auto. Qed.

Lemma wp_Done {A} (m : M W A) Q E (s s' : proc W) (a : A) :
  wp m Q E s → m s = Done a s' → Q a s'.
Proof. unfold wp. intros Hwp Heq. by rewrite Heq in Hwp. Qed.

Lemma wp_Exit {A} (m : M W A) Q E (s s' : proc W) (c : Z) :
  wp m Q E s → m s = Exit c s' → E c s'.
Proof. unfold wp. intros Hwp Heq. by rewrite Heq in Hwp. Qed.

Lemma wp_of_Done {A} (m : M W A) Q E (s s' : proc W) (a : A) :
  m s = Done a s' → Q a s' → wp m Q E s.
Proof. unfold wp. by intros ->. Qed.

(** A computation that cannot end the process returns. *)
Lemma wp_returns {A} (m : M W A) Q (s : proc W) :
  wp m Q (λ _ _, False) s → ∃ a s', m s = Done a s' ∧ Q a s'.
Proof. unfold wp. destruct (m s); [eauto|done]. Qed.

Lemma wp_getSelf Q E (s : proc W) : wp getSelf Q E s ↔ Q s.(self) s.
Proof. done. Qed.

Lemma wp_Println ops (Q : unit → proc W → Prop) E (s : proc W) :
  wp (Println ops) Q E s
  ↔ Q tt {| self := s.(self); stdout := s.(stdout) ++ [ops];
            trace := s.(trace) |}.
Proof. done. Qed.

Lemma wp_log e (Q : unit → proc W → Prop) E (s : proc W) :
  wp (log e) Q E s
  ↔ Q tt {| self := s.(self); stdout := s.(stdout);
            trace := s.(trace) ++ [e] |}.
Proof. done. Qed.

Lemma wp_osExit {A} c (Q : A → proc W → Prop) E (s : proc W) :
  wp (osExit c) Q E s ↔ E c s.
Proof. done. Qed.

Lemma wp_setProcessed m (Q : unit → proc W → Prop) E (s : proc W) :
  wp (setProcessed m) Q E s
  ↔ Q tt {| self := {| mappings := s.(self).(mappings); w := s.(self).(w);
                       pkgName := s.(self).(pkgName); processed := m |};
            stdout := s.(stdout); trace := s.(trace) |}.
Proof. done. Qed.

Lemma wp_errorExit {A} msg (Q : A → proc W → Prop) E (s : proc W) :
  wp (errorExit msg) Q E s
  ↔ E 1 {| self := s.(self);
           stdout := s.(stdout) ++ [["Error: " +:+ msg]];
           trace := s.(trace) |}.
Proof. done. Qed.

Lemma wp_handleError_None msg (Q : unit → proc W → Prop) E (s : proc W) :
  wp (handleError None msg) Q E s ↔ Q tt s.
Proof. done. Qed.

Lemma wp_handleError_Some e msg (Q : unit → proc W → Prop) E (s : proc W) :
  wp (handleError (Some e) msg) Q E s
  ↔ E 1 {| self := s.(self);
           stdout := (s.(stdout) ++ [["Error: " +:+ msg]]) ++ [[Error e]];
           trace := s.(trace) |}.
Proof. done. Qed.

Lemma wp_Fprintf text (Q : option error → proc W → Prop) E (s : proc W) :
  wp (Fprintf text) Q E s
  ↔ match s.(self).(w) with
    | None => E 2 s
    | Some wr =>
        Q (SysError <$> (Write wr text).2) (written_to s (Write wr text).1)
    end.
Proof.
  unfold wp, Fprintf. destruct (w (self s)) as [wr|]; [|done].
  by destruct (Write wr text).
Qed.

End Weakest.

(** ** The content encoder: [writeFile] *)

Section WriteFile.

Import Gen Spec.

Context {W : Type} `{Writer W}.

Lemma wp_any {A} (m : M W A) (Q : A → proc W → Prop)
    (E : Z → proc W → Prop) (s : proc W) :
  (∀ a s', Q a s') → (∀ c s', E c s') → wp m Q E s.
Proof. unfold wp. intros HQ HE. destruct (m s); auto. Qed.

Lemma wp_and {A} (m : M W A) (Q1 Q2 : A → proc W → Prop)
    (E1 E2 : Z → proc W → Prop) (s : proc W) :
  wp m Q1 E1 s → wp m Q2 E2 s →
  wp m (λ a s', Q1 a s' ∧ Q2 a s') (λ c s', E1 c s' ∧ E2 c s') s.
Proof. unfold wp. destruct (m s); auto. Qed.

Lemma io_step_refl (s : proc W) : is_Some s.(self).(w) → io_step s s.
Proof. intros Hw. by repeat split. Qed.

Lemma io_step_trans (s1 s2 s3 : proc W) :
  io_step s1 s2 → io_step s2 s3 → io_step s1 s3.
Proof.
  intros (_ & Ht1 & Ho1 & Hp1 & Hm1 & Hn1) (Hw & Ht2 & Ho2 & Hp2 & Hm2 & Hn2).
  repeat split; [done|by etrans|congruence..].
Qed.

Lemma io_step_written (s : proc W) (wr : W) : io_step s (written_to s wr).
Proof. by repeat split. Qed.

Lemma io_step_log (s : proc W) (e : event) :
  is_Some s.(self).(w) →
  io_step s {| self := s.(self); stdout := s.(stdout);
               trace := s.(trace) ++ [e] |}.
Proof. intros Hw. repeat split; [done|by apply prefix_app_r|done..]. Qed.

Lemma Fprintf_io (text : string) (s : proc W) :
  is_Some s.(self).(w) →
  wp (Fprintf text)
    (λ err s', io_step s s' ∧ err ≠ Some MaxSizeExceeded) (λ _ _, False) s.
Proof.
  intros [wr Hw]. apply wp_Fprintf. rewrite Hw.
  split; [apply io_step_written|]. by destruct (Write wr text).2.
Qed.

Lemma writeBytes_io (bs : list byte) (s : proc W) :
  is_Some s.(self).(w) →
  wp (writeBytes bs)
    (λ err s', io_step s s' ∧ err ≠ Some MaxSizeExceeded) (λ _ _, False) s.
Proof.
  revert s. induction bs as [|b bs IH]; intros s Hw; simpl.
  - apply wp_ret. split; [by apply io_step_refl|done].
  - apply wp_bind. eapply wp_mono; [| |by apply Fprintf_io]; [|done].
    intros [e|] s1 [Hs1 He]; simpl.
    + by apply wp_ret.
    + eapply wp_mono; [| |apply IH, Hs1]; [|done].
      intros ? s2 [Hs2 He2]. split; [by eapply io_step_trans|done].
Qed.

Lemma readLoop_io name (cs : list (list byte)) ending hash (s : proc W) :
  is_Some s.(self).(w) →
  wp (readLoop name cs ending hash)
    (λ r s', io_step s s' ∧ r ≠ inr MaxSizeExceeded) (λ _ _, False) s.
Proof.
  revert hash s. induction cs as [|c cs IH]; intros hash s Hw; simpl.
  - apply wp_bind, wp_log. destruct ending; apply wp_ret;
      (split; [by apply io_step_log|done]).
  - apply wp_bind, wp_log. apply wp_bind.
    eapply wp_mono; [| |apply writeBytes_io]; [|done|done].
    intros [e|] s1 [Hs1 He].
    + apply wp_ret. split; [|congruence].
      eapply io_step_trans; [|done]. by apply io_step_log.
    + eapply wp_mono; [| |apply IH, Hs1]; [|done].
      intros ? s2 [Hs2 Hr]. split; [|done].
      eapply io_step_trans; [by apply io_step_log|].
      by eapply io_step_trans.
Qed.

(** With no writer, [writeFile] does nothing and reports nothing. *)
Lemma writeFile_dry_run target name size data (s : proc W) :
  s.(self).(w) = None →
  writeFile target name size data s = Done ("", None) s.
Proof.
  intros Hw. unfold writeFile, mbind, M_bind, bind, getSelf. by rewrite Hw.
Qed.

(** With a writer, a declared size above [maxSize] is refused at once. *)
Lemma writeFile_too_large target name size data (s : proc W) :
  is_Some s.(self).(w) → maxSize < size →
  writeFile target name size data s = Done ("", Some MaxSizeExceeded) s.
Proof.
  intros [wr Hw] Hsize. unfold writeFile, mbind, M_bind, bind, getSelf.
  rewrite Hw. by destruct (Z.ltb_spec maxSize size); [|lia].
Qed.

(** With a writer, a declared size within [maxSize] passes the check:
    the source is opened, the call returns, and its error is not the one
    of the size check. *)
Lemma writeFile_within_bound target name size data (s : proc W) :
  is_Some s.(self).(w) → size <= maxSize →
  wp (writeFile target name size data)
    (λ r s', r.2 ≠ Some MaxSizeExceeded
             ∧ (s.(trace) ++ [EvOpen name]) `prefix_of` s'.(trace)
             ∧ io_step s s')
    (λ _ _, False) s.
Proof.
  intros Hw Hsize. unfold writeFile.
  apply wp_bind, wp_getSelf. destruct Hw as [wr Hw]. rewrite Hw.
  destruct (Z.ltb_spec maxSize size); [lia|].
  apply wp_bind, wp_log.
  set (s0 := {| self := self s; stdout := stdout s;
                trace := trace s ++ [EvOpen name] |}).
  assert (io_step s s0) as Hs0 by (apply io_step_log; by rewrite Hw).
  assert (is_Some (w (self s0))) as Hw0 by (simpl; by rewrite Hw).
  destruct data as [e|f0].
  { apply wp_ret. simpl. split; [discriminate|]. split; [reflexivity|done]. }
  assert (∀ (r : string * option error) (s2 : proc W),
            io_step s0 s2 → r.2 ≠ Some MaxSizeExceeded →
            wp (log (EvClose name) ;; mret r)
              (λ r s', r.2 ≠ Some MaxSizeExceeded
                       ∧ (trace s ++ [EvOpen name]) `prefix_of` trace s'
                       ∧ io_step s s')
              (λ _ _, False) s2) as Hclose.
  { intros r s2 Hs2 Hr. apply wp_bind, wp_log, wp_ret.
    assert (io_step s2 {| self := self s2; stdout := stdout s2;
                          trace := trace s2 ++ [EvClose name] |}) as Hc
      by (apply io_step_log, Hs2).
    pose proof (io_step_trans _ _ _ Hs2 Hc) as H02.
    split; [done|]. split; [apply H02|]. by eapply io_step_trans. }
  apply wp_bind. apply wp_bind.
  eapply wp_mono; [| |by apply Fprintf_io]; [|done].
  intros [e|] s1 [Hs1 He1].
  { apply wp_ret. by apply Hclose. }
  apply wp_bind.
  eapply wp_mono; [| |apply readLoop_io, Hs1]; [|done].
  intros [hash|e] s2 [Hs2 Hr].
  - apply wp_bind.
    eapply wp_mono; [| |apply Fprintf_io, Hs2]; [|done].
    intros err s3 [Hs3 He3]. apply wp_ret. apply Hclose; [|done].
    eapply io_step_trans; [|done]. by eapply io_step_trans.
  - apply wp_ret. apply Hclose; [by eapply io_step_trans|].
    simpl. congruence.
Qed.

(** The digest the read loop returns is the one of all chunks, and it
    returns one only at the end of the stream. *)
Lemma readLoop_hash name (cs : list (list byte)) ending hash (s : proc W) :
  wp (readLoop name cs ending hash)
    (λ r _, ∀ h, r = inl h →
                 h = fold_left adler32.update cs hash ∧ ending = None)
    (λ _ _, True) s.
Proof.
  revert hash s. induction cs as [|c cs IH]; intros hash s; simpl.
  - apply wp_bind, wp_log. destruct ending; apply wp_ret;
      intros h Hh; by simplify_eq.
  - apply wp_bind, wp_log. apply wp_bind. apply wp_any; [|done].
    intros [e|] s1; [by apply wp_ret|]. apply IH.
Qed.

(** The version [writeFile] returns without an error. *)
Lemma writeFile_version target name size data (s : proc W) :
  is_Some s.(self).(w) →
  wp (writeFile target name size data)
    (λ r _, r.2 = None →
            ∃ f, data = inr f ∧ f.(ending) = None
                 ∧ r.1 = fmt.hex (adler32.Sum
                           (fold_left adler32.update f.(chunks) adler32.New)))
    (λ _ _, True) s.
Proof.
  intros [wr Hw]. unfold writeFile.
  apply wp_bind, wp_getSelf. rewrite Hw.
  destruct (Z.ltb_spec maxSize size); [by apply wp_ret|].
  apply wp_bind, wp_log. destruct data as [e|f0]; [by apply wp_ret|].
  apply wp_bind. apply wp_bind. apply wp_any; [|done].
  intros [e|] s1.
  { apply wp_ret. apply wp_bind, wp_log. by apply wp_ret. }
  apply wp_bind. eapply wp_mono; [| |apply readLoop_hash]; [|done].
  intros [hash|e] s2 Hhash.
  - destruct (Hhash hash eq_refl) as [-> Hend].
    apply wp_bind. apply wp_any; [|done]. intros err s3.
    apply wp_ret. apply wp_bind, wp_log. apply wp_ret. simpl.
    intros _. by exists f0.
  - apply wp_ret. apply wp_bind, wp_log. by apply wp_ret.
Qed.

Lemma Fprintf_reliable (text : string) (s : proc W) :
  reliable W → is_Some s.(self).(w) →
  wp (Fprintf text) (λ err s', err = None ∧ is_Some s'.(self).(w))
    (λ _ _, False) s.
Proof.
  intros Hrel [wr Hw]. apply wp_Fprintf. rewrite Hw.
  by rewrite (Hrel wr text).
Qed.

Lemma writeBytes_reliable (bs : list byte) (s : proc W) :
  reliable W → is_Some s.(self).(w) →
  wp (writeBytes bs) (λ err s', err = None ∧ is_Some s'.(self).(w))
    (λ _ _, False) s.
Proof.
  intros Hrel. revert s. induction bs as [|b bs IH]; intros s Hw; simpl.
  - by apply wp_ret.
  - apply wp_bind. eapply wp_mono; [| |by apply Fprintf_reliable]; [|done].
    intros err s1 [-> Hw1]. by apply IH.
Qed.

Lemma readLoop_reliable name (cs : list (list byte)) hash (s : proc W) :
  reliable W → is_Some s.(self).(w) →
  wp (readLoop name cs None hash)
    (λ r s', r = inl (fold_left adler32.update cs hash)
             ∧ is_Some s'.(self).(w))
    (λ _ _, False) s.
Proof.
  intros Hrel. revert hash s.
  induction cs as [|c cs IH]; intros hash s Hw; simpl.
  - apply wp_bind, wp_log. by apply wp_ret.
  - apply wp_bind, wp_log. apply wp_bind.
    eapply wp_mono; [| |by apply writeBytes_reliable]; [|done].
    intros err s1 [-> Hw1]. by apply IH.
Qed.

(** With a reliable writer, a source within the size bound that opens and
    reads to its end is encoded. *)
Lemma writeFile_reliable target name size (f0 : stream) (s : proc W) :
  reliable W → is_Some s.(self).(w) → size <= maxSize →
  f0.(ending) = None →
  wp (writeFile target name size (inr f0))
    (λ r _, r = (fmt.hex (adler32.Sum
                   (fold_left adler32.update f0.(chunks) adler32.New)), None))
    (λ _ _, False) s.
Proof.
  intros Hrel Hw Hsize Hend. unfold writeFile.
  apply wp_bind, wp_getSelf. destruct Hw as [wr Hw]. rewrite Hw.
  destruct (Z.ltb_spec maxSize size); [lia|].
  apply wp_bind, wp_log. apply wp_bind. apply wp_bind.
  eapply wp_mono; [| |apply Fprintf_reliable]; [|done|done|];
    [|simpl; by rewrite Hw].
  intros err s1 [-> Hw1]. apply wp_bind. rewrite Hend.
  eapply wp_mono; [| |by apply readLoop_reliable]; [|done].
  intros r s2 [-> Hw2]. apply wp_bind.
  eapply wp_mono; [| |by apply Fprintf_reliable]; [|done].
  intros err s3 [-> Hw3]. apply wp_ret. apply wp_bind, wp_log.
  by apply wp_ret.
Qed.

(** The digest of the chunks, rendered by [%x], is the hexadecimal
    rendering of the Adler-32 checksum of the whole byte sequence. *)
Lemma hex_of_chunks (cs : list (list byte)) :
  fmt.hex (adler32.Sum (fold_left adler32.update cs adler32.New))
  = hex32 (Adler32 (concat cs)).
Proof.
  rewrite <- Adler32_nil, update_chunks. simpl.
  apply hex_Sum, Adler32_bound.
Qed.

Lemma writeFile_returns_Adler32 target name size data (s s' : proc W) v :
  is_Some s.(self).(w) →
  writeFile target name size data s = Done (v, None) s' →
  ∃ f, data = inr f ∧ f.(ending) = None
       ∧ v = hex32 (Adler32 (concat f.(chunks))).
Proof.
  intros Hw Hrun.
  pose proof (wp_Done _ _ _ _ _ _
                (writeFile_version target name size data s Hw) Hrun) as Hv.
  cbn [fst snd] in Hv. destruct (Hv eq_refl) as (f0 & -> & Hend & ->).
  exists f0. by rewrite hex_of_chunks.
Qed.

Lemma buffer_reliable : reliable buffer.
Proof. intros wr text. reflexivity. Qed.

(** A write that does not fit ends the encoding with the error of the
    writer and no version. *)
Example writeFile_disk_full :
  ∃ s', writeFile "/docs/hello.txt" "testdata/hello.txt" 2 (inr hello_stream)
          {| self := {| mappings := []; pkgName := "vfs"; processed := ∅;
                        w := Some {| written := ""; room := 40 |} |};
             stdout := []; trace := [] |}
        = Done ("", Some (SysError "no space left on device")) s'
        ∧ s'.(trace) = [EvOpen "testdata/hello.txt";
                        EvClose "testdata/hello.txt"].
Proof. eexists. split; vm_compute; reflexivity. Qed.

End WriteFile.

(** ** The size bound *)

Section SizeBound.

Import Gen Spec.

Context {W : Type} `{Writer W}.

Lemma wp_exits {A} (m : M W A) E (s : proc W) :
  wp m (λ _ _, False) E s → ∃ c s', m s = Exit c s' ∧ E c s'.
Proof. unfold wp. destruct (m s); [done|eauto]. Qed.

(** With a writer, a regular file above the bound ends the run at once:
    it is announced, refused, and nothing is opened, written or
    registered. *)
Lemma walkFn_too_large targetDir root base p size data rel (s : proc W) :
  is_Some s.(self).(w) → maxSize < size →
  filepath.Rel root p = inl rel →
  s.(self).(processed) !! path.Join [targetDir; base; rel] = None →
  ∃ s', walkFn targetDir root base p (Regular size data) None s = Exit 1 s'
        ∧ s'.(self) = s.(self) ∧ s'.(trace) = s.(trace).
Proof.
  intros Hw Hsize Hrel Hfree.
  assert (wp (walkFn targetDir root base p (Regular size data) None)
            (λ _ _, False)
            (λ c s', c = 1 ∧ self s' = self s ∧ trace s' = trace s) s) as Hwp.
  { unfold walkFn. apply wp_bind, wp_handleError_None. rewrite Hrel.
    unfold filepath.ToSlash. apply wp_bind, wp_getSelf. rewrite Hfree.
    apply wp_bind, wp_Println. apply wp_bind.
    eapply wp_of_Done; [by apply writeFile_too_large|].
    apply wp_bind, wp_handleError_Some. done. }
  destruct (wp_exits _ _ _ Hwp) as (c & s' & Hrun & -> & Hself & Htrace).
  eauto.
Qed.

End SizeBound.

(** C5.  Where the encoder runs, that is with an output writer in place
    (a dry run skips it entirely), [writeFile] refuses a declared size
    above [maxSize = 2 ^ 31 - 1] before anything else: it returns the size
    error and leaves the process as it was, so the source was not opened
    or read and nothing was written; the walk then ends the run with exit
    code 1, the file unregistered.  A declared size of at most [maxSize]
    passes: the source is opened, and whatever error the call returns is
    not the size error. *)
Theorem writeFile_size_bound {W : Type} `{Gen.Writer W} (target name : string)
    (size : Z) (data : string + Gen.stream) (s : Gen.proc W) :
  is_Some s.(Gen.self).(Gen.w) →
  (Gen.maxSize < size →
     Gen.writeFile target name size data s
     = Gen.Done ("", Some Gen.MaxSizeExceeded) s)
  ∧ (size <= Gen.maxSize →
       ∃ r s', Gen.writeFile target name size data s = Gen.Done r s'
               ∧ r.2 ≠ Some Gen.MaxSizeExceeded
               ∧ (s.(Gen.trace) ++ [Gen.EvOpen name])
                   `prefix_of` s'.(Gen.trace))
  ∧ (∀ targetDir root base rel,
       Gen.maxSize < size → filepath.Rel root name = inl rel →
       s.(Gen.self).(Gen.processed) !! path.Join [targetDir; base; rel] = None →
       ∃ s', Gen.walkFn targetDir root base name (Gen.Regular size data) None s
             = Gen.Exit 1 s'
             ∧ s'.(Gen.self) = s.(Gen.self) ∧ s'.(Gen.trace) = s.(Gen.trace)).
Proof.
  intros Hw. split; [|split].
  - by apply writeFile_too_large.
  - intros Hsize.
    destruct (wp_returns _ _ _
                (writeFile_within_bound target name size data s Hw Hsize))
      as (r & s' & Hrun & Hr & Hopen & _).
    eauto.
  - intros targetDir root base rel Hsize Hrel Hfree.
    by eapply walkFn_too_large.
Qed.

Lemma writeFile_size_bound_witness :
  Gen.writeFile "/data/big" "big" 2147483648 (inr hello_stream)
    (start [] (Some ""))
  = Gen.Done ("", Some Gen.MaxSizeExceeded) (start [] (Some ""))
  ∧ ∃ r s', Gen.writeFile "/data/big" "big" 2147483647 (inr hello_stream)
              (start [] (Some "")) = Gen.Done r s'
            ∧ r.2 ≠ Some Gen.MaxSizeExceeded
            ∧ ([] ++ [Gen.EvOpen "big"]) `prefix_of` s'.(Gen.trace).
Proof.
  split.
  - apply (proj1 (writeFile_size_bound "/data/big" "big" 2147483648
                    (inr hello_stream) (start [] (Some ""))
                    ltac:(by eexists))).
    unfold Gen.maxSize. lia.
  - apply (proj1 (proj2 (writeFile_size_bound "/data/big" "big" 2147483647
                           (inr hello_stream) (start [] (Some ""))
                           ltac:(by eexists)))).
    unfold Gen.maxSize. lia.
Defined.

(** A dry run skips the encoder: with no writer, [writeFile] looks at
    nothing and returns no error, so the run of [Generate] on the mapping
    [big::/data], whose file is reported as [2 ^ 31] bytes, ends normally
    with the file registered under an empty version; the size bound is a
    property of the encoder where it runs, not of every call. *)
Lemma size_bound_not_checked_in_dry_run :
  Gen.writeFile "/data/big" "big" 2147483648 (inr hello_stream)
    (start [] None)
  = Gen.Done ("", None) (start [] None)
  ∧ (∃ s', Gen.Generate example_fs example_header
             (start [Gen.mkmapping ["big"] "/data" "big::/data"] None)
           = Gen.Done tt s'
           ∧ s'.(Gen.self).(Gen.processed) !! "/data/big"
             = Some {| Gen.path := "/data/big"; Gen.size := 2147483648;
                       Gen.version := "" |})
  ∧ ¬ (∀ (s : Gen.proc Gen.buffer) target name size data,
         Gen.maxSize < size →
         ∃ v s', Gen.writeFile target name size data s
                 = Gen.Done (v, Some Gen.MaxSizeExceeded) s').
Proof.
  split; [reflexivity|]. split.
  - eexists. split; [vm_compute; reflexivity|]. vm_compute. reflexivity.
  - intros Hall.
    destruct (Hall (start [] None) "/data/big" "big" 2147483648
                (inr hello_stream) ltac:(unfold Gen.maxSize; lia))
      as (v & s' & Hrun).
    vm_compute in Hrun. discriminate.
Qed.

(** ** The tree walk *)

Section WalkProperties.

Import Gen Spec.

Context {W : Type} `{Writer W}.

(** Induction on a node, with the entries of a directory. *)
Lemma node_induction (P : node → Prop) :
  (∀ size data, P (Regular size data)) →
  (∀ entries, Forall (λ e, P e.2) entries → P (Dir entries)) →
  (∀ e, P (DirUnreadable e)) →
  (∀ to, P to → P (Symlink to)) →
  P Special →
  (∀ e, P (NoEnt e)) →
  ∀ info, P info.
Proof.
  intros HReg HDir HUnr HSym HSpec HNo.
  fix IH 1. intros [size data|entries|e|to| |e].
  - apply HReg.
  - apply HDir. induction entries as [|[name child] es IHes].
    + constructor.
    + constructor; [apply IH|apply IHes].
  - apply HUnr.
  - apply HSym, IH.
  - apply HSpec.
  - apply HNo.
Qed.

Lemma walkEntries_cons (fn : string → node → option error → M W unit)
    p name child es :
  walkEntries fn p ((name, child) :: es)
  = (Walk fn (filepath.Join [p; name]) child ;; walkEntries fn p es).
Proof. reflexivity. Qed.

Lemma Walk_Dir (fn : string → node → option error → M W unit) p entries :
  Walk fn p (Dir entries) = (fn p (Dir entries) None ;; walkEntries fn p entries).
Proof. reflexivity. Qed.

(** A property [I] of the process that every call of the walk function
    keeps (with [X] holding when the process ends) is kept by the walk. *)
Lemma Walk_invariant (fn : string → node → option error → M W unit)
    (I : proc W → Prop) (X : Z → proc W → Prop) :
  (∀ p info err s, I s → wp (fn p info err) (λ _ s', I s') X s) →
  ∀ info p s, I s → wp (Walk fn p info) (λ _ s', I s') X s.
Proof.
  intros Hfn info. induction info as [size data|entries IH|e|to IH| |e]
    using node_induction; intros p s Hs; try (by apply Hfn).
  rewrite Walk_Dir. apply wp_bind.
  eapply wp_mono; [| |by apply Hfn]; [|done].
  intros ? s1 Hs1. clear Hs. revert s1 Hs1.
  induction IH as [|[name child] es Hchild _ IHes]; intros s1 Hs1.
  - by apply wp_ret.
  - rewrite walkEntries_cons. apply wp_bind. eapply wp_mono; [| |by apply Hchild]; [|done].
    intros ? s2 Hs2. by apply IHes.
Qed.

End WalkProperties.

(** ** Target paths are registered once *)

Section Uniqueness.

Import Gen Spec.

Context {W : Type} `{Writer W}.

Variable fs : string → node.
Variable header : string → string.

Lemma registry_ok_unique (s : proc W) : registry_ok s → registry_unique s.
Proof.
  intros Hok t [r Hr]. specialize (Hok t). by rewrite Hr in Hok.
Qed.

Lemma registry_ok_ext (s s' : proc W) :
  s'.(self).(processed) = s.(self).(processed) → s'.(stdout) = s.(stdout) →
  registry_ok s → registry_ok s'.
Proof. unfold registry_ok. by intros -> ->. Qed.

Lemma sourcesOf_app t out line :
  sourcesOf t (out ++ [line]) = sourcesOf t out ++ sourcesOf t [line].
Proof. unfold sourcesOf. by rewrite omap_app. Qed.

Lemma sourcesOf_announce t out p target :
  sourcesOf t (out ++ [[p; " -> "; target]])
  = sourcesOf t out ++ (if decide (t = target) then [p] else []).
Proof.
  rewrite sourcesOf_app. f_equal. unfold sourcesOf. simpl.
  destruct (decide (t = target)) as [->|Hne].
  - by rewrite decide_True.
  - rewrite decide_False; [done|]. intros [_ ->]. done.
Qed.

Lemma sourcesOf_quiet t out line :
  quiet line → sourcesOf t (out ++ [line]) = sourcesOf t out.
Proof.
  intros Hq. rewrite sourcesOf_app.
  destruct line as [|a [|b [|c [|d l]]]]; unfold quiet in Hq; simpl in *;
    try lia; by rewrite app_nil_r.
Qed.

Lemma registry_ok_quiet (s s' : proc W) line :
  quiet line →
  s'.(self).(processed) = s.(self).(processed) →
  s'.(stdout) = s.(stdout) ++ [line] →
  registry_ok s → registry_ok s'.
Proof.
  intros Hq Hp Ho Hok t. specialize (Hok t).
  by rewrite Hp, Ho, sourcesOf_quiet.
Qed.

Lemma registry_unique_quiet (s s' : proc W) line :
  quiet line →
  s'.(self).(processed) = s.(self).(processed) →
  s'.(stdout) = s.(stdout) ++ [line] →
  registry_unique s → registry_unique s'.
Proof.
  intros Hq Hp Ho Hok t. specialize (Hok t).
  by rewrite Hp, Ho, sourcesOf_quiet.
Qed.

(** [handleError] keeps the registry in order, also when it ends the
    process. *)
Lemma handleError_unique err msg (s : proc W) :
  registry_unique s →
  wp (handleError err msg) (λ _ s', s' = s) (λ _ s', registry_unique s') s.
Proof.
  intros Hok. destruct err as [e|].
  - apply wp_handleError_Some.
    apply (registry_unique_quiet
             {| self := self s; stdout := stdout s ++ [["Error: " +:+ msg]];
                trace := trace s |} _ [Error e]); [quiet_line|done|done|].
    by apply (registry_unique_quiet s _ ["Error: " +:+ msg]);
      [quiet_line|done|done|].
  - by apply wp_handleError_None.
Qed.

Lemma handleError_registry err msg (s : proc W) :
  registry_ok s →
  wp (handleError err msg) (λ _ s', s' = s) (λ _ s', registry_unique s') s.
Proof. intros Hok. by apply handleError_unique, registry_ok_unique. Qed.

(** [writeFile] returns, and leaves standard output and the registry as
    they were. *)
Lemma writeFile_frame target name size data (s : proc W) :
  wp (writeFile target name size data)
    (λ _ s', s'.(stdout) = s.(stdout)
             ∧ s'.(self).(processed) = s.(self).(processed))
    (λ _ _, False) s.
Proof.
  destruct (w (self s)) as [wr|] eqn:Hw.
  - destruct (decide (maxSize < size)) as [Hbig|Hok].
    + eapply wp_of_Done; [apply writeFile_too_large|]; by rewrite ?Hw.
    + eapply wp_mono; [| |apply writeFile_within_bound];
        [|done|by rewrite Hw|lia].
      intros r s' (_ & _ & _ & _ & Ho & Hp & _). done.
  - eapply wp_of_Done; [by apply writeFile_dry_run|done].
Qed.

Lemma walkFn_registry targetDir root base p info err (s : proc W) :
  registry_ok s →
  wp (walkFn targetDir root base p info err)
    (λ _ s', registry_ok s') (λ _ s', registry_unique s') s.
Proof.
  intros Hok. unfold walkFn. apply wp_bind.
  eapply wp_mono; [| |by apply handleError_registry]; [|done].
  intros ? ? ->. destruct info; try by apply wp_ret.
  destruct (filepath.Rel root p) as [rel|e].
  2: { eapply wp_mono; [| |by apply handleError_registry]; [|done].
       by intros ? ? ->. }
  unfold filepath.ToSlash. set (target := path.Join [targetDir; base; rel]).
  apply wp_bind, wp_getSelf.
  destruct (processed (self s) !! target) as [r0|] eqn:Hfree.
  { apply wp_errorExit.
    apply (registry_unique_quiet s _ ["Error: target already exists: "
                                      +:+ target]); [quiet_line|done|done|].
    by apply registry_ok_unique. }
  apply wp_bind, wp_Println. apply wp_bind.
  eapply wp_mono; [| |apply writeFile_frame]; [|done].
  intros r s2 [Hout Hproc]. simpl in Hout, Hproc.
  assert (∀ t, t ≠ target →
               sourcesOf t (stdout s2) = sourcesOf t (stdout s)) as Hother.
  { intros t Ht. rewrite Hout, sourcesOf_announce.
    rewrite decide_False by done. by rewrite app_nil_r. }
  assert (sourcesOf target (stdout s2) = [p]) as Htarget.
  { rewrite Hout, sourcesOf_announce, decide_True by done.
    pose proof (Hok target) as Ht. rewrite Hfree in Ht. by rewrite Ht. }
  assert (registry_unique s2) as Hs2.
  { intros t [r1 Hr1]. rewrite Hproc in Hr1.
    assert (t ≠ target) as Hne by (intros ->; congruence).
    rewrite Hother by done. pose proof (Hok t) as Ht. by rewrite Hr1 in Ht. }
  apply wp_bind.
  eapply wp_mono; [| |by apply handleError_unique]; [|done].
  intros ? ? ->. apply wp_bind, wp_getSelf.
  apply wp_setProcessed. intros t. simpl.
  destruct (decide (t = target)) as [->|Hne].
  - rewrite lookup_insert_eq. by exists p.
  - rewrite lookup_insert_ne by done. rewrite Hproc, Hother by done.
    apply Hok.
Qed.

Lemma walk_registry targetDir root (s : proc W) :
  registry_ok s →
  wp (walk fs targetDir root)
    (λ _ s', registry_ok s') (λ _ s', registry_unique s') s.
Proof.
  intros Hok. unfold walk.
  apply (Walk_invariant _ registry_ok (λ _ s', registry_unique s')); [|done].
  intros p info err s0 Hs0. by apply walkFn_registry.
Qed.

Lemma eachSource_registry targetDir srcs (s : proc W) :
  registry_ok s →
  wp (eachSource fs targetDir srcs)
    (λ _ s', registry_ok s') (λ _ s', registry_unique s') s.
Proof.
  revert s. induction srcs as [|x srcs IH]; intros s Hok; simpl.
  - by apply wp_ret.
  - apply wp_bind.
    assert (wp (Println
                  ["skip source, not a regular file or directory:"; x])
              (λ _ s', wp (eachSource fs targetDir srcs)
                         (λ _ s'0, registry_ok s'0)
                         (λ _ s'0, registry_unique s'0) s')
              (λ _ s', registry_unique s') s) as Hskip.
    { apply wp_Println. apply IH.
      by apply (registry_ok_quiet s _
                  ["skip source, not a regular file or directory:"; x]);
        [quiet_line|done|done|]. }
    assert (wp (walk fs targetDir x)
              (λ _ s', wp (eachSource fs targetDir srcs)
                         (λ _ s'0, registry_ok s'0)
                         (λ _ s'0, registry_unique s'0) s')
              (λ _ s', registry_unique s') s) as Hwalk.
    { eapply wp_mono; [| |by apply walk_registry]; [|done].
      intros ? s1 Hs1. by apply IH. }
    destruct (Stat (fs x)) as [size data|entries|e|to| |e];
      [exact Hwalk|exact Hwalk|exact Hwalk|exact Hskip|exact Hskip|].
    pose proof (handleError_registry (Some (SysError e))
                  ("stat error: " +:+ x) s Hok) as Hstat.
    apply wp_handleError_Some in Hstat. exact Hstat.
Qed.

Lemma eachMapping_registry ms (s : proc W) :
  registry_ok s →
  wp (eachMapping fs ms)
    (λ _ s', registry_ok s') (λ _ s', registry_unique s') s.
Proof.
  revert s. induction ms as [|m ms IH]; intros s Hok; simpl.
  - by apply wp_ret.
  - apply wp_bind.
    assert (∀ s1, registry_ok s1 →
              wp (eachSource fs (targetDir m) (src m) ;; eachMapping fs ms)
                (λ _ s', registry_ok s') (λ _ s', registry_unique s') s1)
      as Hrest.
    { intros s1 Hs1. apply wp_bind.
      eapply wp_mono; [| |by apply eachSource_registry]; [|done].
      intros ? s2 Hs2. by apply IH. }
    destruct (src m).
    + apply wp_Println. apply Hrest.
      by apply (registry_ok_quiet s _
                  ["skip mapping, no matches:"; pattern m]);
        [quiet_line|done|done|].
    + apply wp_ret. by apply Hrest.
Qed.

Lemma Fprintf_registry text (s : proc W) :
  registry_ok s →
  wp (Fprintf text) (λ _ s', registry_ok s') (λ _ s', registry_unique s') s.
Proof.
  intros Hok. apply wp_Fprintf. destruct (w (self s)).
  - by eapply registry_ok_ext.
  - by apply registry_ok_unique.
Qed.

Lemma Generate_registry (s : proc W) :
  s.(stdout) = [] →
  wp (Generate fs header)
    (λ _ s', registry_ok s') (λ _ s', registry_unique s') s.
Proof.
  intros Hout. unfold Generate. apply wp_bind, wp_setProcessed.
  match goal with |- wp _ _ _ ?s0 => assert (registry_ok s0) as Hok end.
  { intros t. simpl. by rewrite lookup_empty, Hout. }
  apply wp_bind.
  assert (∀ m (s1 : proc W), registry_ok s1 →
            m = writeHeader header ∨ m = writeFooter →
            wp m (λ err s', wp (handleError err "could not write")
                              (λ _ s'0, registry_ok s'0)
                              (λ _ s'0, registry_unique s'0) s')
              (λ _ s', registry_unique s') s1) as Hwrite.
  { intros m s1 Hs1 Hm.
    assert (∀ text, wp (Fprintf text)
              (λ err s', wp (handleError err "could not write")
                           (λ _ s'0, registry_ok s'0)
                           (λ _ s'0, registry_unique s'0) s')
              (λ _ s', registry_unique s') s1) as Hf.
    { intros text. eapply wp_mono; [| |by apply Fprintf_registry]; [|done].
      intros err s2 Hs2.
      eapply wp_mono; [| |by apply handleError_registry]; [|done].
      by intros ? ? ->. }
    destruct Hm as [-> | ->]; unfold writeHeader, writeFooter;
      apply wp_bind, wp_getSelf; (destruct (w (self s1)); [apply Hf|]);
      by apply wp_ret, wp_handleError_None. }
  eapply wp_mono; [| |apply Hwrite]; [| |done|by left]; [|done].
  intros err s1 Hs1. apply wp_bind.
  eapply wp_mono; [| |apply Hs1]; [|done].
  intros ? s2 Hs2. apply wp_bind, wp_getSelf. apply wp_bind.
  eapply wp_mono; [| |by apply eachMapping_registry]; [|done].
  intros ? s3 Hs3. apply wp_bind.
  eapply wp_mono; [| |apply Hwrite]; [| |done|by right]; [|done].
  intros err' s4 Hs4. apply Hs4.
Qed.

End Uniqueness.

(** C6.  When the walk reaches a regular file whose target path is
    already a key of the registry, the process ends with exit code 1
    there and then: whatever the size and the contents of the file and
    whatever was to follow ([rest]: the remaining files, mappings and the
    footer), the outcome is the exit, with the registry, the writer and
    the trace as they were and one error line printed.  Consequently, in
    every state in which a run of [Generate] ends, normally or not, each
    path of the registry was announced for exactly one source file. *)
Theorem collision_is_fatal {W : Type} `{Gen.Writer W} (fs : string → Gen.node)
    (header : string → string) :
  (∀ targetDir root base p size data rel (s : Gen.proc W) (B : Type)
     (rest : unit → Gen.M W B),
     filepath.Rel root p = inl rel →
     is_Some (s.(Gen.self).(Gen.processed)
                !! path.Join [targetDir; base; rel]) →
     (Gen.walkFn targetDir root base p (Gen.Regular size data) None ≫= rest) s
     = Gen.Exit 1
         {| Gen.self := s.(Gen.self);
            Gen.stdout :=
              s.(Gen.stdout)
              ++ [["Error: target already exists: "
                   +:+ path.Join [targetDir; base; rel]]];
            Gen.trace := s.(Gen.trace) |})
  ∧ (∀ (s s' : Gen.proc W) (c : Z),
       s.(Gen.stdout) = [] →
       Gen.Generate fs header s = Gen.Done tt s'
       ∨ Gen.Generate fs header s = Gen.Exit c s' →
       ∀ t, is_Some (s'.(Gen.self).(Gen.processed) !! t) →
            ∃ p, Spec.sourcesOf t s'.(Gen.stdout) = [p]).
Proof.
  split.
  - intros targetDir root base p size data rel s B rest Hrel [r Hr].
    unfold Gen.walkFn, mbind, Gen.M_bind, Gen.bind, Gen.handleError, Gen.ret,
      Gen.getSelf, filepath.ToSlash.
    rewrite Hrel. cbn beta iota. rewrite Hr. reflexivity.
  - intros s s' c Hout Hrun t Ht.
    pose proof (Generate_registry fs header s Hout) as Hwp.
    destruct Hrun as [Hrun|Hrun].
    + pose proof (wp_Done _ _ _ _ _ _ Hwp Hrun) as Hok. cbn beta in Hok.
      by apply (registry_ok_unique s').
    + pose proof (wp_Exit _ _ _ _ _ _ Hwp Hrun) as Hok. cbn beta in Hok.
      by apply Hok.
Qed.

Lemma collision_is_fatal_witness :
  ∃ s', colliding_run = Gen.Exit 1 s'
        ∧ s'.(Gen.trace)
          = [Gen.EvOpen "a/x.txt"; Gen.EvRead "a/x.txt"; Gen.EvRead "a/x.txt";
             Gen.EvClose "a/x.txt"]
        ∧ s'.(Gen.self).(Gen.processed) !! "/out/x.txt"
          = Some {| Gen.path := "/out/x.txt"; Gen.size := 2;
                    Gen.version := "013b00d2" |}
        ∧ ∃ p, Spec.sourcesOf "/out/x.txt" s'.(Gen.stdout) = [p].
Proof.
  eexists. split; [vm_compute; reflexivity|].
  split; [reflexivity|]. split; [vm_compute; reflexivity|].
  eapply (proj2 (collision_is_fatal example_fs example_header)
            colliding_start _ 1).
  - reflexivity.
  - right. vm_compute. reflexivity.
  - vm_compute. by eexists.
Defined.

(** ** Virtual paths of the walked files *)

Section Registration.

Import Gen Spec.

Context {W : Type} `{Writer W}.

Variables targetDir root base : string.

Lemma registered_mono q size (s s' : proc W) :
  s.(self).(processed) ⊆ s'.(self).(processed) →
  registered targetDir root base q size s → registered targetDir root base q size s'.
Proof.
  intros Hsub (rel & version & Hrel & Hreg). exists rel, version.
  split; [done|]. by eapply lookup_weaken.
Qed.

Lemma regularFiles_Dir p entries :
  regularFiles p (Dir entries) = regularFilesIn p entries.
Proof. reflexivity. Qed.

Lemma handleError_continues err msg (s : proc W) :
  wp (handleError err msg) (λ _ s', s' = s) (λ _ _, True) s.
Proof. by destruct err. Qed.

Lemma walkFn_registers p info err (s : proc W) :
  wp (walkFn targetDir root base p info err)
    (λ _ s', s.(self).(processed) ⊆ s'.(self).(processed)
             ∧ ∀ size data, info = Regular size data → registered targetDir root base p size s')
    (λ _ _, True) s.
Proof.
  unfold walkFn. apply wp_bind.
  eapply wp_mono; [| |apply handleError_continues]; [|done].
  intros ? ? ->. destruct info; try (by apply wp_ret).
  destruct (filepath.Rel root p) as [rel|e] eqn:Hrel; [|done].
  apply wp_bind, wp_getSelf.
  destruct (processed (self s) !! _) as [r0|] eqn:Hfree; [done|].
  apply wp_bind, wp_Println. apply wp_bind.
  eapply wp_mono; [| |apply writeFile_frame]; [|done].
  intros r s2 [Hout Hproc]. simpl in Hout, Hproc.
  apply wp_bind.
  eapply wp_mono; [| |apply handleError_continues]; [|done].
  intros ? ? ->. apply wp_bind, wp_getSelf. apply wp_setProcessed. simpl.
  rewrite Hproc. split.
  - by apply insert_subseteq.
  - intros sz dt [= <- <-]. exists rel, r.1. split; [done|].
    cbn [self processed]. by rewrite lookup_insert_eq.
Qed.

(** With a writer, a visit that returns has registered the file with the
    version of its bytes. *)
Lemma walkFn_version p size data (s : proc W) :
  is_Some s.(self).(w) →
  wp (walkFn targetDir root base p (Regular size data) None)
    (λ _ s', ∃ rel f,
       filepath.Rel root p = inl rel ∧ data = inr f ∧ f.(ending) = None
       ∧ s'.(self).(processed)
           !! path.Join [targetDir; base; filepath.ToSlash rel]
         = Some {| path := path.Join [targetDir; base; filepath.ToSlash rel];
                   size := size;
                   version := hex32 (Adler32 (concat f.(chunks))) |})
    (λ _ _, True) s.
Proof.
  intros Hw. unfold walkFn. apply wp_bind, wp_handleError_None.
  destruct (filepath.Rel root p) as [rel|e] eqn:Hrel; [|done].
  apply wp_bind, wp_getSelf.
  destruct (processed (self s) !! _) as [r0|] eqn:Hfree; [done|].
  apply wp_bind, wp_Println. apply wp_bind.
  eapply wp_mono;
    [| |apply wp_and; [apply writeFile_frame|by apply writeFile_version]];
    [|done].
  intros r s2 [[Hout Hproc] Hver]. simpl in Hout, Hproc.
  apply wp_bind. destruct r as [v [e|]]; [done|].
  apply wp_handleError_None. apply wp_bind, wp_getSelf.
  apply wp_setProcessed. cbn [self processed fst snd].
  destruct (Hver eq_refl) as (f0 & -> & Hend & Hv). cbn [fst] in Hv.
  exists rel, f0. repeat split; [done|].
  by rewrite lookup_insert_eq, Hv, hex_of_chunks.
Qed.

Lemma Walk_registers info :
  ∀ p (s : proc W),
    wp (Walk (walkFn targetDir root base) p info)
      (λ _ s', s.(self).(processed) ⊆ s'.(self).(processed)
               ∧ ∀ q sz, (q, sz) ∈ regularFiles p info → registered targetDir root base q sz s')
      (λ _ _, True) s.
Proof.
  induction info as [size data|entries IH|e|to IH| |e] using node_induction;
    intros p s;
    try (eapply wp_mono; [| |apply walkFn_registers]; [|done];
         intros ? s' [Hsub Hreg]; split; [done|];
         intros q sz Hq; simpl in Hq; by apply elem_of_nil in Hq).
  - eapply wp_mono; [| |apply walkFn_registers]; [|done].
    intros ? s' [Hsub Hreg]. split; [done|].
    intros q sz Hq. simpl in Hq. apply list_elem_of_singleton in Hq.
    injection Hq as -> ->. by eapply Hreg.
  - assert (∀ s1 : proc W,
              wp (walkEntries (walkFn targetDir root base) p entries)
                (λ _ s', s1.(self).(processed) ⊆ s'.(self).(processed)
                         ∧ ∀ q sz, (q, sz) ∈ regularFilesIn p entries →
                                   registered targetDir root base q sz s')
                (λ _ _, True) s1) as Hall.
    { induction IH as [|[name child] es Hchild _ IHes]; intros s1.
      - apply wp_ret. split; [done|]. intros q sz Hq.
        by apply elem_of_nil in Hq.
      - rewrite walkEntries_cons. apply wp_bind.
        eapply wp_mono; [| |apply Hchild]; [|done].
        intros ? s2 [Hsub2 Hreg2].
        eapply wp_mono; [| |apply IHes]; [|done].
        intros ? s3 [Hsub3 Hreg3]. split; [by etrans|].
        intros q sz Hq. simpl in Hq. apply elem_of_app in Hq as [Hq|Hq].
        + apply (registered_mono q sz s2); [done|by apply Hreg2].
        + by apply Hreg3. }
    rewrite Walk_Dir, regularFiles_Dir. apply wp_bind.
    eapply wp_mono; [| |apply walkFn_registers]; [|done].
    intros ? s1 [Hsub1 _].
    eapply wp_mono; [| |apply Hall]; [|done].
    intros ? s2 [Hsub2 Hreg2]. split; [by etrans|done].
Qed.

End Registration.

(** C7.  With a writer in place (not a dry run), the version [writeFile]
    returns without an error is the lowercase hexadecimal rendering (the
    eight digits of the four bytes) of the Adler-32 checksum of the bytes
    of the source, in the order the reads deliver them; it is the version
    the walk registers for the file; with a writer that accepts every
    write, a source within the size bound that opens and reads to its end
    does get that version; and two encodings of the same byte sequence,
    whatever the run, the writer and the cut into chunks, give the same
    version. *)
Theorem version_is_Adler32 {W : Type} `{Gen.Writer W} (target name : string)
    (size : Z) (data : string + Gen.stream) (s : Gen.proc W) :
  is_Some s.(Gen.self).(Gen.w) →
  (∀ v s', Gen.writeFile target name size data s = Gen.Done (v, None) s' →
     ∃ f, data = inr f ∧ f.(Gen.ending) = None
          ∧ v = Spec.hex32 (Spec.Adler32 (concat f.(Gen.chunks))))
  ∧ (∀ targetDir root base s',
       Gen.walkFn targetDir root base name (Gen.Regular size data) None s
       = Gen.Done tt s' →
       ∃ rel f,
         filepath.Rel root name = inl rel ∧ data = inr f
         ∧ s'.(Gen.self).(Gen.processed)
             !! path.Join [targetDir; base; filepath.ToSlash rel]
           = Some {| Gen.path :=
                       path.Join [targetDir; base; filepath.ToSlash rel];
                     Gen.size := size;
                     Gen.version :=
                       Spec.hex32 (Spec.Adler32 (concat f.(Gen.chunks))) |})
  ∧ (∀ f, Spec.reliable W → size <= Gen.maxSize → data = inr f →
       f.(Gen.ending) = None →
       ∃ s', Gen.writeFile target name size data s
             = Gen.Done (Spec.hex32 (Spec.Adler32 (concat f.(Gen.chunks))),
                         None) s')
  ∧ (∀ (W2 : Type) (H2 : Gen.Writer W2) target2 name2 size2 f1 f2
       (s2 : Gen.proc W2) v1 v2 s1' s2',
       data = inr f1 → concat f1.(Gen.chunks) = concat f2.(Gen.chunks) →
       is_Some s2.(Gen.self).(Gen.w) →
       Gen.writeFile target name size data s = Gen.Done (v1, None) s1' →
       Gen.writeFile target2 name2 size2 (inr f2) s2 = Gen.Done (v2, None) s2' →
       v1 = v2).
Proof.
  intros Hw. split; [|split; [|split]].
  - intros v s' Hrun. by eapply writeFile_returns_Adler32.
  - intros targetDir root base s' Hrun.
    pose proof (wp_Done _ _ _ _ _ _
                  (walkFn_version targetDir root base name size data s Hw)
                  Hrun) as (rel & f0 & Hrel & Hdata & _ & Hkey).
    by exists rel, f0.
  - intros f0 Hrel Hsize -> Hend.
    destruct (wp_returns _ _ _
                (writeFile_reliable target name size f0 s Hrel Hw Hsize Hend))
      as (r & s' & Hrun & ->).
    exists s'. by rewrite Hrun, hex_of_chunks.
  - intros W2 H2 target2 name2 size2 f1 f2 s2 v1 v2 s1' s2' -> Hsame Hw2
      Hrun1 Hrun2.
    destruct (writeFile_returns_Adler32 _ _ _ _ _ _ _ Hw Hrun1)
      as (g1 & [= <-] & _ & ->).
    destruct (writeFile_returns_Adler32 _ _ _ _ _ _ _ Hw2 Hrun2)
      as (g2 & [= <-] & _ & ->).
    by rewrite Hsame.
Qed.

Lemma version_is_Adler32_witness :
  ∃ s', Gen.writeFile "/docs/hello.txt" "testdata/hello.txt" 2
          (inr hello_stream) (start [] (Some ""))
        = Gen.Done ("013b00d2", None) s'.
Proof.
  apply (proj1 (proj2 (proj2
           (version_is_Adler32 "/docs/hello.txt" "testdata/hello.txt" 2
              (inr hello_stream) (start [] (Some "")) ltac:(by eexists))))
           hello_stream).
  - exact buffer_reliable.
  - unfold Gen.maxSize. lia.
  - reflexivity.
  - reflexivity.
Defined.

(** ** Lexical facts about the path functions *)

Section PathProperties.

Lemma append_assoc (a b c : string) : (a +:+ b) +:+ c = a +:+ (b +:+ c).
Proof.
  induction a as [|x a IH]; [done|].
  change (String x ((a +:+ b) +:+ c) = String x (a +:+ (b +:+ c))).
  by f_equal.
Qed.

Lemma split_on_nonnil (sep : ascii) (s : string) : split_on sep s ≠ [].
Proof.
  destruct s as [|c s]; simpl; [done|].
  destruct (Ascii.eqb c sep); [done|]. by destruct (split_on sep s).
Qed.

Lemma split_on_app (sep : ascii) (x y : string) :
  split_on sep (x +:+ String sep y) = split_on sep x ++ split_on sep y.
Proof.
  induction x as [|c x IH]; simpl.
  - by rewrite Ascii.eqb_refl.
  - destruct (Ascii.eqb c sep); [by rewrite IH|].
    rewrite IH. pose proof (split_on_nonnil sep x) as Hne.
    by destruct (split_on sep x).
Qed.

(** A trailing [.] element does not change the cleaned path. *)
Lemma Clean_dot (x : string) :
  x ≠ "" → path.Clean (x +:+ "/.") = path.Clean x.
Proof.
  intros Hx. destruct x as [|c x]; [done|].
  unfold path.Clean. change (String c x +:+ "/.") with (String c (x +:+ "/.")).
  change (String c (x +:+ "/.") =? "")%string with false.
  change (String c x =? "")%string with false. cbn iota.
  change (rooted (String c (x +:+ "/."))) with (rooted (String c x)).
  change (String c (x +:+ "/.")) with (String c x +:+ String "/" ".").
  rewrite split_on_app, fold_left_app. simpl fold_left at 1. done.
Qed.

Lemma Join_dot (t b : string) :
  b ≠ "" → path.Join [t; b; "."] = path.Join [t; b].
Proof.
  intros Hb. unfold path.Join. rewrite !filter_cons, !filter_nil.
  rewrite !(decide_True (P := b ≠ "")) by done.
  rewrite (decide_True (P := "." ≠ "")) by done.
  destruct (decide (t ≠ "")) as [Ht|Ht].
  - cbn [String.concat]. rewrite <- (Clean_dot (t +:+ "/" +:+ b)).
    + by rewrite !append_assoc.
    + destruct t; [done|discriminate].
  - cbn [String.concat]. by rewrite Clean_dot.
Qed.

Lemma strip_trailing_last (elems : list string) (e : string) :
  last (filepath.strip_trailing elems) = Some e → e ≠ "".
Proof.
  induction elems as [|x elems IH]; simpl; [done|].
  destruct (filepath.strip_trailing elems) as [|y rest] eqn:Hrest.
  - destruct (String.eqb_spec x ""); simpl; [done|]. by intros [= <-].
  - intros Hlast. apply IH. by rewrite <- Hlast.
Qed.

Lemma Base_nonempty (p : string) : filepath.Base p ≠ "".
Proof.
  unfold filepath.Base. destruct (String.eqb p ""); [done|].
  destruct (last _) as [e|] eqn:Hlast; [|done].
  by eapply strip_trailing_last.
Qed.

Lemma Rel_self (p : string) : filepath.Rel p p = inl ".".
Proof. unfold filepath.Rel. by rewrite String.eqb_refl. Qed.

End PathProperties.

(** C8.  When the walk of a matched source [root] under the target
    directory [targetDir] returns, every regular file it met is in the
    registry under the join of the target directory, the base name of
    the root and the file's path relative to the root, with its size; when
    the root is itself a regular file, the relative path is [.] and the
    key is the join of the target directory and the base name.  The
    mapping [assets::/static] with [assets/sub/file.txt] gives the one key
    [/static/assets/sub/file.txt], and [testdata/hello.txt::/docs] gives
    the one key [/docs/hello.txt]. *)
Theorem walk_registers_joined_paths :
  (∀ (W : Type) (HW : Gen.Writer W) (fs : string → Gen.node)
     (targetDir root : string) (s s' : Gen.proc W),
     Gen.walk fs targetDir root s = Gen.Done tt s' →
     (∀ p sz, (p, sz) ∈ Spec.regularFiles root (fs root) →
        ∃ rel version,
          filepath.Rel root p = inl rel
          ∧ s'.(Gen.self).(Gen.processed)
              !! path.Join [targetDir; filepath.Base root; filepath.ToSlash rel]
            = Some {| Gen.path :=
                        path.Join [targetDir; filepath.Base root;
                                   filepath.ToSlash rel];
                      Gen.size := sz; Gen.version := version |})
     ∧ (∀ sz data, fs root = Gen.Regular sz data →
          filepath.Rel root root = inl "."
          ∧ ∃ version,
              s'.(Gen.self).(Gen.processed)
                !! path.Join [targetDir; filepath.Base root]
              = Some {| Gen.path := path.Join [targetDir; filepath.Base root];
                        Gen.size := sz; Gen.version := version |}))
  ∧ (∃ s', Gen.Generate example_fs example_header
             (start [Gen.mkmapping ["assets"] "/static" "assets::/static"]
                (Some ""))
           = Gen.Done tt s'
           ∧ map_to_list s'.(Gen.self).(Gen.processed)
             = [("/static/assets/sub/file.txt",
                 {| Gen.path := "/static/assets/sub/file.txt"; Gen.size := 2;
                    Gen.version := "013b00d2" |})])
  ∧ (∃ s', Gen.Generate example_fs example_header
             (start [Gen.mkmapping ["testdata/hello.txt"] "/docs"
                       "testdata/hello.txt::/docs"] (Some ""))
           = Gen.Done tt s'
           ∧ map_to_list s'.(Gen.self).(Gen.processed)
             = [("/docs/hello.txt",
                 {| Gen.path := "/docs/hello.txt"; Gen.size := 2;
                    Gen.version := "013b00d2" |})]).
Proof.
  split; [|split].
  - intros W HW fs targetDir root s s' Hrun.
    pose proof (Walk_registers targetDir root (filepath.Base root)
                  (fs root) root s) as Hwp.
    pose proof (wp_Done _ _ _ _ _ _ Hwp Hrun) as [_ Hreg]. cbn beta in Hreg.
    split; [exact Hreg|].
    intros sz data Hroot. split; [apply Rel_self|].
    destruct (Hreg root sz) as (rel & version & Hrel & Hkey).
    { rewrite Hroot. simpl. by apply list_elem_of_singleton. }
    rewrite Rel_self in Hrel. injection Hrel as <-.
    unfold filepath.ToSlash in Hkey.
    rewrite Join_dot in Hkey by apply Base_nonempty. by exists version.
  - eexists. split; vm_compute; reflexivity.
  - eexists. split; vm_compute; reflexivity.
Qed.

Lemma walk_registers_joined_paths_witness :
  ∃ s' : Gen.proc Gen.buffer,
    Gen.walk example_fs "/static" "assets" (start [] None) = Gen.Done tt s'
    ∧ ∃ rel version,
        filepath.Rel "assets" "assets/sub/file.txt" = inl rel
        ∧ s'.(Gen.self).(Gen.processed)
            !! path.Join ["/static"; filepath.Base "assets";
                          filepath.ToSlash rel]
          = Some {| Gen.path :=
                      path.Join ["/static"; filepath.Base "assets";
                                 filepath.ToSlash rel];
                    Gen.size := 2; Gen.version := version |}.
Proof.
  eexists. split; [vm_compute; reflexivity|].
  refine (proj1 (proj1 walk_registers_joined_paths Gen.buffer _ example_fs
                   "/static" "assets" (start [] None) _ _)
            "assets/sub/file.txt" 2 _).
  - vm_compute. reflexivity.
  - vm_compute. by apply list_elem_of_singleton.
Defined.

(** ** Further properties of the run-time package *)

Section HandleProperties.

Import Vfs Spec.

Lemma step_same_entry (fd fd' : File) (o : op) :
  step fd o = Some fd' → fd'.(f) = fd.(f) ∧ fd'.(path) = fd.(path).
Proof.
  destruct o as [b|off whence]; simpl.
  - unfold Read. repeat case_match; intros; by simplify_eq.
  - unfold Seek. repeat case_match; intros; by simplify_eq.
Qed.

Lemma run_same_entry (ops : list op) (fd : File) (fds : list File) :
  run fd ops = Some fds →
  Forall (λ h, h.(f) = fd.(f) ∧ h.(path) = fd.(path)) fds.
Proof.
  revert fd fds. induction ops as [|o ops IH]; intros fd fds; simpl.
  - intros [= <-]. constructor.
  - destruct (step fd o) as [fd1|] eqn:Hstep; [|done]. simpl.
    destruct (run fd1 ops) as [rest|] eqn:Hrun; [|done]. simpl.
    intros [= <-]. destruct (step_same_entry _ _ _ Hstep) as [Hf Hp].
    constructor; [done|].
    eapply Forall_impl; [by apply IH|]. simpl. intros h [-> ->]. done.
Qed.

(** X1.  The accessors of a handle are fixed when it is opened: [Path]
    is the path given to [Open], [Version] the version asked for (when
    one was), and no sequence of [Read] and [Seek] calls changes [Path],
    [Version] or [Size]. *)
Theorem accessors_constant (store : gmap string file) (p v : string)
    (fd : File) (ops : list op) (fds : list File) :
  Open store p v = inl fd → run fd ops = Some fds →
  Path fd = p ∧ (v ≠ "" → Version fd = v)
  ∧ store !! p = Some fd.(f)
  ∧ Forall (λ h, Path h = p ∧ Version h = Version fd ∧ Size h = Size fd) fds.
Proof.
  intros Hopen Hrun.
  destruct (Open_handle store p v fd Hopen) as (Hp & Hpath & _ & Hv).
  unfold Path, Version, Size. repeat split; [done| |done|].
  - intros Hne. by destruct Hv.
  - eapply Forall_impl; [exact (run_same_entry ops fd fds Hrun)|]. simpl.
    intros h [-> ->]. done.
Qed.

Lemma accessors_constant_witness :
  Forall (λ h, Path h = "/docs/hello.txt" ∧ Version h = Version hello_fd
               ∧ Size h = Size hello_fd)
    [ (Seek hello_fd 1 SeekStart).1 ].
Proof.
  refine (proj2 (proj2 (proj2
            (accessors_constant hello_store "/docs/hello.txt" "013b00d2"
               hello_fd [OpSeek 1 SeekStart] _ _ _)))); reflexivity.
Defined.

Lemma Read_keeps_buffer_length (fd fd' : File) (b b' : list byte) n err :
  cursor_ok fd → entry_ok fd.(f) →
  Read fd b = Returns fd' (b', n, err) → length b' = length b.
Proof.
  intros Hcur Hlen Hread.
  destruct (Read_cases fd b Hcur Hlen) as [Hzero Hpos].
  unfold cursor_ok, Size, len in *.
  destruct (decide (Size fd - offset fd = 0)) as [Hz|Hnz].
  - rewrite (Hzero Hz) in Hread. by simplify_eq.
  - unfold Size, len in *. rewrite Hpos in Hread by lia. simplify_eq.
    rewrite length_app, length_take, !length_drop. lia.
Qed.

(** Reading to the end delivers what lies between the cursor and the end
    of the entry, in order, and leaves the cursor at the end. *)
Lemma readAll_from_cursor (fuel : nat) :
  ∀ (buf : list byte) (fd : File),
    cursor_ok fd → entry_ok fd.(f) → buf ≠ [] →
    (Z.to_nat (Size fd - fd.(offset)) < fuel)%nat →
    readAll fuel buf fd
    = Some (drop (Z.to_nat fd.(offset)) fd.(f).(contents), Some EOF,
            {| f := fd.(f); path := fd.(path); offset := Size fd |}).
Proof.
  induction fuel as [|fuel IH]; intros buf fd Hcur Hlen Hbuf Hfuel; [lia|].
  destruct (Read_cases fd buf Hcur Hlen) as [Hzero Hpos].
  unfold cursor_ok in Hcur. cbn [readAll].
  destruct (decide (Size fd - offset fd = 0)) as [Hz|Hnz].
  - rewrite (Hzero Hz). cbn. f_equal. f_equal; [f_equal|].
    + symmetry. apply drop_ge. unfold Size, len in *. lia.
    + destruct fd as [e q o]. unfold Size in *. simpl in *. f_equal. lia.
  - cbv zeta in Hpos. rewrite Hpos by lia.
    set (n := Z.min (Size fd - offset fd) (len buf)).
    assert (0 < len buf) as Hb.
    { unfold len. destruct buf; [done|]. simpl. lia. }
    assert (0 < n <= Size fd - offset fd ∧ n <= len buf) as Hn
      by (subst n; lia).
    set (src := drop (Z.to_nat (offset fd)) (contents (f fd))).
    assert (length (take (Z.to_nat n) src) = Z.to_nat n) as Htake.
    { subst src. rewrite length_take, length_drop.
      unfold Size, len in *. lia. }
    set (fd1 := {| f := f fd; path := path fd; offset := offset fd + n |}).
    rewrite (IH _ fd1).
    + subst fd1. unfold Size. cbn [f path offset].
      replace (take (Z.to_nat n) (take (Z.to_nat n) src ++ drop (Z.to_nat n) buf))
        with (take (Z.to_nat n) src) by (by rewrite take_app_length').
      replace (drop (Z.to_nat (offset fd + n)) (contents (f fd)))
        with (drop (Z.to_nat n) src).
      * by rewrite take_drop.
      * subst src. rewrite drop_drop. f_equal. lia.
    + unfold cursor_ok, Size, fd1 in *. simpl. lia.
    + done.
    + intros Hnil. apply (f_equal length) in Hnil.
      rewrite length_app, Htake, length_drop in Hnil. simpl in Hnil.
      unfold len in *. lia.
    + unfold Size, fd1 in *. simpl. lia.
Qed.

(** X2.  Reading a handle until [Read] reports an error, with any
    non-empty buffer, delivers exactly the bytes between the cursor and
    the end of the entry, ends with [io.EOF], and leaves the cursor at the
    end; as many reads as there are bytes left, and one more, suffice. *)
Theorem readAll_remaining (fuel : nat) (buf : list byte) (fd : File) :
  cursor_ok fd → entry_ok fd.(f) → buf ≠ [] →
  (Z.to_nat (Size fd - fd.(offset)) < fuel)%nat →
  readAll fuel buf fd
  = Some (drop (Z.to_nat fd.(offset)) fd.(f).(contents), Some EOF,
          {| f := fd.(f); path := fd.(path); offset := Size fd |}).
Proof. apply readAll_from_cursor. Qed.

Lemma readAll_remaining_witness :
  readAll 3 ["000"%byte] hello_fd
  = Some (["h"%byte; "i"%byte], Some EOF,
          {| f := hello_entry; path := "/docs/hello.txt"; offset := 2 |}).
Proof.
  apply (readAll_remaining 3 ["000"%byte] hello_fd).
  - unfold cursor_ok. vm_compute. split; discriminate.
  - unfold entry_ok. vm_compute. discriminate.
  - discriminate.
  - vm_compute. lia.
Defined.

Lemma Seek_rewind (fd : File) :
  Seek fd 0 SeekStart
  = ({| f := fd.(f); path := fd.(path); offset := 0 |}, (0, None)).
Proof.
  unfold Seek, SeekStart, maxSize. simpl.
  pose proof (len_nonneg (contents (f fd))).
  by destruct (Z.ltb_spec (len (contents (f fd))) 0); [lia|].
Qed.

(** X3.  A handle can always be rewound: [Seek(0, io.SeekStart)] succeeds
    in every state of the handle, and reading to the end afterwards
    delivers the whole contents of the entry. *)
Theorem rewind_and_reread (fuel : nat) (buf : list byte) (fd : File) :
  entry_ok fd.(f) → buf ≠ [] → (length fd.(f).(contents) < fuel)%nat →
  Seek fd 0 SeekStart
  = ({| f := fd.(f); path := fd.(path); offset := 0 |}, (0, None))
  ∧ readAll fuel buf (Seek fd 0 SeekStart).1
    = Some (fd.(f).(contents), Some EOF,
            {| f := fd.(f); path := fd.(path); offset := Size fd |}).
Proof.
  intros Hlen Hbuf Hfuel. split; [apply Seek_rewind|].
  rewrite Seek_rewind. cbn [fst].
  rewrite readAll_from_cursor; try done.
  - unfold cursor_ok, Size. simpl. pose proof (len_nonneg (contents (f fd))).
    lia.
  - unfold Size, len. simpl. lia.
Qed.

Lemma rewind_and_reread_witness :
  readAll 3 ["000"%byte; "000"%byte; "000"%byte]
    (Seek {| f := hello_entry; path := "/docs/hello.txt"; offset := 2 |}
       0 SeekStart).1
  = Some (["h"%byte; "i"%byte], Some EOF,
          {| f := hello_entry; path := "/docs/hello.txt"; offset := 2 |}).
Proof.
  refine (proj2 (rewind_and_reread 3 ["000"%byte; "000"%byte; "000"%byte]
                   {| f := hello_entry; path := "/docs/hello.txt";
                      offset := 2 |} _ _ _)).
  - unfold entry_ok. vm_compute. discriminate.
  - discriminate.
  - vm_compute. lia.
Defined.

(** X4.  Seeking from the end with a negative offset never succeeds: the
    target is [size - offset], which then lies beyond the end, so the call
    fails with the invalid-offset error and leaves the handle as it was. *)
Theorem Seek_from_end_negative (fd : File) (off : Z) :
  entry_ok fd.(f) → Int64.in_range off → off < 0 →
  ∃ c, Seek fd off SeekEnd = (fd, (0, Some (InvalidOffset c)))
       ∧ (c = Size fd - off ∨ c < 0).
Proof.
  unfold entry_ok, Int64.in_range. intros Hlen Hoff Hneg.
  pose proof (len_nonneg (contents (f fd))) as H0.
  assert (Int64.min <= len (contents (f fd)) - off <= Int64.max + 2 ^ 63)
    as Hend by (unfold Int64.min, Int64.max in *; lia).
  apply wrap_cases in Hend.
  exists (Int64.wrap (len (contents (f fd)) - off)).
  unfold Seek, Size, SeekStart, SeekEnd, SeekCurrent, maxSize.
  unfold Int64.min, Int64.max in *.
  destruct Hend as [Heq|[Hover Hwrap]].
  - rewrite Heq. split; [|by left]. bool_cases.
  - split; [|by right]. bool_cases.
Qed.

Lemma Seek_from_end_negative_witness :
  ∃ c, Seek hello_fd (-1) SeekEnd = (hello_fd, (0, Some (InvalidOffset c)))
       ∧ (c = Size hello_fd - (-1) ∨ c < 0).
Proof.
  apply (Seek_from_end_negative hello_fd (-1)).
  - unfold entry_ok. vm_compute. discriminate.
  - unfold Int64.in_range, Int64.min, Int64.max. lia.
  - lia.
Defined.

End HandleProperties.

(** ** The generated tests *)

Section GeneratedTests.

Import Vfs Spec Tests.

Variable store : gmap string file.
Variables (p v : string) (size : Z) (e : file).

Hypothesis Hstored : store !! p = Some e.
Hypothesis Hversion : e.(version) = v.
Hypothesis Hsize : len e.(contents) = size.
Hypothesis Hlen : entry_ok e.

Lemma test_Open :
  Open store p v = inl {| f := e; path := p; offset := 0 |}.
Proof.
  rewrite (Open_present store p v e Hstored).
  case_decide as Hd; [|done]. by destruct Hd.
Qed.

Lemma TestPath_passes : TestPath store p v = Pass.
Proof. unfold TestPath. rewrite test_Open. simpl. by case_bool_decide. Qed.

Lemma TestVersion_passes : TestVersion store p v = Pass.
Proof.
  unfold TestVersion. rewrite test_Open. unfold Version. simpl.
  by case_bool_decide.
Qed.

Lemma TestSize_passes : TestSize store p v size = Pass.
Proof.
  unfold TestSize. rewrite test_Open. unfold Size. simpl.
  by case_bool_decide.
Qed.

Lemma make_len (n : Z) : 0 <= n → len (make n) = n.
Proof. intros Hn. unfold len, make. rewrite length_replicate. lia. Qed.

Lemma TestReader_verdict :
  TestReader store p v size
  = if decide (size = 0) then Fatalf "unexpected error: EOF" else Pass.
Proof.
  pose proof (len_nonneg (contents e)) as H0.
  unfold TestReader. rewrite test_Open.
  set (fd := {| f := e; path := p; offset := 0 |}).
  assert (cursor_ok fd) as Hcur by (unfold cursor_ok, Size, fd; simpl; lia).
  destruct (Read_cases fd (make size) Hcur Hlen) as [Hzero Hpos].
  subst fd. unfold Size in Hzero, Hpos. simpl in Hzero, Hpos.
  rewrite Hsize, Z.sub_0_r in Hzero, Hpos.
  case_decide as Hz.
  - by rewrite (Hzero Hz).
  - rewrite Hpos by lia. cbv zeta.
    rewrite make_len by lia. rewrite Z.min_id.
    by case_bool_decide.
Qed.

Lemma TestSeeker_verdict :
  TestSeeker store p v size
  = if decide (size <= maxSize) then Pass
    else Fatalf ("unexpected error: " +:+ Error (InvalidOffset size)).
Proof.
  pose proof (len_nonneg (contents e)) as H0.
  unfold TestSeeker. rewrite test_Open.
  unfold Seek, SeekStart, SeekCurrent, SeekEnd. simpl.
  rewrite Z.sub_0_r, wrap_in_range, Hsize
    by (unfold entry_ok, Int64.in_range, Int64.min in *; lia).
  unfold maxSize in *. case_decide.
  - destruct (Z.ltb_spec size 0); [lia|].
    destruct (Z.ltb_spec size size); [lia|].
    destruct (Z.ltb_spec 2147483647 size); [lia|].
    simpl. by case_bool_decide.
  - destruct (Z.ltb_spec size 0); [lia|].
    destruct (Z.ltb_spec size size); [lia|].
    destruct (Z.ltb_spec 2147483647 size); [|lia]. done.
Qed.

End GeneratedTests.

(** X5.  Run against a store that holds the chosen file with the version
    and the size the tests were generated with, [TestPath], [TestVersion]
    and [TestSize] pass; [TestReader] passes exactly when the file is not
    empty (on an empty file the first [Read] is already [io.EOF]); and
    [TestSeeker] passes exactly when the size is at most [maxSize]. *)
Theorem generated_tests (store : gmap string Vfs.file) (p v : string)
    (size : Z) (e : Vfs.file) :
  store !! p = Some e → e.(Vfs.version) = v → len e.(Vfs.contents) = size →
  Spec.entry_ok e →
  Tests.TestPath store p v = Tests.Pass
  ∧ Tests.TestVersion store p v = Tests.Pass
  ∧ Tests.TestSize store p v size = Tests.Pass
  ∧ (Tests.TestReader store p v size = Tests.Pass ↔ size ≠ 0)
  ∧ (size = 0 →
     Tests.TestReader store p v size = Tests.Fatalf "unexpected error: EOF")
  ∧ (Tests.TestSeeker store p v size = Tests.Pass ↔ size <= Vfs.maxSize).
Proof.
  intros Hp Hv Hs Hl.
  split; [by eapply TestPath_passes|].
  split; [by eapply TestVersion_passes|].
  split; [by eapply TestSize_passes|].
  rewrite (TestReader_verdict store p v size e Hp Hv Hs Hl).
  rewrite (TestSeeker_verdict store p v size e Hp Hv Hs Hl).
  repeat split; repeat case_decide; try done; intros; simplify_eq.
Qed.

Lemma generated_tests_witness :
  Tests.TestReader hello_store "/docs/hello.txt" "013b00d2" 2 = Tests.Pass
  ↔ 2 ≠ 0.
Proof.
  refine (proj1 (proj2 (proj2 (proj2
            (generated_tests hello_store "/docs/hello.txt" "013b00d2" 2
               hello_entry _ _ _ _))))).
  - reflexivity.
  - reflexivity.
  - reflexivity.
  - unfold Spec.entry_ok. vm_compute. discriminate.
Defined.

(** ** The text [writeFile] writes *)

Section BufferWriter.

Import Gen Spec.

Lemma append_nil_r (a : string) : a +:+ "" = a.
Proof.
  induction a as [|x a IH]; [done|].
  change (String x (a +:+ "") = String x a). by f_equal.
Qed.

Lemma append_cancel (a b c : string) : a +:+ b = a +:+ c → b = c.
Proof.
  induction a as [|x a IH]; [done|].
  change (String x (a +:+ b) = String x (a +:+ c) → b = c).
  intros [= Heq]. by apply IH.
Qed.

Lemma byteTable_app (bs cs : list byte) :
  byteTable (bs ++ cs) = byteTable bs +:+ byteTable cs.
Proof.
  induction bs as [|b bs IH]; [done|].
  simpl. rewrite IH. by rewrite !append_assoc.
Qed.

Lemma emitted_emitted {W} (s : proc W) wr wr' evs evs' :
  emitted (emitted s wr evs) wr' evs' = emitted s wr' (evs ++ evs').
Proof. unfold emitted. simpl. by rewrite app_assoc. Qed.

Lemma Fprintf_buffer (text : string) (s : proc buffer) (out : buffer) :
  s.(self).(w) = Some out →
  Fprintf text s = Done None (emitted s (out +:+ text) []).
Proof.
  intros Hw. unfold Fprintf, emitted. rewrite Hw. simpl.
  by rewrite app_nil_r.
Qed.

Lemma writeBytes_buffer (bs : list byte) (s : proc buffer) (out : buffer) :
  s.(self).(w) = Some out →
  writeBytes bs s = Done None (emitted s (out +:+ byteTable bs) []).
Proof.
  revert s out. induction bs as [|b bs IH]; intros s out Hw.
  - simpl. rewrite append_nil_r. unfold emitted. rewrite <- Hw, app_nil_r.
    by destruct s as [[] ? ?].
  - cbn [writeBytes]. unfold mbind, M_bind, bind.
    rewrite (Fprintf_buffer _ s out Hw).
    rewrite (IH _ (out +:+ (fmt.dec b +:+ ", "))) by done.
    rewrite emitted_emitted. simpl. by rewrite !append_assoc.
Qed.

Lemma readLoop_buffer name (cs : list (list byte)) hash (s : proc buffer)
    (out : buffer) :
  s.(self).(w) = Some out →
  readLoop name cs None hash s
  = Done (inl (fold_left adler32.update cs hash))
      (emitted s (out +:+ byteTable (concat cs))
         (replicate (S (length cs)) (EvRead name))).
Proof.
  revert hash s out. induction cs as [|c cs IH]; intros hash s out Hw.
  - simpl. unfold mbind, M_bind, bind, log, emitted. simpl.
    rewrite append_nil_r, <- Hw. by destruct s as [[] ? ?].
  - cbn [readLoop]. unfold mbind, M_bind, bind. cbn [log].
    rewrite (writeBytes_buffer c _ out) by done.
    rewrite (IH _ _ (out +:+ byteTable c)) by done.
    unfold emitted. simpl. rewrite byteTable_app, append_assoc.
    by rewrite app_nil_r, <- !app_assoc.
Qed.

Lemma writeFile_buffer (e : entry) (s : proc buffer) (out : buffer) :
  s.(self).(w) = Some out → e.(declared) <= maxSize →
  writeFile e.(target) e.(source) e.(declared)
    (inr {| chunks := e.(parts); ending := None |}) s
  = Done (versionOf e, None)
      (emitted s (out +:+ entryText e) (entryEvents e)).
Proof.
  intros Hw Hsize. unfold writeFile, mbind, M_bind, bind, getSelf.
  rewrite Hw. destruct (Z.ltb_spec maxSize (declared e)); [lia|].
  cbn [log]. erewrite Fprintf_buffer by (simpl; exact Hw).
  cbn [chunks ending]. erewrite readLoop_buffer by reflexivity.
  erewrite Fprintf_buffer by reflexivity.
  unfold versionOf, bytes. rewrite hex_of_chunks.
  unfold emitted, entryText, entryEvents, versionOf, bytes, ret. simpl.
  rewrite !app_nil_r, <- !app_assoc. simpl.
  by rewrite !append_assoc.
Qed.

End BufferWriter.

Section ByteTable.

Import Gen Spec.

Lemma literalBytes_dec (b : byte) (rest : string) :
  literalBytes 0 (fmt.dec b +:+ ", " +:+ rest) = b :: literalBytes 0 rest.
Proof. destruct b; reflexivity. Qed.

Lemma literalBytes_table (bs : list byte) :
  literalBytes 0 (byteTable bs) = bs.
Proof.
  induction bs as [|b bs IH]; [done|].
  simpl. by rewrite literalBytes_dec, IH.
Qed.

End ByteTable.

(** ** The artifact of a run *)

Section Embedding.

Import Gen Spec.

Lemma textOf_app (es1 es2 : list entry) :
  textOf (es1 ++ es2) = textOf es1 +:+ textOf es2.
Proof.
  induction es1 as [|e es1 IH]; [done|].
  simpl. by rewrite IH, append_assoc.
Qed.

Lemma eventsOf_app (es1 es2 : list entry) :
  eventsOf (es1 ++ es2) = eventsOf es1 ++ eventsOf es2.
Proof. unfold eventsOf. by rewrite map_app, concat_app. Qed.

Lemma register_app m (es1 es2 : list entry) :
  register m (es1 ++ es2) = register (register m es1) es2.
Proof. unfold register. by rewrite foldl_app. Qed.

Lemma register_lookup_None (es : list entry) :
  ∀ m t, register m es !! t = None
         ↔ m !! t = None ∧ t ∉ map target es.
Proof.
  induction es as [|e es IH]; intros m t; simpl.
  - split; [|by intros []]. intros Hm. split; [done|]. apply not_elem_of_nil.
  - rewrite IH, not_elem_of_cons, lookup_insert_None.
    split; [intros [[Hm Hne] Hnot]|intros [Hm [Hne Hnot]]]; repeat split;
      try done; by apply not_eq_sym.
Qed.

Lemma register_lookup_fresh (es : list entry) :
  ∀ m (e : entry),
    e ∈ es → NoDup (map target es) →
    register m es !! e.(target) = Some (entryFile e).
Proof.
  induction es as [|e0 es IH]; intros m e Hin Hnd; simpl.
  - by apply elem_of_nil in Hin.
  - simpl in Hnd. apply NoDup_cons in Hnd as [Hnew Hnd].
    apply elem_of_cons in Hin as [->|Hin].
    + destruct (register (<[target e0:=entryFile e0]> m) es !! target e0)
        as [r|] eqn:Hr.
      * clear IH. revert m r Hr. induction es as [|e1 es IHes]; intros m r Hr.
        -- simpl in Hr. by rewrite lookup_insert_eq in Hr.
        -- simpl in Hnew. apply not_elem_of_cons in Hnew as [Hne Hnew].
           apply NoDup_cons in Hnd as [_ Hnd]. simpl in Hr.
           rewrite insert_insert_ne in Hr by done.
           by eapply IHes.
      * apply register_lookup_None in Hr as [Hr _].
        by rewrite lookup_insert_eq in Hr.
    + by apply IH.
Qed.

Lemma embeds_nil (s s' : proc buffer) (out : buffer) :
  s.(self).(w) = Some out → s'.(self) = s.(self) → s'.(trace) = s.(trace) →
  embeds s [] s'.
Proof.
  intros Hw Hself Htrace. unfold embeds. rewrite Hself, Htrace. simpl.
  repeat split; try done.
  - exists out. by rewrite append_nil_r.
  - by rewrite app_nil_r.
  - constructor.
Qed.

Lemma embeds_writer (s s' : proc buffer) es :
  embeds s es s' → is_Some s'.(self).(w).
Proof. intros [(out & _ & Hw) _]. by rewrite Hw. Qed.

Lemma embeds_trans (s1 s2 s3 : proc buffer) (es1 es2 : list entry) :
  embeds s1 es1 s2 → embeds s2 es2 s3 → embeds s1 (es1 ++ es2) s3.
Proof.
  intros ((out & Hw1 & Hw2) & Ht1 & Hp1 & Hm1 & Hn1 & Hd1 & Hf1)
         ((out' & Hw2' & Hw3) & Ht2 & Hp2 & Hm2 & Hn2 & Hd2 & Hf2).
  rewrite Hw2 in Hw2'. injection Hw2' as <-.
  assert (∀ e, e ∈ es2 → processed (self s1) !! target e = None
                         ∧ target e ∉ map target es1) as Hnew.
  { intros e He. rewrite Forall_forall in Hf2.
    specialize (Hf2 e He). rewrite Hp1 in Hf2.
    by apply register_lookup_None in Hf2. }
  repeat split.
  - exists out. split; [done|]. by rewrite Hw3, textOf_app, append_assoc.
  - by rewrite Ht2, Ht1, eventsOf_app, app_assoc.
  - by rewrite Hp2, Hp1, register_app.
  - congruence.
  - congruence.
  - rewrite map_app. apply NoDup_app. split; [done|]. split; [|done].
    intros t Ht1' Ht2'. apply list_elem_of_fmap in Ht2' as (e & -> & He).
    by apply (Hnew e He).
  - apply Forall_app. split; [done|]. apply Forall_forall.
    intros e He. by apply Hnew.
Qed.

(** The process with standard output replaced: embedding does not look
    at it. *)
Lemma embeds_stdout (s s' : proc buffer) es out :
  embeds s es s' →
  embeds {| self := self s; stdout := out; trace := trace s |} es s'.
Proof. done. Qed.

Section Walk.

Variables targetDir root base : string.

Lemma walkFn_embeds_regular p size data err (s : proc buffer) :
  is_Some s.(self).(w) →
  wp (walkFn targetDir root base p (Regular size data) err)
    (λ _ s', ∃ e, planned targetDir root base (p, (size, data)) = Some e
                  ∧ embeds s [e] s')
    (λ _ _, True) s.
Proof.
  intros [out Hw]. unfold walkFn. apply wp_bind.
  destruct err as [err|]; [done|]. apply wp_handleError_None.
  unfold planned. cbn [fst snd].
  destruct (filepath.Rel root p) as [rel|msg]; [|done].
  set (t := path.Join [targetDir; base; filepath.ToSlash rel]).
  apply wp_bind, wp_getSelf.
  destruct (processed (self s) !! t) as [r0|] eqn:Hfree; [done|].
  apply wp_bind, wp_Println. apply wp_bind.
  set (s1 := {| self := self s; stdout := stdout s ++ [[p; " -> "; t]];
                trace := trace s |}).
  assert (∀ r s2, r.2 ≠ None →
            wp (handleError r.2 ("could not write: " +:+ t) ;;
                v ← getSelf;
                setProcessed
                  (<[t:={| path := t; size := size; version := r.1 |}]>
                     (processed v)))
              (λ (_ : ()) (s' : proc buffer),
                 ∃ e : entry,
                   match data with
                   | inl _ => None
                   | inr f =>
                       if bool_decide (ending f = None ∧ size ≤ maxSize)
                       then Some {| source := p; target := t;
                                    declared := size; parts := chunks f |}
                       else None
                   end = Some e ∧ embeds s [e] s')
              (λ _ _, True) s2) as Hfail.
  { intros [v [e|]] s2 Hr; [|done]. apply wp_bind. done. }
  destruct (decide (maxSize < size)) as [Hbig|Hsize].
  { eapply wp_of_Done;
      [apply writeFile_too_large; [by exists out|done]|].
    by apply Hfail. }
  destruct data as [msg|[cs [msg|]]].
  - eapply wp_mono; [| |apply (writeFile_version t p size (inl msg) s1)];
      [|done|by exists out].
    intros r s2 Hr. apply Hfail. intros Hnone.
    by destruct (Hr Hnone) as (f0 & ? & _).
  - eapply wp_mono;
      [| |apply (writeFile_version t p size
                   (inr {| chunks := cs; ending := Some msg |}) s1)];
      [|done|by exists out].
    intros r s2 Hr. apply Hfail. intros Hnone.
    destruct (Hr Hnone) as (f0 & [= <-] & Hend & _). done.
  - rewrite bool_decide_true by (split; [done|lia]).
    set (e := {| source := p; target := t; declared := size; parts := cs |}).
    eapply wp_of_Done.
    { apply (writeFile_buffer e s1 out); [done|simpl; lia]. }
    apply wp_bind, wp_handleError_None. apply wp_bind, wp_getSelf.
    apply wp_setProcessed. exists e. split; [done|].
    unfold embeds, emitted, eventsOf. subst s1. simpl.
    rewrite !app_nil_r, append_nil_r.
    repeat split; try done.
    + by exists out.
    + apply NoDup_singleton.
    + by constructor.
Qed.

Lemma walkFn_other p info err (s : proc buffer) :
  (∀ size data, info ≠ Regular size data) →
  wp (walkFn targetDir root base p info err) (λ _ s', s' = s) (λ _ _, True) s.
Proof.
  intros Hinfo. unfold walkFn. apply wp_bind.
  destruct err as [err|]; [done|]. apply wp_handleError_None.
  destruct info as [sz dt| | | | |]; try done. by destruct (Hinfo sz dt).
Qed.

Lemma regularData_Dir p entries :
  regularData p (Dir entries) = regularDataIn p entries.
Proof. reflexivity. Qed.

Lemma Walk_embeds info :
  ∀ p (s : proc buffer),
    is_Some s.(self).(w) →
    wp (Walk (walkFn targetDir root base) p info)
      (λ _ s', ∃ es,
         map (planned targetDir root base) (regularData p info)
         = map Some es
         ∧ embeds s es s')
      (λ _ _, True) s.
Proof.
  induction info as [size data|entries IH|e|to IH| |e] using node_induction;
    intros p s Hw;
    try (eapply wp_mono; [| |by apply walkFn_other]; [|done];
         intros ? s' ->; exists []; split; [done|];
         destruct Hw as [out Hw]; by apply (embeds_nil _ _ out)).
  - eapply wp_mono; [| |by apply walkFn_embeds_regular]; [|done].
    intros ? s' (e & He & Hs'). exists [e]. simpl. by rewrite He.
  - assert (∀ s1 : proc buffer,
              is_Some s1.(self).(w) →
              wp (walkEntries (walkFn targetDir root base) p entries)
                (λ _ s', ∃ es,
                   map (planned targetDir root base) (regularDataIn p entries)
                   = map Some es
                   ∧ embeds s1 es s')
                (λ _ _, True) s1) as Hall.
    { induction IH as [|[name child] es Hchild _ IHes]; intros s1 Hw1.
      - apply wp_ret. exists []. split; [done|].
        destruct Hw1 as [out Hw1]. by apply (embeds_nil _ _ out).
      - rewrite walkEntries_cons. apply wp_bind.
        eapply wp_mono; [| |by apply Hchild]; [|done].
        intros ? s2 (es1 & Hplan1 & Hs2).
        eapply wp_mono; [| |apply IHes]; [|done|by eapply embeds_writer].
        intros ? s3 (es2 & Hplan2 & Hs3). exists (es1 ++ es2). split.
        + change (regularDataIn p ((name, child) :: es))
            with (regularData (filepath.Join [p; name]) child
                  ++ regularDataIn p es).
          cbn [snd] in Hplan1. by rewrite !map_app, Hplan1, Hplan2.
        + by eapply embeds_trans. }
    rewrite Walk_Dir, regularData_Dir. apply wp_bind.
    eapply wp_mono; [| |by apply walkFn_other]; [|done].
    intros ? s1 ->. by apply Hall.
Qed.

End Walk.

Variable fs : string → node.
Variable header : string → string.

Lemma planOfSources_cons targetDir x srcs :
  planOfSources fs targetDir (x :: srcs)
  = map (planned targetDir x (filepath.Base x)) (sourceData fs x)
    ++ planOfSources fs targetDir srcs.
Proof. reflexivity. Qed.

Lemma eachSource_embeds targetDir srcs :
  ∀ s : proc buffer,
    is_Some s.(self).(w) →
    wp (eachSource fs targetDir srcs)
      (λ _ s', ∃ es, planOfSources fs targetDir srcs = map Some es
                     ∧ embeds s es s')
      (λ _ _, True) s.
Proof.
  induction srcs as [|x srcs IH]; intros s Hw.
  - apply wp_ret. exists []. split; [done|].
    destruct Hw as [out Hw]. by apply (embeds_nil _ _ out).
  - cbn [eachSource]. rewrite planOfSources_cons. apply wp_bind.
    assert (∀ es1 s1,
              map (planned targetDir x (filepath.Base x)) (sourceData fs x)
              = map Some es1 →
              embeds s es1 s1 →
              wp (eachSource fs targetDir srcs)
                (λ _ s', ∃ es,
                   map (planned targetDir x (filepath.Base x))
                     (sourceData fs x) ++ planOfSources fs targetDir srcs
                   = map Some es ∧ embeds s es s')
                (λ _ _, True) s1) as Hrest.
    { intros es1 s1 Hplan1 Hs1.
      eapply wp_mono; [| |apply IH]; [|done|by eapply embeds_writer].
      intros ? s2 (es2 & Hplan2 & Hs2). exists (es1 ++ es2). split.
      - by rewrite map_app, Hplan1, Hplan2.
      - by eapply embeds_trans. }
    assert (Stat (fs x) = Stat (fs x) →
            wp (walk fs targetDir x)
              (λ _ s1, ∃ es1,
                 map (planned targetDir x (filepath.Base x))
                   (regularData x (fs x)) = map Some es1
                 ∧ embeds s es1 s1)
              (λ _ _, True) s) as Hwalk.
    { intros _. unfold walk. by apply Walk_embeds. }
    unfold sourceData in *.
    destruct (Stat (fs x)) as [size data|entries|e|to| |e].
    + eapply wp_mono; [| |by apply Hwalk]; [|done].
      intros ? s1 (es1 & Hplan1 & Hs1). by eapply Hrest.
    + eapply wp_mono; [| |by apply Hwalk]; [|done].
      intros ? s1 (es1 & Hplan1 & Hs1). by eapply Hrest.
    + eapply wp_mono; [| |by apply Hwalk]; [|done].
      intros ? s1 (es1 & Hplan1 & Hs1). by eapply Hrest.
    + apply wp_Println. apply (Hrest []); [done|].
      destruct Hw as [out Hw]. by apply (embeds_nil _ _ out).
    + apply wp_Println. apply (Hrest []); [done|].
      destruct Hw as [out Hw]. by apply (embeds_nil _ _ out).
    + done.
Qed.

Lemma planOf_cons m ms :
  planOf fs (m :: ms)
  = planOfSources fs m.(targetDir) m.(src) ++ planOf fs ms.
Proof. reflexivity. Qed.

Lemma eachMapping_embeds ms :
  ∀ s : proc buffer,
    is_Some s.(self).(w) →
    wp (eachMapping fs ms)
      (λ _ s', ∃ es, planOf fs ms = map Some es ∧ embeds s es s')
      (λ _ _, True) s.
Proof.
  induction ms as [|m ms IH]; intros s Hw.
  - apply wp_ret. exists []. split; [done|].
    destruct Hw as [out Hw]. by apply (embeds_nil _ _ out).
  - cbn [eachMapping]. rewrite planOf_cons. apply wp_bind.
    assert (∀ s0 : proc buffer,
              self s0 = self s → trace s0 = trace s →
              wp (eachSource fs (targetDir m) (src m) ;; eachMapping fs ms)
                (λ _ s', ∃ es,
                   planOfSources fs (targetDir m) (src m) ++ planOf fs ms
                   = map Some es ∧ embeds s es s')
                (λ _ _, True) s0) as Hrest.
    { intros s0 Hself Htrace. apply wp_bind.
      eapply wp_mono; [| |apply eachSource_embeds]; [|done|by rewrite Hself].
      intros ? s1 (es1 & Hplan1 & Hs1).
      eapply wp_mono; [| |apply IH]; [|done|by eapply embeds_writer].
      intros ? s2 (es2 & Hplan2 & Hs2). exists (es1 ++ es2). split.
      - by rewrite map_app, Hplan1, Hplan2.
      - eapply embeds_trans; [|done].
        unfold embeds in *. by rewrite <- Hself, <- Htrace. }
    destruct (src m) eqn:Hsrc.
    + apply wp_Println. by apply Hrest.
    + apply wp_ret. by apply Hrest.
Qed.

Lemma Generate_embeds (s : proc buffer) (out : buffer) :
  s.(self).(w) = Some out →
  wp (Generate fs header)
    (λ _ s', ∃ es,
       planOf fs s.(self).(mappings) = map Some es
       ∧ NoDup (map target es)
       ∧ s'.(self).(w)
         = Some (out +:+ header s.(self).(pkgName) +:+ textOf es
                 +:+ "}" +:+ nl)
       ∧ s'.(trace) = s.(trace) ++ eventsOf es
       ∧ s'.(self).(processed) = register ∅ es
       ∧ s'.(self).(mappings) = s.(self).(mappings)
       ∧ s'.(self).(pkgName) = s.(self).(pkgName))
    (λ _ _, True) s.
Proof.
  intros Hw. unfold buffer in *.
  unfold Generate. apply wp_bind, wp_setProcessed.
  apply wp_bind. unfold writeHeader. apply wp_bind, wp_getSelf.
  simpl. rewrite Hw.
  eapply wp_of_Done; [by apply (Fprintf_buffer _ _ out)|].
  apply wp_bind, wp_handleError_None. apply wp_bind, wp_getSelf.
  apply wp_bind.
  eapply wp_mono; [| |apply eachMapping_embeds]; [|done|by eexists].
  intros ? s1 (es & Hplan & (out1 & Hw0 & Hw1) & Ht & Hp & Hm & Hn & Hd & _).
  simpl in Hw0, Ht, Hp, Hm, Hn, Hplan. injection Hw0 as <-.
  rewrite app_nil_r in Ht.
  apply wp_bind. unfold writeFooter. apply wp_bind, wp_getSelf.
  unfold buffer in *. rewrite Hw1.
  eapply wp_of_Done; [by apply (Fprintf_buffer _ _ _ Hw1)|].
  apply wp_handleError_None. exists es. simpl.
  rewrite app_nil_r, !append_assoc. done.
Qed.

End Embedding.

(** ** Invariants of a run *)

Section Invariants.

Import Gen Spec.

Context {W : Type} `{Writer W}.

Lemma rooted_app (a b : string) : rooted a = true → rooted (a +:+ b) = true.
Proof. by destruct a. Qed.

Lemma Clean_rooted (p : string) : rooted p = true → rooted (path.Clean p) = true.
Proof.
  intros Hp. unfold path.Clean. destruct p as [|c p]; [done|].
  change (String c p =? "")%string with false. cbn iota. by rewrite Hp.
Qed.

Lemma Join_rooted (t : string) (rest : list string) :
  rooted t = true → rooted (path.Join (t :: rest)) = true.
Proof.
  intros Ht. unfold path.Join. rewrite filter_cons.
  assert (t ≠ "") as Hne by (by destruct t).
  rewrite decide_True by done.
  apply Clean_rooted.
  destruct (filter (λ e : string, e ≠ "") rest) as [|x xs]; [done|].
  cbn [String.concat]. by apply rooted_app.
Qed.

Lemma hex32_length (c : Z) : String.length (hex32 c) = 8%nat.
Proof. reflexivity. Qed.

Lemma run_ok_ext D dry tr0 (s s' : proc W) :
  s'.(self).(w) = s.(self).(w) → s'.(trace) = s.(trace) →
  s'.(self).(processed) = s.(self).(processed) →
  run_ok D dry tr0 s → run_ok D dry tr0 s'.
Proof. unfold run_ok. by intros -> -> ->. Qed.

Lemma reported_errorExit (s : proc W) msg :
  reported {| self := self s; stdout := stdout s ++ [["Error: " +:+ msg]];
              trace := trace s |}.
Proof. exists (stdout s), msg, []. split; [done|]. simpl. lia. Qed.

Lemma reported_handleError (s : proc W) msg e :
  reported {| self := self s;
              stdout := (stdout s ++ [["Error: " +:+ msg]]) ++ [[Error e]];
              trace := trace s |}.
Proof.
  exists (stdout s), msg, [[Error e]]. split; [|simpl; lia].
  simpl. by rewrite <- app_assoc.
Qed.

Lemma handleError_ok D dry tr0 err msg (s : proc W) :
  run_ok D dry tr0 s →
  wp (handleError err msg) (λ _ s', s' = s ∧ err = None)
    (λ c s', c = 1 ∧ run_ok D dry tr0 s' ∧ reported s') s.
Proof.
  intros Hok. destruct err as [e|].
  - apply wp_handleError_Some. split; [done|].
    split; [by eapply run_ok_ext|apply reported_handleError].
  - by apply wp_handleError_None.
Qed.

(** What [writeFile] returns and leaves. *)
Lemma writeFile_ok target name size data (s : proc W) :
  wp (writeFile target name size data)
    (λ r s', s'.(stdout) = s.(stdout)
             ∧ s'.(self).(processed) = s.(self).(processed)
             ∧ (s'.(self).(w) = None ↔ s.(self).(w) = None)
             ∧ (s.(self).(w) = None → s' = s ∧ r = ("", None))
             ∧ (is_Some s.(self).(w) → r.2 = None →
                size <= maxSize ∧ ∃ bs, r.1 = hex32 (Adler32 bs)))
    (λ _ _, False) s.
Proof.
  destruct (w (self s)) as [wr|] eqn:Hw.
  - destruct (decide (maxSize < size)) as [Hbig|Hsize].
    + eapply wp_of_Done; [apply writeFile_too_large|]; [by rewrite Hw|done|].
      rewrite Hw. repeat split; try done.
    + eapply wp_mono;
        [| |apply wp_and;
              [apply (writeFile_within_bound target name size data s)
              |apply (writeFile_version target name size data s)]];
        [| |by rewrite Hw|lia|by rewrite Hw].
      * intros r s' [(_ & _ & [wr' Hw'] & _ & Ho & Hp & _) Hver].
        rewrite Hw'. repeat split; try done.
        -- lia.
        -- destruct (Hver H1) as (f0 & _ & _ & ->).
           exists (concat (chunks f0)). apply hex_of_chunks.
      * by intros c s' [[] _].
  - eapply wp_of_Done; [by apply writeFile_dry_run|].
    rewrite Hw. repeat split; try done; by intros [].
Qed.

Section Walk.

Variable D : string → Prop.
Variable dry : bool.
Variable tr0 : list event.

Lemma walkFn_ok targetDir root base p info err (s : proc W) :
  D targetDir → run_ok D dry tr0 s →
  wp (walkFn targetDir root base p info err)
    (λ _ s', run_ok D dry tr0 s')
    (λ c s', c = 1 ∧ run_ok D dry tr0 s' ∧ reported s') s.
Proof.
  intros HD Hok. unfold walkFn. apply wp_bind.
  eapply wp_mono; [| |by apply (handleError_ok D dry tr0)]; [|done].
  intros ? ? [-> _]. destruct info as [size data| | | | |];
    try by apply wp_ret.
  destruct (filepath.Rel root p) as [rel|e].
  2: { eapply wp_mono; [| |by apply (handleError_ok D dry tr0)]; [|done].
       by intros ? ? [-> _]. }
  unfold filepath.ToSlash. set (t := path.Join [targetDir; base; rel]).
  apply wp_bind, wp_getSelf.
  destruct (processed (self s) !! t) as [r0|] eqn:Hfree.
  { apply wp_errorExit. split; [done|].
    split; [by eapply run_ok_ext|apply reported_errorExit]. }
  apply wp_bind, wp_Println. apply wp_bind.
  eapply wp_mono; [| |apply writeFile_ok]; [|done].
  intros r s2 (Hout & Hproc & Hw2 & Hdry & Hwet). simpl in *.
  destruct Hok as (Hw & Htr & Hrec).
  assert (run_ok D dry tr0 s2) as Hok2.
  { split; [by rewrite Hw2|]. split.
    - intros Hd. destruct (Hdry (proj2 Hw Hd)) as [-> _]. by apply Htr.
    - by rewrite Hproc. }
  apply wp_bind.
  eapply wp_mono; [| |by apply (handleError_ok D dry tr0)]; [|done].
  intros ? ? [-> Hr]. apply wp_bind, wp_getSelf. apply wp_setProcessed.
  destruct Hok2 as (Hw' & Htr' & Hrec').
  split; [done|]. split; [done|]. simpl. intros t' r'.
  destruct (decide (t' = t)) as [->|Hne].
  - rewrite lookup_insert_eq. intros [= <-]. split; [done|].
    split; [by exists targetDir, base, rel|].
    destruct dry.
    + by destruct (Hdry (proj2 Hw eq_refl)) as [_ ->].
    + apply Hwet; [|done]. destruct (w (self s)); [done|].
      discriminate (proj1 Hw eq_refl).
  - rewrite lookup_insert_ne by done. apply Hrec'.
Qed.

Variable fs : string → node.

Lemma eachSource_ok targetDir srcs :
  D targetDir →
  ∀ s : proc W,
    run_ok D dry tr0 s →
    wp (eachSource fs targetDir srcs)
      (λ _ s', run_ok D dry tr0 s')
      (λ c s', c = 1 ∧ run_ok D dry tr0 s' ∧ reported s') s.
Proof.
  intros HD. induction srcs as [|x srcs IH]; intros s Hok; simpl.
  - by apply wp_ret.
  - apply wp_bind.
    assert (wp (walk fs targetDir x)
              (λ _ s', wp (eachSource fs targetDir srcs)
                         (λ _ s'0, run_ok D dry tr0 s'0)
                         (λ c s'0, c = 1 ∧ run_ok D dry tr0 s'0
                                   ∧ reported s'0) s')
              (λ c s', c = 1 ∧ run_ok D dry tr0 s' ∧ reported s') s)
      as Hwalk.
    { unfold walk.
      eapply wp_mono;
        [| |apply (Walk_invariant _ (run_ok D dry tr0)
                     (λ c s', c = 1 ∧ run_ok D dry tr0 s' ∧ reported s'))];
        [|done| |done].
      - intros ? s1 Hs1. by apply IH.
      - intros p info err s0 Hs0. by apply walkFn_ok. }
    assert (wp (Println
                  ["skip source, not a regular file or directory:"; x])
              (λ _ s', wp (eachSource fs targetDir srcs)
                         (λ _ s'0, run_ok D dry tr0 s'0)
                         (λ c s'0, c = 1 ∧ run_ok D dry tr0 s'0
                                   ∧ reported s'0) s')
              (λ c s', c = 1 ∧ run_ok D dry tr0 s' ∧ reported s') s)
      as Hskip.
    { apply wp_Println. apply IH. by eapply run_ok_ext. }
    destruct (Stat (fs x)) as [size data|entries|e|to| |e];
      [exact Hwalk|exact Hwalk|exact Hwalk|exact Hskip|exact Hskip|].
    unfold wp. simpl. split; [done|].
    split; [by eapply run_ok_ext|].
    apply (reported_handleError s ("stat error: " +:+ x) (SysError e)).
Qed.

Lemma eachMapping_ok ms :
  Forall (λ m, D m.(targetDir)) ms →
  ∀ s : proc W,
    run_ok D dry tr0 s →
    wp (eachMapping fs ms)
      (λ _ s', run_ok D dry tr0 s')
      (λ c s', c = 1 ∧ run_ok D dry tr0 s' ∧ reported s') s.
Proof.
  induction 1 as [|m ms Hm _ IH]; intros s Hok; simpl.
  - by apply wp_ret.
  - apply wp_bind.
    assert (∀ s1, run_ok D dry tr0 s1 →
              wp (eachSource fs (targetDir m) (src m) ;; eachMapping fs ms)
                (λ _ s', run_ok D dry tr0 s')
                (λ c s', c = 1 ∧ run_ok D dry tr0 s' ∧ reported s') s1)
      as Hrest.
    { intros s1 Hs1. apply wp_bind.
      eapply wp_mono; [| |by apply eachSource_ok]; [|done].
      intros ? s2 Hs2. by apply IH. }
    destruct (src m).
    + apply wp_Println. apply Hrest. by eapply run_ok_ext.
    + apply wp_ret. by apply Hrest.
Qed.

End Walk.

Variable fs : string → node.
Variable header : string → string.

Lemma Fprintf_ok D dry tr0 text (s : proc W) :
  run_ok D dry tr0 s → is_Some s.(self).(w) →
  wp (Fprintf text)
    (λ _ s', run_ok D dry tr0 s'
             ∧ s'.(self).(mappings) = s.(self).(mappings))
    (λ _ _, False) s.
Proof.
  intros (Hd & Ht & Hr) [wr Hw]. apply wp_Fprintf. rewrite Hw.
  split; [|done]. split; [|done]. simpl. rewrite <- Hd, Hw. by split.
Qed.

Lemma writeHeader_ok D dry tr0 (s : proc W) :
  run_ok D dry tr0 s →
  wp (writeHeader header)
    (λ _ s', run_ok D dry tr0 s'
             ∧ s'.(self).(mappings) = s.(self).(mappings))
    (λ _ _, False) s.
Proof.
  intros Hok. unfold writeHeader. apply wp_bind, wp_getSelf.
  destruct (w (self s)) as [wr|] eqn:Hw; [|by apply wp_ret].
  apply Fprintf_ok; [done|by rewrite Hw].
Qed.

Lemma writeFooter_ok D dry tr0 (s : proc W) :
  run_ok D dry tr0 s →
  wp writeFooter
    (λ _ s', run_ok D dry tr0 s'
             ∧ s'.(self).(mappings) = s.(self).(mappings))
    (λ _ _, False) s.
Proof.
  intros Hok. unfold writeFooter. apply wp_bind, wp_getSelf.
  destruct (w (self s)) as [wr|] eqn:Hw; [|by apply wp_ret].
  apply Fprintf_ok; [done|by rewrite Hw].
Qed.

Lemma Generate_ok (s : proc W) :
  wp (Generate fs header)
    (λ _ s', run_ok (λ d, d ∈ map targetDir s.(self).(mappings))
               (bool_decide (s.(self).(w) = None)) s.(trace) s')
    (λ c s', c = 1
             ∧ run_ok (λ d, d ∈ map targetDir s.(self).(mappings))
                 (bool_decide (s.(self).(w) = None)) s.(trace) s'
             ∧ reported s') s.
Proof.
  set (D := λ d, d ∈ map targetDir s.(self).(mappings)).
  set (dry := bool_decide (s.(self).(w) = None)).
  unfold Generate. apply wp_bind, wp_setProcessed.
  match goal with |- wp _ _ _ ?s0 =>
    assert (run_ok D dry (trace s) s0) as Hok end.
  { split; [|split]; simpl.
    - subst dry. by rewrite bool_decide_eq_true.
    - done.
    - intros t r. by rewrite lookup_empty. }
  apply wp_bind.
  eapply wp_mono; [| |by apply (writeHeader_ok D dry (trace s))]; [|done].
  intros err s1 [Hs1 Hm]. simpl in Hm. apply wp_bind.
  eapply wp_mono; [| |by apply (handleError_ok D dry (trace s))]; [|done].
  intros ? ? [-> _]. apply wp_bind, wp_getSelf. apply wp_bind.
  eapply wp_mono; [| |apply (eachMapping_ok D dry (trace s))];
    [|done| |done].
  2: { rewrite Hm. apply Forall_forall. intros m Hin. subst D. simpl.
       by apply list_elem_of_fmap_2. }
  intros ? s3 Hs3. apply wp_bind.
  eapply wp_mono; [| |by apply (writeFooter_ok D dry (trace s))]; [|done].
  intros err' s4 [Hs4 _].
  eapply wp_mono; [| |by apply (handleError_ok D dry (trace s))]; [|done].
  by intros ? ? [-> _].
Qed.

End Invariants.

(** X6.  With the in-memory writer, [writeFile] on a source within the
    size bound that opens and reads to its end returns the version of its
    bytes and no error; it has appended to the output exactly the element
    of the map literal for the virtual path and the bytes, which does not
    depend on how the reads cut the bytes into chunks, and has opened the
    source, read it once per chunk and once more, and closed it. *)
Theorem writeFile_text (target name : string) (size : Z) (f : Gen.stream)
    (s : Gen.proc Gen.buffer) (out : Gen.buffer) :
  s.(Gen.self).(Gen.w) = Some out → size <= Gen.maxSize →
  f.(Gen.ending) = None →
  Gen.writeFile target name size (inr f) s
  = Gen.Done (Spec.hex32 (Spec.Adler32 (concat f.(Gen.chunks))), None)
      (emitted s
         (out +:+ Gen.tab +:+ Gen.quote +:+ target +:+ Gen.quote
          +:+ ": &file{" +:+ Gen.nl +:+ Gen.tab +:+ Gen.tab
          +:+ "contents: []byte{" +:+ byteTable (concat f.(Gen.chunks))
          +:+ "}," +:+ Gen.nl +:+ Gen.tab +:+ Gen.tab +:+ "version: "
          +:+ Gen.quote +:+ Spec.hex32 (Spec.Adler32 (concat f.(Gen.chunks)))
          +:+ Gen.quote +:+ "," +:+ Gen.nl +:+ Gen.tab +:+ "}," +:+ Gen.nl)
         (Gen.EvOpen name
          :: replicate (S (length f.(Gen.chunks))) (Gen.EvRead name)
          ++ [Gen.EvClose name])).
Proof.
  intros Hw Hsize Hend. destruct f as [cs e]. simpl in *. subst e.
  exact (writeFile_buffer
           {| source := name; target := target; declared := size;
              parts := cs |} s out Hw Hsize).
Qed.

Lemma writeFile_text_witness :
  Gen.writeFile "/docs/hello.txt" "testdata/hello.txt" 2 (inr hello_stream)
    (start [] (Some "package vfs"))
  = Gen.Done ("013b00d2", None)
      {| Gen.self :=
           {| Gen.mappings := [];
              Gen.w :=
                Some ("package vfs" +:+ Gen.tab +:+ Gen.quote
                      +:+ "/docs/hello.txt" +:+ Gen.quote +:+ ": &file{"
                      +:+ Gen.nl +:+ Gen.tab +:+ Gen.tab
                      +:+ "contents: []byte{104, 105, }," +:+ Gen.nl
                      +:+ Gen.tab +:+ Gen.tab +:+ "version: " +:+ Gen.quote
                      +:+ "013b00d2" +:+ Gen.quote +:+ "," +:+ Gen.nl
                      +:+ Gen.tab +:+ "}," +:+ Gen.nl);
              Gen.pkgName := "vfs"; Gen.processed := ∅ |};
         Gen.stdout := [];
         Gen.trace := [Gen.EvOpen "testdata/hello.txt";
                       Gen.EvRead "testdata/hello.txt";
                       Gen.EvRead "testdata/hello.txt";
                       Gen.EvClose "testdata/hello.txt"] |}.
Proof.
  refine (eq_trans
            (writeFile_text "/docs/hello.txt" "testdata/hello.txt" 2
               hello_stream (start [] (Some "package vfs")) "package vfs"
               _ _ _) _).
  - reflexivity.
  - unfold Gen.maxSize. lia.
  - reflexivity.
  - vm_compute. reflexivity.
Defined.

(** X7.  The inner loop of [writeFile] writes, for each byte in order,
    its decimal value followed by a comma and a blank, and with the
    in-memory writer it cannot fail; read back as the elements of a Go
    byte-slice literal, the text written denotes exactly the bytes it was
    written for. *)
Theorem byte_table_round_trip (bs : list byte) (s : Gen.proc Gen.buffer)
    (out : Gen.buffer) :
  s.(Gen.self).(Gen.w) = Some out →
  Gen.writeBytes bs s = Gen.Done None (emitted s (out +:+ byteTable bs) [])
  ∧ literalBytes 0 (byteTable bs) = bs.
Proof.
  intros Hw. split; [by apply writeBytes_buffer|apply literalBytes_table].
Qed.

Lemma byte_table_round_trip_witness :
  literalBytes 0 (byteTable ["h"%byte; "i"%byte; "255"%byte; "000"%byte])
  = ["h"%byte; "i"%byte; "255"%byte; "000"%byte].
Proof.
  refine (proj2 (byte_table_round_trip
                   ["h"%byte; "i"%byte; "255"%byte; "000"%byte]
                   (start [] (Some "")) "" _)).
  reflexivity.
Defined.

(** X8.  When a run of [Generate] with the in-memory writer ends
    normally, every regular file below the matched sources was embedded:
    each had a relative path, a size within the bound and data that read
    to its end, and no two of them got the same virtual path.  The output
    is the header, the elements of the files in the order of the mappings,
    their sources and the walk, and the closing brace; the sources were
    opened, read and closed one after the other in that order; and the
    registry holds exactly the records of these files. *)
Theorem Generate_artifact (fs : string → Gen.node) (header : string → string)
    (s s' : Gen.proc Gen.buffer) (out : Gen.buffer) :
  s.(Gen.self).(Gen.w) = Some out →
  Gen.Generate fs header s = Gen.Done tt s' →
  ∃ es : list entry,
    planOf fs s.(Gen.self).(Gen.mappings) = map Some es
    ∧ NoDup (map target es)
    ∧ s'.(Gen.self).(Gen.w)
      = Some (out +:+ header s.(Gen.self).(Gen.pkgName) +:+ textOf es
              +:+ "}" +:+ Gen.nl)
    ∧ s'.(Gen.trace) = s.(Gen.trace) ++ eventsOf es
    ∧ s'.(Gen.self).(Gen.processed) = register ∅ es
    ∧ ∀ e, e ∈ es →
        s'.(Gen.self).(Gen.processed) !! e.(target) = Some (entryFile e).
Proof.
  intros Hw Hrun.
  pose proof (wp_Done _ _ _ _ _ _ (Generate_embeds fs header s out Hw) Hrun)
    as (es & Hplan & Hnd & Hw' & Ht & Hp & _).
  exists es. repeat split; try done.
  intros e He. unfold Gen.buffer in *. rewrite Hp.
  by apply register_lookup_fresh.
Qed.

Lemma Generate_artifact_witness :
  ∃ es : list entry,
    Gen.Generate example_fs example_header two_mappings_start
    = Gen.Done tt two_mappings_end
    ∧ map target es = ["/static/assets/sub/file.txt"; "/docs/hello.txt"]
    ∧ two_mappings_end.(Gen.self).(Gen.w)
      = Some ("" +:+ example_header "vfs" +:+ textOf es +:+ "}" +:+ Gen.nl).
Proof.
  assert (Gen.Generate example_fs example_header two_mappings_start
          = Gen.Done tt two_mappings_end) as Hrun
    by (vm_compute; reflexivity).
  destruct (Generate_artifact example_fs example_header two_mappings_start
              two_mappings_end "" eq_refl Hrun)
    as (es & Hplan & _ & Hw & _).
  exists es. split; [exact Hrun|]. split; [|exact Hw].
  vm_compute in Hplan.
  destruct es as [|e1 [|e2 [|e3 es]]]; try discriminate Hplan.
  simpl in Hplan. injection Hplan as <- <-. reflexivity.
Defined.

Section ReadBack.

Import Vfs Spec.


Lemma stored_contents (e : entry) : contents (stored e) = bytes e.
Proof. apply literalBytes_table. Qed.


End ReadBack.



(** X10.  A run of [Generate] never panics, whatever the writer and also
    with none: when it ends the process, the exit code is 1 and the last
    thing printed is an error report, a line [Error: ...] followed by at
    most one line with the error. *)
Theorem Generate_exit_reported {W : Type} `{Gen.Writer W}
    (fs : string → Gen.node) (header : string → string)
    (s s' : Gen.proc W) (c : Z) :
  Gen.Generate fs header s = Gen.Exit c s' → c = 1 ∧ reported s'.
Proof.
  intros Hrun.
  pose proof (wp_Exit _ _ _ _ _ _ (Generate_ok fs header s) Hrun)
    as (Hc & _ & Hrep).
  done.
Qed.

Lemma Generate_exit_reported_witness :
  ∃ s', colliding_run = Gen.Exit 1 s' ∧ 1 = 1 ∧ reported s'.
Proof.
  eexists. split; [vm_compute; reflexivity|].
  eapply (Generate_exit_reported example_fs example_header colliding_start).
  vm_compute. reflexivity.
Defined.

(** X11.  In every state in which a run of [Generate] ends, normally or
    not, each record of the registry carries its key as its path, and the
    key is the join of the target directory of one of the mappings with a
    base name and a relative path, so it is rooted when the target
    directories are.  In a dry run every version is empty; with a writer
    every size is within [maxSize] and every version is the eight-digit
    rendering of a checksum. *)
Theorem registry_records {W : Type} `{Gen.Writer W} (fs : string → Gen.node)
    (header : string → string) (s s' : Gen.proc W) (c : Z) :
  Gen.Generate fs header s = Gen.Done tt s'
  ∨ Gen.Generate fs header s = Gen.Exit c s' →
  ∀ t r, s'.(Gen.self).(Gen.processed) !! t = Some r →
    r.(Gen.path) = t
    ∧ (∃ targetDir base rel,
         targetDir ∈ map Gen.targetDir s.(Gen.self).(Gen.mappings)
         ∧ t = path.Join [targetDir; base; rel])
    ∧ (Forall (λ m, rooted m.(Gen.targetDir) = true)
         s.(Gen.self).(Gen.mappings) → rooted t = true)
    ∧ (s.(Gen.self).(Gen.w) = None → r.(Gen.version) = "")
    ∧ (is_Some s.(Gen.self).(Gen.w) →
       r.(Gen.size) <= Gen.maxSize
       ∧ String.length r.(Gen.version) = 8%nat
       ∧ ∃ bs, r.(Gen.version) = Spec.hex32 (Spec.Adler32 bs)).
Proof.
  intros Hrun t r Hr.
  pose proof (Generate_ok fs header s) as Hwp.
  assert (run_ok (λ d, d ∈ map Gen.targetDir s.(Gen.self).(Gen.mappings))
            (bool_decide (s.(Gen.self).(Gen.w) = None)) s.(Gen.trace) s')
    as (_ & _ & Hrec).
  { destruct Hrun as [Hrun|Hrun].
    - exact (wp_Done _ _ _ _ _ _ Hwp Hrun).
    - by destruct (wp_Exit _ _ _ _ _ _ Hwp Hrun) as (_ & Hok & _). }
  destruct (Hrec t r Hr) as (Hpath & (d & base & rel & Hd & ->) & Hver).
  split; [done|]. split; [by exists d, base, rel|]. split; [|split].
  - intros Hall. apply Join_rooted.
    apply list_elem_of_fmap in Hd as (m & -> & Hm).
    rewrite Forall_forall in Hall. by apply Hall.
  - intros Hw. by rewrite bool_decide_true in Hver.
  - intros [wr Hw]. rewrite bool_decide_false in Hver by (by rewrite Hw).
    destruct Hver as (Hsize & bs & Hv). split; [done|].
    split; [|by exists bs]. by rewrite Hv.
Qed.

Lemma registry_records_witness :
  ∃ r, two_mappings_end.(Gen.self).(Gen.processed) !! "/docs/hello.txt"
       = Some r
       ∧ r.(Gen.path) = "/docs/hello.txt"
       ∧ rooted "/docs/hello.txt" = true
       ∧ String.length r.(Gen.version) = 8%nat.
Proof.
  eexists. split; [vm_compute; reflexivity|].
  destruct (registry_records example_fs example_header two_mappings_start
              two_mappings_end 0 ltac:(left; vm_compute; reflexivity)
              "/docs/hello.txt" _ ltac:(vm_compute; reflexivity))
    as (Hpath & _ & Hrooted & _ & Hwet).
  split; [exact Hpath|]. split.
  - apply Hrooted. repeat constructor.
  - destruct Hwet as (_ & Hlen & _); [by eexists|exact Hlen].
Defined.

(** X12.  A dry run, one with no writer, makes no call on any source
    file and stays without a writer, however it ends: the trace and the
    (absent) writer are at the end what they were at the start. *)
Theorem dry_run_reads_nothing {W : Type} `{Gen.Writer W}
    (fs : string → Gen.node) (header : string → string)
    (s s' : Gen.proc W) (c : Z) :
  s.(Gen.self).(Gen.w) = None →
  Gen.Generate fs header s = Gen.Done tt s'
  ∨ Gen.Generate fs header s = Gen.Exit c s' →
  s'.(Gen.self).(Gen.w) = None ∧ s'.(Gen.trace) = s.(Gen.trace).
Proof.
  intros Hw Hrun.
  pose proof (Generate_ok fs header s) as Hwp.
  assert (run_ok (λ d, d ∈ map Gen.targetDir s.(Gen.self).(Gen.mappings))
            (bool_decide (s.(Gen.self).(Gen.w) = None)) s.(Gen.trace) s')
    as (Hdry & Htr & _).
  { destruct Hrun as [Hrun|Hrun].
    - exact (wp_Done _ _ _ _ _ _ Hwp Hrun).
    - by destruct (wp_Exit _ _ _ _ _ _ Hwp Hrun) as (_ & Hok & _). }
  rewrite bool_decide_true in Hdry, Htr by done.
  split; [by apply Hdry|by apply Htr].
Qed.

Lemma dry_run_reads_nothing_witness :
  ∃ s' : Gen.proc Gen.buffer,
    Gen.Generate example_fs example_header
      (start [Gen.mkmapping ["assets"] "/static" "assets::/static"] None)
    = Gen.Done tt s'
    ∧ s'.(Gen.self).(Gen.w) = None ∧ s'.(Gen.trace) = [].
Proof.
  eexists. split; [vm_compute; reflexivity|].
  eapply (dry_run_reads_nothing example_fs example_header
            (start [Gen.mkmapping ["assets"] "/static" "assets::/static"]
               None) _ 0 eq_refl).
  left. vm_compute. reflexivity.
Defined.

(** ** Runs that meet no error *)

Section Success.

Import Gen Spec.

Lemma map_Some_app_inv {A} (l1 l2 : list (option A)) (es : list A) :
  l1 ++ l2 = map Some es →
  ∃ es1 es2, es = es1 ++ es2 ∧ l1 = map Some es1 ∧ l2 = map Some es2.
Proof.
  intros Heq. symmetry in Heq.
  destruct (fmap_app_inv Some es l1 l2 Heq) as (es1 & es2 & -> & -> & ->).
  by exists es1, es2.
Qed.

Lemma fresh_after (s s1 : proc buffer) (es1 es2 : list entry) :
  embeds s es1 s1 →
  NoDup (map target (es1 ++ es2)) →
  Forall (λ e, s.(self).(processed) !! e.(target) = None) (es1 ++ es2) →
  NoDup (map target es2)
  ∧ Forall (λ e, s1.(self).(processed) !! e.(target) = None) es2.
Proof.
  intros (_ & _ & Hp & _) Hnd Hfresh.
  rewrite map_app in Hnd. apply NoDup_app in Hnd as (_ & Hdisj & Hnd2).
  apply Forall_app in Hfresh as [_ Hfresh2]. split; [done|].
  rewrite Forall_forall in Hfresh2. apply Forall_forall. intros e He.
  rewrite Hp. apply register_lookup_None. split; [by apply Hfresh2|].
  intros Hin. apply (Hdisj _ Hin). by apply list_elem_of_fmap_2.
Qed.

Section Walk.

Variables targetDir root base : string.

Lemma walkFn_succeeds p size data (e : entry) (s : proc buffer) :
  is_Some s.(self).(w) →
  planned targetDir root base (p, (size, data)) = Some e →
  s.(self).(processed) !! e.(target) = None →
  wp (walkFn targetDir root base p (Regular size data) None)
    (λ _ s', embeds s [e] s') (λ _ _, False) s.
Proof.
  intros [out Hw] Hplan Hfree. unfold planned in Hplan. cbn [fst snd] in Hplan.
  unfold walkFn. apply wp_bind, wp_handleError_None.
  destruct (filepath.Rel root p) as [rel|msg]; [|done].
  destruct data as [msg|[cs ending]]; [done|].
  case_bool_decide as Hok; [|done]. simpl in Hok. destruct Hok as [-> Hsize].
  injection Hplan as <-. simpl in Hfree.
  set (t := path.Join [targetDir; base; filepath.ToSlash rel]) in *.
  apply wp_bind, wp_getSelf. rewrite Hfree.
  apply wp_bind, wp_Println. apply wp_bind.
  set (s1 := {| self := self s; stdout := stdout s ++ [[p; " -> "; t]];
                trace := trace s |}).
  set (e := {| source := p; target := t; declared := size; parts := cs |}).
  eapply wp_of_Done.
  { apply (writeFile_buffer e s1 out); [done|done]. }
  apply wp_bind, wp_handleError_None. apply wp_bind, wp_getSelf.
  apply wp_setProcessed.
  unfold embeds, emitted, eventsOf. subst s1. simpl.
  rewrite !app_nil_r, append_nil_r.
  repeat split; try done.
  - by exists out.
  - apply NoDup_singleton.
  - by constructor.
Qed.

Lemma walkFn_skips p info (s : proc buffer) :
  (∀ size data, info ≠ Regular size data) →
  wp (walkFn targetDir root base p info None) (λ _ s', s' = s)
    (λ _ _, False) s.
Proof.
  intros Hinfo. unfold walkFn. apply wp_bind, wp_handleError_None.
  destruct info as [sz dt| | | | |]; try done. by destruct (Hinfo sz dt).
Qed.

Lemma Walk_succeeds info :
  walkable info = true →
  ∀ p (es : list entry) (s : proc buffer),
    is_Some s.(self).(w) →
    map (planned targetDir root base) (regularData p info) = map Some es →
    NoDup (map target es) →
    Forall (λ e, s.(self).(processed) !! e.(target) = None) es →
    wp (Walk (walkFn targetDir root base) p info)
      (λ _ s', embeds s es s') (λ _ _, False) s.
Proof.
  induction info as [size data|entries IH|e|to IH| |e] using node_induction;
    intros Hwalk p es s Hw Hplan Hnd Hfresh; try done.
  - destruct es as [|e [|e' es]]; try done. simpl in Hplan.
    injection Hplan as Hplan. apply Forall_cons in Hfresh as [Hfree _].
    by apply walkFn_succeeds.
  - assert (∀ (es : list entry) (s1 : proc buffer),
              is_Some s1.(self).(w) →
              map (planned targetDir root base) (regularDataIn p entries)
              = map Some es →
              NoDup (map target es) →
              Forall (λ e, s1.(self).(processed) !! e.(target) = None) es →
              wp (walkEntries (walkFn targetDir root base) p entries)
                (λ _ s', embeds s1 es s') (λ _ _, False) s1) as Hall.
    { change (walkableIn entries = true) in Hwalk. clear Hplan Hnd Hfresh es.
      induction IH as [|[name child] rest Hchild _ IHrest];
        intros es s1 Hw1 Hplan Hnd Hfresh.
      - destruct es; [|done]. apply wp_ret.
        destruct Hw1 as [out Hw1]. by apply (embeds_nil _ _ out).
      - change (walkable child && walkableIn rest = true) in Hwalk.
        apply andb_true_iff in Hwalk as [Hchildok Hrestok].
        change (regularDataIn p ((name, child) :: rest))
          with (regularData (filepath.Join [p; name]) child
                ++ regularDataIn p rest) in Hplan.
        rewrite map_app in Hplan.
        apply map_Some_app_inv in Hplan as (es1 & es2 & -> & Hplan1 & Hplan2).
        rewrite walkEntries_cons. apply wp_bind.
        assert (NoDup (map target es1)) as Hnd1.
        { rewrite map_app in Hnd. by apply NoDup_app in Hnd as [? _]. }
        assert (Forall (λ e, processed (self s1) !! target e = None) es1)
          as Hfresh1 by (by apply Forall_app in Hfresh as [? _]).
        eapply wp_mono; [| |by apply (Hchild Hchildok _ es1)]; [|done].
        intros ? s2 Hs2.
        destruct (fresh_after _ _ _ _ Hs2 Hnd Hfresh) as [Hnd2 Hfresh2].
        pose proof (IHrest Hrestok es2 s2 (embeds_writer _ _ _ Hs2)
                      Hplan2 Hnd2 Hfresh2) as Hnext.
        eapply wp_mono; [| |exact Hnext]; [|done].
        intros ? s3 Hs3. exact (embeds_trans _ _ _ _ _ Hs2 Hs3). }
    rewrite Walk_Dir. apply wp_bind.
    eapply wp_mono; [| |by apply walkFn_skips]; [|done].
    intros ? s1 ->. by apply Hall.
  - destruct es; [|done].
    eapply wp_mono; [| |by apply walkFn_skips]; [|done].
    intros ? s' ->. destruct Hw as [out Hw]. by apply (embeds_nil _ _ out).
  - destruct es; [|done].
    eapply wp_mono; [| |by apply walkFn_skips]; [|done].
    intros ? s' ->. destruct Hw as [out Hw]. by apply (embeds_nil _ _ out).
Qed.

End Walk.

Variable fs : string → node.
Variable header : string → string.

Lemma eachSource_succeeds targetDir srcs :
  Forall (λ x, sourceOk fs x = true) srcs →
  ∀ (es : list entry) (s : proc buffer),
    is_Some s.(self).(w) →
    planOfSources fs targetDir srcs = map Some es →
    NoDup (map target es) →
    Forall (λ e, s.(self).(processed) !! e.(target) = None) es →
    wp (eachSource fs targetDir srcs)
      (λ _ s', embeds s es s') (λ _ _, False) s.
Proof.
  induction 1 as [|x srcs Hx _ IH]; intros es s Hw Hplan Hnd Hfresh.
  - destruct es; [|done]. apply wp_ret.
    destruct Hw as [out Hw]. by apply (embeds_nil _ _ out).
  - cbn [eachSource]. rewrite planOfSources_cons in Hplan.
    apply map_Some_app_inv in Hplan as (es1 & es2 & -> & Hplan1 & Hplan2).
    apply wp_bind.
    assert (∀ s1, embeds s es1 s1 →
              wp (eachSource fs targetDir srcs)
                (λ _ s', embeds s (es1 ++ es2) s') (λ _ _, False) s1)
      as Hrest.
    { intros s1 Hs1.
      destruct (fresh_after _ _ _ _ Hs1 Hnd Hfresh) as [Hnd2 Hfresh2].
      pose proof (IH es2 s1 (embeds_writer _ _ _ Hs1) Hplan2 Hnd2 Hfresh2)
        as Hnext.
      eapply wp_mono; [| |exact Hnext]; [|done].
      intros ? s2 Hs2. exact (embeds_trans _ _ _ _ _ Hs1 Hs2). }
    assert (NoDup (map target es1)) as Hnd1.
    { rewrite map_app in Hnd. by apply NoDup_app in Hnd as [? _]. }
    assert (Forall (λ e, processed (self s) !! target e = None) es1)
      as Hfresh1 by (by apply Forall_app in Hfresh as [? _]).
    assert (walkable (fs x) = true →
            map (planned targetDir x (filepath.Base x))
              (regularData x (fs x)) = map Some es1 →
            wp (walk fs targetDir x)
              (λ _ s1, wp (eachSource fs targetDir srcs)
                         (λ _ s', embeds s (es1 ++ es2) s')
                         (λ _ _, False) s1)
              (λ _ _, False) s) as Hwalk.
    { intros Hok Hp. unfold walk.
      eapply wp_mono; [| |by apply Walk_succeeds]; [|done].
      intros ? s1 Hs1. by apply Hrest. }
    assert (es1 = [] →
            wp (Println ["skip source, not a regular file or directory:"; x])
              (λ _ s1, wp (eachSource fs targetDir srcs)
                         (λ _ s', embeds s (es1 ++ es2) s')
                         (λ _ _, False) s1)
              (λ _ _, False) s) as Hskip.
    { intros ->. apply wp_Println. apply Hrest.
      destruct Hw as [out Hw]. by apply (embeds_nil _ _ out). }
    unfold sourceOk, sourceData in *.
    destruct (Stat (fs x)) as [size data|entries|e|to| |e]; try done.
    + by apply Hwalk.
    + by apply Hwalk.
    + by apply Hwalk.
    + apply Hskip. by destruct es1.
    + apply Hskip. by destruct es1.
Qed.

Lemma eachMapping_succeeds ms :
  Forall (λ m, Forall (λ x, sourceOk fs x = true) m.(src)) ms →
  ∀ (es : list entry) (s : proc buffer),
    is_Some s.(self).(w) →
    planOf fs ms = map Some es →
    NoDup (map target es) →
    Forall (λ e, s.(self).(processed) !! e.(target) = None) es →
    wp (eachMapping fs ms) (λ _ s', embeds s es s') (λ _ _, False) s.
Proof.
  induction 1 as [|m ms Hm _ IH]; intros es s Hw Hplan Hnd Hfresh.
  - destruct es; [|done]. apply wp_ret.
    destruct Hw as [out Hw]. by apply (embeds_nil _ _ out).
  - cbn [eachMapping]. rewrite planOf_cons in Hplan.
    apply map_Some_app_inv in Hplan as (es1 & es2 & -> & Hplan1 & Hplan2).
    apply wp_bind.
    assert (NoDup (map target es1)) as Hnd1.
    { rewrite map_app in Hnd. by apply NoDup_app in Hnd as [? _]. }
    assert (Forall (λ e, processed (self s) !! target e = None) es1)
      as Hfresh1 by (by apply Forall_app in Hfresh as [? _]).
    assert (∀ s0 : proc buffer,
              self s0 = self s → trace s0 = trace s →
              wp (eachSource fs (targetDir m) (src m) ;; eachMapping fs ms)
                (λ _ s', embeds s (es1 ++ es2) s') (λ _ _, False) s0)
      as Hrest.
    { intros s0 Hself Htrace. apply wp_bind.
      assert (is_Some (w (self s0))) as Hw0 by (by rewrite Hself).
      assert (Forall (λ e, processed (self s0) !! target e = None) es1)
        as Hfresh0 by (by rewrite Hself).
      pose proof (eachSource_succeeds _ _ Hm es1 s0 Hw0 Hplan1 Hnd1 Hfresh0)
        as Hfirst.
      eapply wp_mono; [| |exact Hfirst]; [|done].
      intros ? s1 Hs1.
      assert (embeds s es1 s1) as Hs1'.
      { unfold embeds in *. by rewrite <- Hself, <- Htrace. }
      destruct (fresh_after _ _ _ _ Hs1' Hnd Hfresh) as [Hnd2 Hfresh2].
      pose proof (IH es2 s1 (embeds_writer _ _ _ Hs1') Hplan2 Hnd2 Hfresh2)
        as Hnext.
      eapply wp_mono; [| |exact Hnext]; [|done].
      intros ? s2 Hs2. exact (embeds_trans _ _ _ _ _ Hs1' Hs2). }
    destruct (src m) eqn:Hsrc.
    + apply wp_Println. by apply Hrest.
    + apply wp_ret. by apply Hrest.
Qed.

Lemma Generate_returns (s : proc buffer) (out : buffer) (es : list entry) :
  s.(self).(w) = Some out →
  Forall (λ m, Forall (λ x, sourceOk fs x = true) m.(src))
    s.(self).(mappings) →
  planOf fs s.(self).(mappings) = map Some es →
  NoDup (map target es) →
  wp (Generate fs header) (λ _ _, True) (λ _ _, False) s.
Proof.
  intros Hw Hsrc Hplan Hnd. unfold buffer in *.
  unfold Generate. apply wp_bind, wp_setProcessed.
  apply wp_bind. unfold writeHeader. apply wp_bind, wp_getSelf.
  simpl. rewrite Hw.
  eapply wp_of_Done; [by apply (Fprintf_buffer _ _ out)|].
  apply wp_bind, wp_handleError_None. apply wp_bind, wp_getSelf.
  apply wp_bind.
  match goal with |- wp _ _ _ ?s0 =>
    assert (wp (eachMapping fs (mappings (self s)))
              (λ _ s', embeds s0 es s') (λ _ _, False) s0) as Hall
  end.
  { apply (eachMapping_succeeds _ Hsrc es);
      [by eexists|exact Hplan|exact Hnd|].
    apply Forall_forall. intros e _. simpl. apply lookup_empty. }
  eapply wp_mono; [| |exact Hall]; [|done].
  intros ? s1 ((out1 & Hw0 & Hw1) & _).
  apply wp_bind. unfold writeFooter. apply wp_bind, wp_getSelf.
  unfold buffer in *. rewrite Hw1.
  eapply wp_of_Done; [by apply (Fprintf_buffer _ _ _ Hw1)|].
  by apply wp_handleError_None.
Qed.

End Success.

(** X13.  A run of [Generate] with the in-memory writer ends normally
    when it meets no error: [os.Stat] succeeds on every matched source,
    the walks meet no unreadable directory or entry, every regular file
    below the sources can be embedded (it has a relative path, a size
    within the bound, and opens and reads to its end), and no two of them
    get the same virtual path. *)
Theorem Generate_succeeds (fs : string → Gen.node) (header : string → string)
    (s : Gen.proc Gen.buffer) (out : Gen.buffer) (es : list entry) :
  s.(Gen.self).(Gen.w) = Some out →
  Forall (λ m, Forall (λ x, sourceOk fs x = true) m.(Gen.src))
    s.(Gen.self).(Gen.mappings) →
  planOf fs s.(Gen.self).(Gen.mappings) = map Some es →
  NoDup (map target es) →
  ∃ s', Gen.Generate fs header s = Gen.Done tt s'.
Proof.
  intros Hw Hsrc Hplan Hnd.
  destruct (wp_returns _ _ _ (Generate_returns fs header s out es
                                 Hw Hsrc Hplan Hnd))
    as ([] & s' & Hrun & _).
  by exists s'.
Qed.

Lemma Generate_succeeds_witness :
  ∃ s', Gen.Generate example_fs example_header two_mappings_start
        = Gen.Done tt s'.
Proof.
  apply (Generate_succeeds example_fs example_header two_mappings_start ""
           [ {| source := "assets/sub/file.txt";
                target := "/static/assets/sub/file.txt";
                declared := 2; parts := [["h"%byte; "i"%byte]] |};
             {| source := "testdata/hello.txt"; target := "/docs/hello.txt";
                declared := 2; parts := [["h"%byte; "i"%byte]] |} ]).
  - reflexivity.
  - repeat constructor.
  - vm_compute. reflexivity.
  - simpl. apply NoDup_cons. split; [|apply NoDup_singleton].
    intros Hin. apply list_elem_of_singleton in Hin. discriminate Hin.
Defined.

(** ** The command *)

Section CommandProperties.

Import Gen Spec Cmd.

Context {W : Type} `{Writer W} `{Flusher W}.

Variable fs : string → node.
Variable header : string → string.
Variable Glob : string → list string + string.
Variable MkdirAll : string → option string.
Variable Create : string → W + string.
Variable tests : string → file → string.

Lemma wp_setSelf v (Q : unit → proc W → Prop) E (s : proc W) :
  wp (setSelf v) Q E s
  ↔ Q tt {| self := v; stdout := s.(stdout); trace := s.(trace) |}.
Proof. done. Qed.

Lemma reported_ext (s s' : proc W) :
  s'.(stdout) = s.(stdout) → reported s → reported s'.
Proof. unfold reported. by intros ->. Qed.

Lemma handleError_reported err msg (s : proc W) :
  wp (handleError err msg) (λ _ s', s' = s ∧ err = None)
    (λ c s', c = 1 ∧ reported s' ∧ self s' = self s ∧ trace s' = trace s) s.
Proof.
  destruct err as [e|].
  - apply wp_handleError_Some. split; [done|].
    split; [apply reported_handleError|done].
  - by apply wp_handleError_None.
Qed.

Lemma errorExit_reported {A} msg (Q : A → proc W → Prop) (s : proc W) :
  wp (errorExit msg) Q
    (λ c s', c = 1 ∧ reported s' ∧ self s' = self s ∧ trace s' = trace s) s.
Proof.
  apply wp_errorExit. split; [done|]. split; [apply reported_errorExit|done].
Qed.

(** What [resolveSources] returns for each operand. *)
Lemma resolveSources_ok (args : list string) :
  ∀ s : proc W,
    wp (resolveSources Glob args)
      (λ ms s',
         s' = s
         ∧ Forall2 (λ a m,
              let i := strings.LastIndex a "::" in
              i ≠ -1
              ∧ m.(pattern) = a
              ∧ Glob (strings.TrimSpace (strings.slice a 0 i))
                = inl m.(src)
              ∧ m.(targetDir)
                = path.Clean
                    (strings.TrimSpace
                       (strings.slice a (i + 2) (strings.len a)))
              ∧ rooted m.(targetDir) = true) args ms)
      (λ c s', c = 1 ∧ reported s' ∧ self s' = self s ∧ trace s' = trace s)
      s.
Proof.
  induction args as [|a args IH]; intros s.
  - apply wp_ret. by split.
  - cbn [resolveSources]. cbv zeta.
    destruct (Z.eqb_spec (strings.LastIndex a "::") (-1)) as [|Hi];
      [apply errorExit_reported|].
    set (src := strings.TrimSpace _).
    set (dir := strings.TrimSpace _).
    destruct (String.eqb src "" || String.eqb dir ""
              || negb (strings.Index dir "\" =? -1) || negb (rooted dir))
      eqn:Hbad; [apply errorExit_reported|].
    apply orb_false_iff in Hbad as [_ Hrooted].
    apply negb_false_iff in Hrooted.
    destruct (Glob src) as [matches|e] eqn:Hglob.
    + apply wp_bind. eapply wp_mono; [| |apply IH]; [|done].
      intros ms s' [-> Hall]. apply wp_ret. split; [done|].
      constructor; [|done]. cbv zeta. fold src dir. simpl.
      repeat split; try done. by apply Clean_rooted.
    + apply wp_bind.
      eapply wp_mono; [| |apply handleError_reported]; [|done].
      by intros ? ? [_ ?].
Qed.


(** Without the option [-o], [main] makes a dry run and generates no
    tests, whatever the option [-t]. *)
Lemma main_dry (fl : flags) (s : proc W) :
  strings.TrimSpace fl.(output) = "" →
  wp (main fs header Glob MkdirAll Create tests fl)
    (λ r s', r = None ∧ s'.(self).(w) = None ∧ s'.(trace) = s.(trace))
    (λ c s', (c = 2 ∧ fl.(Args) = []) ∨ (c = 1 ∧ reported s')) s.
Proof.
  intros Hout. unfold main.
  destruct (Args fl) as [|a args] eqn:Hargs.
  { apply wp_bind, wp_Println. apply wp_osExit. by left. }
  rewrite <- Hargs. clear Hargs a args. cbv zeta. rewrite Hout.
  cbn [negb andb String.eqb].
  apply wp_bind.
  eapply wp_mono; [| |apply resolveSources_ok];
    [|intros c s' (-> & Hrep & _); by right].
  intros ms ? [-> Hms]. apply wp_bind, wp_setSelf.
  apply wp_bind, wp_ret. apply wp_bind.
  eapply wp_mono; [| |apply (Generate_ok fs header)];
    [|intros c s' (-> & _ & Hrep); by right].
  intros [] s1 (Hdry & Htr & _). cbn [self w trace] in Hdry, Htr.
  rewrite bool_decide_true in Hdry, Htr by done.
  apply wp_bind, wp_getSelf. rewrite (proj2 Hdry eq_refl).
  apply wp_bind, wp_ret. apply wp_ret.
  split; [done|]. split; [by apply Hdry|by apply Htr].
Qed.

End CommandProperties.

(** X14.  [resolveSources] gives one mapping per operand, in order, and
    prints nothing when it returns: each operand is cut at its last [::],
    the pattern is the operand as given, the sources are the matches of
    the trimmed left part, and the target directory is the cleaned,
    trimmed right part, which is rooted.  When it does not return it ends
    the process with exit code 1 after an error report, the generator
    value untouched; it does so if an operand has no [::]. *)
Theorem resolveSources_mappings {W : Type} `{Gen.Writer W}
    (Glob : string → list string + string) (args : list string)
    (s : Gen.proc W) :
  (∀ ms s', Cmd.resolveSources Glob args s = Gen.Done ms s' →
     s' = s
     ∧ Forall2 (λ a m,
          let i := strings.LastIndex a "::" in
          i ≠ -1
          ∧ m.(Gen.pattern) = a
          ∧ Glob (strings.TrimSpace (strings.slice a 0 i)) = inl m.(Gen.src)
          ∧ m.(Gen.targetDir)
            = path.Clean
                (strings.TrimSpace (strings.slice a (i + 2) (strings.len a)))
          ∧ rooted m.(Gen.targetDir) = true) args ms)
  ∧ (∀ c s', Cmd.resolveSources Glob args s = Gen.Exit c s' →
       c = 1 ∧ reported s' ∧ s'.(Gen.self) = s.(Gen.self))
  ∧ (Exists (λ a, strings.LastIndex a "::" = -1) args →
     ∃ s', Cmd.resolveSources Glob args s = Gen.Exit 1 s').
Proof.
  pose proof (resolveSources_ok Glob args s) as Hwp.
  split; [|split].
  - intros ms s' Hrun. exact (wp_Done _ _ _ _ _ _ Hwp Hrun).
  - intros c s' Hrun.
    by destruct (wp_Exit _ _ _ _ _ _ Hwp Hrun) as (? & ? & ? & _).
  - intros Hbad.
    destruct (Cmd.resolveSources Glob args s) as [ms s'|c s'] eqn:Hrun.
    + destruct (wp_Done _ _ _ _ _ _ Hwp Hrun) as [_ Hall].
      exfalso. clear -Hbad Hall.
      induction Hall as [|a m args ms Ham _ IH].
      * by apply Exists_nil in Hbad.
      * apply Exists_cons in Hbad as [Ha|Hbad]; [|by apply IH].
        by destruct Ham as [Hi _].
    + destruct (wp_Exit _ _ _ _ _ _ Hwp Hrun) as (-> & _). by exists s'.
Qed.

Lemma resolveSources_mappings_witness :
  Cmd.resolveSources example_Glob
    ["testdata/hello.txt::/docs"; " assets/* :: /static/./img/ "] boot
  = Gen.Done
      [Gen.mkmapping ["testdata/hello.txt"] "/docs"
         "testdata/hello.txt::/docs";
       Gen.mkmapping ["assets/*"] "/static/img"
         " assets/* :: /static/./img/ "] boot
  ∧ ∃ s', Cmd.resolveSources example_Glob ["a::/x"; "b:/y"] boot
          = Gen.Exit 1 s'.
Proof.
  split; [vm_compute; reflexivity|].
  apply (proj2 (proj2 (resolveSources_mappings example_Glob
                         ["a::/x"; "b:/y"] boot))).
  apply Exists_cons. right. apply Exists_cons. left.
  vm_compute. reflexivity.
Defined.



(** X16.  Without the option [-o], [main] makes a dry run: when it
    returns, no tests were generated whatever the option [-t] says, there
    is no writer, and no call was made on any source file; when it does
    not return, the exit code is 2 for missing operands and 1, after an
    error report, otherwise. *)
Theorem main_without_output {W : Type} `{Gen.Writer W} `{Cmd.Flusher W}
    (fs : string → Gen.node) (header : string → string)
    (Glob : string → list string + string) (MkdirAll : string → option string)
    (Create : string → W + string) (tests : string → Gen.file → string)
    (fl : Cmd.flags) (s : Gen.proc W) :
  strings.TrimSpace fl.(Cmd.output) = "" →
  (∀ r s', Cmd.main fs header Glob MkdirAll Create tests fl s = Gen.Done r s' →
     r = None ∧ s'.(Gen.self).(Gen.w) = None
     ∧ s'.(Gen.trace) = s.(Gen.trace))
  ∧ (∀ c s', Cmd.main fs header Glob MkdirAll Create tests fl s
             = Gen.Exit c s' →
       (c = 2 ∧ fl.(Cmd.Args) = []) ∨ (c = 1 ∧ reported s')).
Proof.
  intros Hout.
  pose proof (main_dry fs header Glob MkdirAll Create tests fl s Hout) as Hwp.
  split.
  - intros r s' Hrun. exact (wp_Done _ _ _ _ _ _ Hwp Hrun).
  - intros c s' Hrun. exact (wp_Exit _ _ _ _ _ _ Hwp Hrun).
Qed.

Lemma main_without_output_witness :
  ∃ s', Cmd.main example_fs example_header example_Glob example_MkdirAll
          example_Create example_tests
          {| Cmd.output := "  "; Cmd.pkgName := "vfs";
             Cmd.testFile := "/docs/hello.txt";
             Cmd.Args := ["testdata/hello.txt::/docs"] |} boot
        = Gen.Done None s'
        ∧ s'.(Gen.self).(Gen.w) = None ∧ s'.(Gen.trace) = [].
Proof.
  eexists. split; [vm_compute; reflexivity|].
  destruct (proj1 (main_without_output example_fs example_header
                     example_Glob example_MkdirAll example_Create
                     example_tests
                     {| Cmd.output := "  "; Cmd.pkgName := "vfs";
                        Cmd.testFile := "/docs/hello.txt";
                        Cmd.Args := ["testdata/hello.txt::/docs"] |} boot
                     ltac:(vm_compute; reflexivity))
              None _ ltac:(vm_compute; reflexivity))
    as (_ & Hw & Ht).
  split; [exact Hw|exact Ht].
Defined.
